(** * The generic assembler core of subc/asm (asm.go)

    A shallow embedding of the section / symbol / relocation bookkeeping
    that every architecture backend of the assembler shares, together
    with the properties its specification states about it.

    Go pointers are modelled as indices into a store ([heap]) with one
    region per pointed-to struct type, so that a symbol reachable from
    the global map, the declaration-order list and a section list is one
    shared record, as in the source. *)

From Stdlib Require Import ZArith.
From Stdlib.Strings Require Import Byte.
From stdpp Require Import gmap strings list fin_maps pretty.

#[local] Set Warnings "-register-all".
Local Open Scope Z_scope.

(** ** Machine integers and bytes *)

(** Go's [int64], and [int] on the amd64 target: two's complement
    wrap-around on 64 bits. *)
Definition wrap64 (z : Z) : Z := (z + 2 ^ 63) mod 2 ^ 64 - 2 ^ 63.
Definition add64 (a b : Z) : Z := wrap64 (a + b).
Definition sub64 (a b : Z) : Z := wrap64 (a - b).
(** Go's [%] truncates toward zero; the divisor is checked by the caller. *)
Definition rem64 (a b : Z) : Z := wrap64 (Z.rem a b).

(** [int64(len(x))] *)
Definition len {A} (l : list A) : Z := Z.of_nat (length l).

(** [runtime.maxAlloc], the most bytes one allocation can have, on
    linux/amd64 (48 bits of heap address). *)
Definition maxAlloc : Z := 2 ^ 48.

(** The conversion [byte(v)] keeps the low eight bits. *)
Definition byte_of_Z (z : Z) : byte :=
  default "000"%byte (Byte.of_N (Z.to_N (Z.land z 255))).

(** [binary.ByteOrder]; [newprog] always installs [LittleEndian]. *)
Inductive ByteOrder := LittleEndian | BigEndian.

Fixpoint le_bytes (n : nat) (v : Z) : list byte :=
  match n with
  | O => []
  | S k => byte_of_Z v :: le_bytes k (Z.shiftr v 8)
  end.

(** [binary.Write(buf, order, v)] for an unsigned integer of [n] bytes. *)
Definition put_uint (order : ByteOrder) (n : nat) (v : Z) : list byte :=
  match order with
  | LittleEndian => le_bytes n v
  | BigEndian => reverse (le_bytes n v)
  end.

(** ** Constants *)

(** [type op int] *)
Abbreviation op := Z (only parsing).

Definition opNOP : op := 0.
Definition opSTRZ : op := 1.
Definition opQUAD : op := 2.
Definition opLONG : op := 3.
Definition opSHORT : op := 4.
Definition opBYTE : op := 5.
Definition opBYTES : op := 6.

Definition aNONE := 0.
Definition aREG := 1.
Definition aVAR := 2.
Definition aPTR := 3.
Definition aMEM := 4.
Definition aINT := 5.
Definition aSTR := 6.
Definition aNOTE := 7.
Definition aSECT := 8.

Definition sNONE := 0.
Definition sLABEL := 1.
Definition sBSS := 2.
Definition sUND := 3.

Definition lN := 0.
Definition lS := 1.
Definition lPC := 2.
Definition lV := 3.

Definition stNONE := 0.
Definition stNOTE := 1.
Definition stPROGBITS := 2.
Definition stNOBITS := 3.
Definition stSYMTAB := 4.
Definition stSTRTAB := 5.

(** ** Data model *)

(** A non-nil pointer is an index into its region of the store; a
    pointer-typed field is an [option ptr], [None] being [nil]. *)
Abbreviation ptr := nat (only parsing).

Record addr := {
  a_typ : Z;
  a_reg : byte;
  a_ival : Z;
  a_sval : string;
  a_deref : bool
}.

Definition addr0 : addr :=
  {| a_typ := 0; a_reg := "000"%byte; a_ival := 0; a_sval := ""; a_deref := false |}.

(** [[4]addr] *)
Definition addr4 : Type := addr * addr * addr * addr.
Definition addr4_0 : addr4 := (addr0, addr0, addr0, addr0).

Record inst := {
  i_op : op;
  i_addr : addr4;
  i_code : list byte
}.

Record span := {
  sp_off : Z;
  sp_size : Z;
  sp_pc : Z
}.

Record section := {
  s_name : string;
  s_flags : string;
  s_typ : Z;
  s_inst : list ptr;
  s_syms : list ptr;
  s_vars : list ptr;
  s_labels : list ptr;
  s_blocks : list ptr;
  s_strings : list span;
  s_relocs : list ptr;
  s_size : Z;
  s_blockalign : Z;
  s_blocksize : Z;
  s_pc : Z
}.

Record sym := {
  sym_sect : option ptr;
  sym_typ : Z;
  sym_name : string;
  sym_size : Z;
  sym_off : Z;
  sym_pc : Z;
  sym_allocated : bool;
  sym_exported : bool
}.

Record relocation := {
  r_section : option ptr;
  r_inst : option ptr;
  r_off : Z;
  r_pc : Z;
  r_isize : Z;
  r_reltyp : Z;
  r_relname : string;
  r_rel : Z
}.

Record prog := {
  p_arch : string;
  p_os : string;
  p_endian : ByteOrder;
  p_text : option ptr;
  p_data : option ptr;
  p_bss : option ptr;
  p_sects : list ptr;
  p_syms : gmap string ptr;
  p_osyms : list ptr;
  p_usyms : list ptr;
  p_relocs : list ptr
}.

(** The store: what [&inst{...}], [&sym{...}], [&section{...}] and
    [&relocation{...}] allocate.  Allocation appends, so the address of a
    new cell is the length of its region. *)
Record heap := {
  h_inst : list inst;
  h_sym : list sym;
  h_sect : list section;
  h_reloc : list relocation
}.

(** The receiver of the assembler methods.  [as_prog] is the embedded
    [*prog]; [as_heap] is the store its pointers and [as_sect] index. *)
Record as_ := {
  as_heap : heap;
  as_prog : prog;
  as_sect : option ptr;
  as_file : string;
  as_line : string;
  as_lineno : Z
}.

(** *** Zero values *)

Definition sym0 : sym :=
  {| sym_sect := None; sym_typ := 0; sym_name := ""; sym_size := 0; sym_off := 0;
     sym_pc := 0; sym_allocated := false; sym_exported := false |}.

Definition heap0 : heap :=
  {| h_inst := []; h_sym := []; h_sect := []; h_reloc := [] |}.

(** *** Field updates *)

Definition on_inst (f : list inst → list inst) (h : heap) : heap :=
  {| h_inst := f (h_inst h); h_sym := h_sym h; h_sect := h_sect h; h_reloc := h_reloc h |}.
Definition on_sym (f : list sym → list sym) (h : heap) : heap :=
  {| h_inst := h_inst h; h_sym := f (h_sym h); h_sect := h_sect h; h_reloc := h_reloc h |}.
Definition on_sect (f : list section → list section) (h : heap) : heap :=
  {| h_inst := h_inst h; h_sym := h_sym h; h_sect := f (h_sect h); h_reloc := h_reloc h |}.
Definition on_reloc (f : list relocation → list relocation) (h : heap) : heap :=
  {| h_inst := h_inst h; h_sym := h_sym h; h_sect := h_sect h; h_reloc := f (h_reloc h) |}.

Definition set_p_sects (v : list ptr) (p : prog) : prog :=
  {| p_arch := p_arch p; p_os := p_os p; p_endian := p_endian p; p_text := p_text p;
     p_data := p_data p; p_bss := p_bss p; p_sects := v; p_syms := p_syms p;
     p_osyms := p_osyms p; p_usyms := p_usyms p; p_relocs := p_relocs p |}.
Definition set_p_syms (v : gmap string ptr) (p : prog) : prog :=
  {| p_arch := p_arch p; p_os := p_os p; p_endian := p_endian p; p_text := p_text p;
     p_data := p_data p; p_bss := p_bss p; p_sects := p_sects p; p_syms := v;
     p_osyms := p_osyms p; p_usyms := p_usyms p; p_relocs := p_relocs p |}.
Definition set_p_osyms (v : list ptr) (p : prog) : prog :=
  {| p_arch := p_arch p; p_os := p_os p; p_endian := p_endian p; p_text := p_text p;
     p_data := p_data p; p_bss := p_bss p; p_sects := p_sects p; p_syms := p_syms p;
     p_osyms := v; p_usyms := p_usyms p; p_relocs := p_relocs p |}.
Definition set_p_usyms (v : list ptr) (p : prog) : prog :=
  {| p_arch := p_arch p; p_os := p_os p; p_endian := p_endian p; p_text := p_text p;
     p_data := p_data p; p_bss := p_bss p; p_sects := p_sects p; p_syms := p_syms p;
     p_osyms := p_osyms p; p_usyms := v; p_relocs := p_relocs p |}.
Definition set_p_relocs (v : list ptr) (p : prog) : prog :=
  {| p_arch := p_arch p; p_os := p_os p; p_endian := p_endian p; p_text := p_text p;
     p_data := p_data p; p_bss := p_bss p; p_sects := p_sects p; p_syms := p_syms p;
     p_osyms := p_osyms p; p_usyms := p_usyms p; p_relocs := v |}.

Definition set_as_heap (h : heap) (a : as_) : as_ :=
  {| as_heap := h; as_prog := as_prog a; as_sect := as_sect a;
     as_file := as_file a; as_line := as_line a; as_lineno := as_lineno a |}.
Definition set_as_prog (p : prog) (a : as_) : as_ :=
  {| as_heap := as_heap a; as_prog := p; as_sect := as_sect a;
     as_file := as_file a; as_line := as_line a; as_lineno := as_lineno a |}.
Definition set_as_sect (s : option ptr) (a : as_) : as_ :=
  {| as_heap := as_heap a; as_prog := as_prog a; as_sect := s;
     as_file := as_file a; as_line := as_line a; as_lineno := as_lineno a |}.

Definition set_s_inst (v : list ptr) (s : section) : section :=
  {| s_name := s_name s; s_flags := s_flags s; s_typ := s_typ s; s_inst := v;
     s_syms := s_syms s; s_vars := s_vars s; s_labels := s_labels s;
     s_blocks := s_blocks s; s_strings := s_strings s; s_relocs := s_relocs s;
     s_size := s_size s; s_blockalign := s_blockalign s;
     s_blocksize := s_blocksize s; s_pc := s_pc s |}.
Definition set_s_syms (v : list ptr) (s : section) : section :=
  {| s_name := s_name s; s_flags := s_flags s; s_typ := s_typ s; s_inst := s_inst s;
     s_syms := v; s_vars := s_vars s; s_labels := s_labels s;
     s_blocks := s_blocks s; s_strings := s_strings s; s_relocs := s_relocs s;
     s_size := s_size s; s_blockalign := s_blockalign s;
     s_blocksize := s_blocksize s; s_pc := s_pc s |}.
Definition set_s_labels (v : list ptr) (s : section) : section :=
  {| s_name := s_name s; s_flags := s_flags s; s_typ := s_typ s; s_inst := s_inst s;
     s_syms := s_syms s; s_vars := s_vars s; s_labels := v;
     s_blocks := s_blocks s; s_strings := s_strings s; s_relocs := s_relocs s;
     s_size := s_size s; s_blockalign := s_blockalign s;
     s_blocksize := s_blocksize s; s_pc := s_pc s |}.
Definition set_s_blocks (v : list ptr) (s : section) : section :=
  {| s_name := s_name s; s_flags := s_flags s; s_typ := s_typ s; s_inst := s_inst s;
     s_syms := s_syms s; s_vars := s_vars s; s_labels := s_labels s;
     s_blocks := v; s_strings := s_strings s; s_relocs := s_relocs s;
     s_size := s_size s; s_blockalign := s_blockalign s;
     s_blocksize := s_blocksize s; s_pc := s_pc s |}.
Definition set_s_strings (v : list span) (s : section) : section :=
  {| s_name := s_name s; s_flags := s_flags s; s_typ := s_typ s; s_inst := s_inst s;
     s_syms := s_syms s; s_vars := s_vars s; s_labels := s_labels s;
     s_blocks := s_blocks s; s_strings := v; s_relocs := s_relocs s;
     s_size := s_size s; s_blockalign := s_blockalign s;
     s_blocksize := s_blocksize s; s_pc := s_pc s |}.
Definition set_s_relocs (v : list ptr) (s : section) : section :=
  {| s_name := s_name s; s_flags := s_flags s; s_typ := s_typ s; s_inst := s_inst s;
     s_syms := s_syms s; s_vars := s_vars s; s_labels := s_labels s;
     s_blocks := s_blocks s; s_strings := s_strings s; s_relocs := v;
     s_size := s_size s; s_blockalign := s_blockalign s;
     s_blocksize := s_blocksize s; s_pc := s_pc s |}.
Definition set_s_size (v : Z) (s : section) : section :=
  {| s_name := s_name s; s_flags := s_flags s; s_typ := s_typ s; s_inst := s_inst s;
     s_syms := s_syms s; s_vars := s_vars s; s_labels := s_labels s;
     s_blocks := s_blocks s; s_strings := s_strings s; s_relocs := s_relocs s;
     s_size := v; s_blockalign := s_blockalign s;
     s_blocksize := s_blocksize s; s_pc := s_pc s |}.
Definition set_s_blocksize (v : Z) (s : section) : section :=
  {| s_name := s_name s; s_flags := s_flags s; s_typ := s_typ s; s_inst := s_inst s;
     s_syms := s_syms s; s_vars := s_vars s; s_labels := s_labels s;
     s_blocks := s_blocks s; s_strings := s_strings s; s_relocs := s_relocs s;
     s_size := s_size s; s_blockalign := s_blockalign s;
     s_blocksize := v; s_pc := s_pc s |}.
Definition set_s_pc (v : Z) (s : section) : section :=
  {| s_name := s_name s; s_flags := s_flags s; s_typ := s_typ s; s_inst := s_inst s;
     s_syms := s_syms s; s_vars := s_vars s; s_labels := s_labels s;
     s_blocks := s_blocks s; s_strings := s_strings s; s_relocs := s_relocs s;
     s_size := s_size s; s_blockalign := s_blockalign s;
     s_blocksize := s_blocksize s; s_pc := v |}.

Definition set_sym_sect (v : option ptr) (y : sym) : sym :=
  {| sym_sect := v; sym_typ := sym_typ y; sym_name := sym_name y; sym_size := sym_size y;
     sym_off := sym_off y; sym_pc := sym_pc y; sym_allocated := sym_allocated y;
     sym_exported := sym_exported y |}.
Definition set_sym_typ (v : Z) (y : sym) : sym :=
  {| sym_sect := sym_sect y; sym_typ := v; sym_name := sym_name y; sym_size := sym_size y;
     sym_off := sym_off y; sym_pc := sym_pc y; sym_allocated := sym_allocated y;
     sym_exported := sym_exported y |}.
Definition set_sym_name (v : string) (y : sym) : sym :=
  {| sym_sect := sym_sect y; sym_typ := sym_typ y; sym_name := v; sym_size := sym_size y;
     sym_off := sym_off y; sym_pc := sym_pc y; sym_allocated := sym_allocated y;
     sym_exported := sym_exported y |}.
Definition set_sym_size (v : Z) (y : sym) : sym :=
  {| sym_sect := sym_sect y; sym_typ := sym_typ y; sym_name := sym_name y; sym_size := v;
     sym_off := sym_off y; sym_pc := sym_pc y; sym_allocated := sym_allocated y;
     sym_exported := sym_exported y |}.
Definition set_sym_off (v : Z) (y : sym) : sym :=
  {| sym_sect := sym_sect y; sym_typ := sym_typ y; sym_name := sym_name y; sym_size := sym_size y;
     sym_off := v; sym_pc := sym_pc y; sym_allocated := sym_allocated y;
     sym_exported := sym_exported y |}.
Definition set_sym_pc (v : Z) (y : sym) : sym :=
  {| sym_sect := sym_sect y; sym_typ := sym_typ y; sym_name := sym_name y; sym_size := sym_size y;
     sym_off := sym_off y; sym_pc := v; sym_allocated := sym_allocated y;
     sym_exported := sym_exported y |}.
Definition set_sym_allocated (v : bool) (y : sym) : sym :=
  {| sym_sect := sym_sect y; sym_typ := sym_typ y; sym_name := sym_name y; sym_size := sym_size y;
     sym_off := sym_off y; sym_pc := sym_pc y; sym_allocated := v;
     sym_exported := sym_exported y |}.
Definition set_sym_exported (v : bool) (y : sym) : sym :=
  {| sym_sect := sym_sect y; sym_typ := sym_typ y; sym_name := sym_name y; sym_size := sym_size y;
     sym_off := sym_off y; sym_pc := sym_pc y; sym_allocated := sym_allocated y;
     sym_exported := v |}.

(** ** Diagnostics and control flow *)

(** An argument handed to a [fmt] verb.  Formatting itself is left
    symbolic: a message is its format string with its arguments. *)
Inductive fmtarg :=
  | AStr (s : string)
  | AType (ty : string)
  | AInt (z : Z)
  | ASprintf (format : string) (args : list fmtarg).

(** [fmt.Errorf(format, args...)] *)
Record error := Errorf { e_format : string; e_args : list fmtarg }.

(** How a method call ends: it returns, it panics with an [error] value
    (what [errf] raises and [Assemble] recovers into its result), or it
    panics with a [runtime.Error] (nil dereference, division by zero,
    negative [make] length), which [Assemble] re-raises.  The store is
    mutated in place, so a diagnostic leaves behind the state reached
    when it was raised. *)
Inductive outcome (A : Type) :=
  | Ret (a : A) (st : as_)
  | Raise (e : error) (st : as_)
  | Crash.
Arguments Ret {A} a st.
Arguments Raise {A} e st.
Arguments Crash {A}.

Definition M (A : Type) : Type := as_ → outcome A.

#[global] Instance M_ret : MRet M := λ A x st, Ret x st.
#[global] Instance M_bind : MBind M := λ A B f m st,
  match m st with
  | Ret a st' => f a st'
  | Raise e st' => Raise e st'
  | Crash => Crash
  end.

Definition gets {A} (f : as_ → A) : M A := λ st, Ret (f st) st.
Definition modify (f : as_ → as_) : M unit := λ st, Ret tt (f st).
Definition modify_prog (f : prog → prog) : M unit :=
  modify (λ st, set_as_prog (f (as_prog st)) st).
Definition crash {A} : M A := λ _, Crash.

(** [errf]: panic with a formatted error. *)
Definition errf {A} (format : string) (args : list fmtarg) : M A :=
  λ st, Raise (Errorf format args) st.

(** *** The store *)

Record region (A : Type) := Region {
  cells : heap → list A;
  on_cells : (list A → list A) → heap → heap
}.
Arguments cells {A} r h.
Arguments on_cells {A} r f h.

Definition insts : region inst := Region inst h_inst on_inst.
Definition symbols : region sym := Region sym h_sym on_sym.
Definition sections : region section := Region section h_sect on_sect.
Definition relocations : region relocation := Region relocation h_reloc on_reloc.

(** [&T{...}] *)
Definition new {A} (r : region A) (x : A) : M ptr := λ st,
  Ret (length (cells r (as_heap st)))
      (set_as_heap (on_cells r (λ l, l ++ [x]) (as_heap st)) st).

(** [*p]; a nil pointer is a run-time panic.  (An index outside the
    store is no Go pointer; it is treated like nil.) *)
Definition load {A} (r : region A) (p : option ptr) : M A := λ st,
  match p with
  | Some q =>
      match cells r (as_heap st) !! q with
      | Some x => Ret x st
      | None => Crash
      end
  | None => Crash
  end.

(** [p.field = v], given as the change [f] to the pointed-to struct. *)
Definition update {A} (r : region A) (p : option ptr) (f : A → A) : M unit := λ st,
  match p with
  | Some q =>
      match cells r (as_heap st) !! q with
      | Some x => Ret tt (set_as_heap (on_cells r (λ l, <[q:=f x]> l) (as_heap st)) st)
      | None => Crash
      end
  | None => Crash
  end.

(** ** Constructors *)

Definition newsection (name flags : string) (typ : Z) : section :=
  {| s_name := name; s_flags := flags; s_typ := typ; s_inst := []; s_syms := [];
     s_vars := []; s_labels := []; s_blocks := []; s_strings := []; s_relocs := [];
     s_size := 0; s_blockalign := 0; s_blocksize := 0; s_pc := 0 |}.

(** [newprog] allocates the three predefined sections, in the order in
    which the fields of the composite literal are evaluated. *)
Definition newprog (arch os_ : string) : heap * prog :=
  ({| h_inst := []; h_sym := [];
      h_sect := [newsection ".text" "ax" stPROGBITS;
                 newsection ".data" "wa" stPROGBITS;
                 newsection ".bss" "wa" stNOBITS];
      h_reloc := [] |},
   {| p_arch := arch; p_os := os_; p_endian := LittleEndian;
      p_text := Some 0%nat; p_data := Some 1%nat; p_bss := Some 2%nat;
      p_sects := []; p_syms := ∅; p_osyms := []; p_usyms := []; p_relocs := [] |}).

(** ** Methods of [as] *)

Definition newline : string := String (Ascii.ascii_of_nat 10) EmptyString.

Definition errorf {A} (format : string) (args : list fmtarg) : M A := λ st,
  let pos :=
    if bool_decide (as_file st ≠ "")
    then as_file st +:+ ":" +:+ pretty (as_lineno st)
    else pretty (as_lineno st) in
  let text := ASprintf format args in
  if bool_decide (as_line st ≠ "")
  then errf ("%s: error: %q" +:+ newline +:+ "%*s%s")
            [AStr pos; AStr (as_line st); AInt (Z.of_nat (String.length pos) + 9);
             AStr ""; text] st
  else errf "%s: error: %s" [AStr pos; text] st.

(** The dynamic type of one variadic [interface{}] argument of [code];
    [VOther ty] stands for a value of any type the switch does not list,
    [ty] being what [%T] prints for it. *)
Inductive value :=
  | VNil
  | VByte (b : byte)
  | VInt (i : Z)
  | VUint16 (v : Z)
  | VUint32 (v : Z)
  | VUint64 (v : Z)
  | VOther (ty : string).

Fixpoint code_loop (code : list byte) (v : list value) : M (list byte) :=
  match v with
  | [] => mret code
  | x :: v' =>
      match x with
      | VNil => code_loop code v'
      | VByte b => code_loop (code ++ [b]) v'
      | VInt i => code_loop (code ++ [byte_of_Z i]) v'
      | VUint16 n =>
          e ← gets (λ st, p_endian (as_prog st));
          code_loop (code ++ put_uint e 2 n) v'
      | VUint32 n =>
          e ← gets (λ st, p_endian (as_prog st));
          code_loop (code ++ put_uint e 4 n) v'
      | VUint64 n =>
          e ← gets (λ st, p_endian (as_prog st));
          code_loop (code ++ put_uint e 8 n) v'
      | VOther ty =>
          (errorf "unknown emit type %T" [AType ty] : M unit);;
          code_loop code v'
      end
  end.

Definition code (v : list value) : M (list byte) := code_loop [] v.

Definition emit (o : op) (ad : addr4) (v : list value) : M unit :=
  c ← code v;
  s ← gets as_sect;
  S ← load sections s;
  i ← new insts {| i_op := o; i_addr := ad; i_code := c |};
  update sections s (λ S, set_s_size (add64 (s_size S) (len c))
                            (set_s_inst (s_inst S ++ [i]) S)).

Definition gsym (name : string) (s : option ptr) : M ptr :=
  p ← gets (λ st, p_syms (as_prog st) !! name);
  match p with
  | Some p => mret p
  | None =>
      p ← new symbols sym0;
      update sections s (λ S, set_s_syms (s_syms S ++ [p]) S);;
      update symbols (Some p) (set_sym_sect s);;
      update symbols (Some p) (set_sym_name name);;
      update symbols (Some p) (set_sym_allocated true);;
      modify_prog (λ g, set_p_syms (<[name:=p]> (p_syms g)) g);;
      modify_prog (λ g, set_p_osyms (p_osyms g ++ [p]) g);;
      mret p
  end.

Definition fsym (typ : Z) (name : string) : M (option ptr) :=
  if bool_decide ((typ ≠ aPTR ∧ typ ≠ aVAR) ∨ name = "") then mret None
  else
    s ← gets (λ st, p_syms (as_prog st) !! name);
    match s with
    | Some s => mret (Some s)
    | None =>
        s ← new symbols (set_sym_exported true (set_sym_name name (set_sym_typ sUND sym0)));
        modify_prog (λ g, set_p_usyms (p_usyms g ++ [s]) g);;
        modify_prog (λ g, set_p_syms (<[name:=s]> (p_syms g)) g);;
        modify_prog (λ g, set_p_osyms (p_osyms g ++ [s]) g);;
        mret (Some s)
    end.

Definition addglobal (name : string) : M unit :=
  s ← gets as_sect;
  p ← gsym name s;
  update symbols (Some p) (set_sym_exported true).

Definition addbss (name : string) (size : Z) (allocated : bool) : M unit :=
  b ← gets (λ st, p_bss (as_prog st));
  p ← gsym name b;
  y ← load symbols (Some p);
  if bool_decide (sym_typ y = sNONE) then
    update symbols (Some p) (set_sym_typ sBSS);;
    update symbols (Some p) (set_sym_size size);;
    update symbols (Some p) (set_sym_allocated allocated);;
    (if allocated
     then update sections (sym_sect y)
            (λ S, set_s_blocksize (add64 (s_blocksize S) size) S)
     else mret tt);;
    b ← gets (λ st, p_bss (as_prog st));
    update sections b (λ S, set_s_blocks (s_blocks S ++ [p]) S)
  else errorf "%q already declared" [AStr name].

Definition addlabel (name : string) (off : Z) (pc : Z) : M unit :=
  s ← gets as_sect;
  p ← gsym name s;
  y ← load symbols (Some p);
  if bool_decide (sym_typ y = sLABEL) then
    if bool_decide (sym_off y ≠ off)
    then errorf "%q already declared" [AStr name]
    else mret tt
  else if bool_decide (sym_typ y = sNONE) then
    update symbols (Some p) (set_sym_typ sLABEL);;
    update symbols (Some p) (set_sym_off off);;
    update symbols (Some p) (set_sym_pc pc);;
    s ← gets as_sect;
    update sections s (λ S, set_s_labels (s_labels S ++ [p]) S)
  else errorf "%q already declared" [AStr name].

Definition addrel (o : op) (ad : addr4) : M unit :=
  s ← gets as_sect;
  i ← new insts {| i_op := o; i_addr := ad; i_code := [] |};
  update sections s (λ S, set_s_inst (s_inst S ++ [i]) S);;
  S ← load sections s;
  r ← new relocations
        {| r_section := s; r_inst := Some i; r_off := s_size S; r_pc := s_pc S;
           r_isize := 0; r_reltyp := 0; r_relname := ""; r_rel := 0 |};
  modify_prog (λ g, set_p_relocs (p_relocs g ++ [r]) g);;
  update sections s (λ S, set_s_relocs (s_relocs S ++ [r]) S).

(** The names of the first [switch] of [addsect]. *)
Definition predefined : list string :=
  [".text"; ".data"; ".rela.text"; ".rela.data";
   ".bss"; ".shstrtab"; ".strtab"; ".symtab"].

(** [for _, s := range as.sects { if s.name == name { ... } }] *)
Fixpoint find_sect (name : string) (l : list ptr) : M (option ptr) :=
  match l with
  | [] => mret None
  | s :: l' =>
      S ← load sections (Some s);
      if bool_decide (s_name S = name) then mret (Some s) else find_sect name l'
  end.

Definition addsect (name flags typ : string) : M unit :=
  (if bool_decide (name ∈ predefined)
   then errorf "can't define a pre-defined section %q" [AStr name]
   else if bool_decide (name = "")
   then errorf "no section name specified" []
   else mret tt);;
  xtyp ← (if bool_decide (typ = "progbits") then mret stPROGBITS
          else if bool_decide (typ = "nobits") then mret stNOBITS
          else if bool_decide (typ = "note") then mret stNOTE
          else errorf "unknown section type %q" [AStr typ]);
  l ← gets (λ st, p_sects (as_prog st));
  found ← find_sect name l;
  match found with
  | Some s => modify (set_as_sect (Some s))
  | None =>
      s ← new sections (newsection name flags xtyp);
      modify_prog (λ g, set_p_sects (p_sects g ++ [s]) g);;
      modify (set_as_sect (Some s))
  end.

(** Methods of [*section] take the receiver as a pointer. *)
Definition strz (s : option ptr) (str : string) : M unit :=
  S ← load sections s;
  update sections s (λ S, set_s_strings
      (s_strings S ++ [{| sp_off := s_size S;
                          sp_size := wrap64 (Z.of_nat (String.length str) + 1);
                          sp_pc := s_pc S |}]) S);;
  update sections s (λ S, set_s_size
      (add64 (s_size S) (add64 (Z.of_nat (String.length str)) 1)) S);;
  i ← new insts {| i_op := opSTRZ; i_addr := addr4_0;
                   i_code := String.list_byte_of_string str ++ ["000"%byte] |};
  update sections s (λ S, set_s_inst (s_inst S ++ [i]) S).

Definition bytes (s : option ptr) (buf : list byte) : M unit :=
  S ← load sections s;
  update sections s (λ S, set_s_size (add64 (s_size S) (len buf)) S);;
  i ← new insts {| i_op := opBYTES; i_addr := addr4_0; i_code := buf |};
  update sections s (λ S, set_s_inst (s_inst S ++ [i]) S).

(** [align] and the position counter are Go [int]s.  A zero [align]
    is a division by zero, and [make([]byte, size)] panics when [size]
    is negative or above [maxAlloc].  (Memory that the host runs out
    of below that limit is not modelled, here as for every other
    allocation of the file.) *)
Definition alignpc (align : Z) (value : byte) : M unit :=
  s ← gets as_sect;
  S ← load sections s;
  if bool_decide (align = 0) then crash
  else
    let size := rem64 (sub64 align (rem64 (s_pc S) align)) align in
    if bool_decide (size < 0 ∨ maxAlloc < size) then crash
    else
      let buf := replicate (Z.to_nat size) value in
      s ← gets as_sect;
      bytes s buf.

(** A fresh assembler over a new program: no current section yet. *)
Definition newas (arch os_ file : string) : as_ :=
  {| as_heap := (newprog arch os_).1; as_prog := (newprog arch os_).2;
     as_sect := None; as_file := file; as_line := ""; as_lineno := 0 |}.

(** ** Helpers of the file *)

(** [y <<= 1] on an [int64]. *)
Definition shl64 (y n : Z) : Z := wrap64 (Z.shiftl y n).

(** The loop of [align2]: [None] when it is still running after [fuel]
    rounds. *)
Fixpoint align2_loop (fuel : nat) (y x : Z) : option Z :=
  if bool_decide (y < x) then
    match fuel with
    | O => None
    | S fuel' => align2_loop fuel' (shl64 y 1) x
    end
  else Some y.

Definition align2 (fuel : nat) (x : Z) : option Z := align2_loop fuel 1 x.

(** One call of a method of this file that can change the program. *)
Inductive call :=
  | CallEmit (o : op) (ad : addr4) (v : list value)
  | CallGsym (name : string) (s : option ptr)
  | CallFsym (typ : Z) (name : string)
  | CallAddglobal (name : string)
  | CallAddbss (name : string) (size : Z) (allocated : bool)
  | CallAddlabel (name : string) (off pc : Z)
  | CallAddrel (o : op) (ad : addr4)
  | CallAddsect (name flags typ : string)
  | CallAlignpc (align : Z) (value : byte)
  | CallStrz (s : option ptr) (str : string)
  | CallBytes (s : option ptr) (buf : list byte).

Definition exec (c : call) : M unit :=
  match c with
  | CallEmit o ad v => emit o ad v
  | CallGsym name s => gsym name s;; mret tt
  | CallFsym typ name => fsym typ name;; mret tt
  | CallAddglobal name => addglobal name
  | CallAddbss name size allocated => addbss name size allocated
  | CallAddlabel name off pc => addlabel name off pc
  | CallAddrel o ad => addrel o ad
  | CallAddsect name flags typ => addsect name flags typ
  | CallAlignpc align value => alignpc align value
  | CallStrz s str => strz s str
  | CallBytes s buf => bytes s buf
  end.

(** [st'] is the state a call leaves behind, whether it returned or
    raised a diagnostic. *)
Definition leaves (c : call) (st st' : as_) : Prop :=
  (exec c st = Ret tt st') ∨ (∃ e, exec c st = Raise e st').

Inductive reaches : as_ → as_ → Prop :=
  | reaches_refl st : reaches st st
  | reaches_step c st st' st'' : reaches st st' → leaves c st' st'' → reaches st st''.

(** ** Error classes of the specification, read off the message *)

(** The message [errorf] was called with: the last argument it hands to
    [errf]. *)
Definition diag_text (e : error) : option fmtarg := last (e_args e).

Definition EmitTypeError (ty : string) (e : error) : Prop :=
  diag_text e = Some (ASprintf "unknown emit type %T" [AType ty]).
Definition DuplicateSymbolDeclaration (name : string) (e : error) : Prop :=
  diag_text e = Some (ASprintf "%q already declared" [AStr name]).
Definition ReservedSectionNameRedefinition (name : string) (e : error) : Prop :=
  diag_text e = Some (ASprintf "can't define a pre-defined section %q" [AStr name]).
Definition EmptySectionName (e : error) : Prop :=
  diag_text e = Some (ASprintf "no section name specified" []).
Definition UnknownSectionType (typ : string) (e : error) : Prop :=
  diag_text e = Some (ASprintf "unknown section type %q" [AStr typ]).
Definition UnsupportedArchitecture (arch : string) (e : error) : Prop :=
  e = Errorf "unsupported arch %q" [AStr arch].
Definition UnsupportedOS (os_ : string) (e : error) : Prop :=
  e = Errorf "unsupported os %q" [AStr os_].

(** ** The entry point *)

(** How [x86as(prog, input, src)] ends; it works on the program in place. *)
Inductive encoded :=
  | Encoded (hp : heap * prog)
  | EncodeRaise (e : error)
  | EncodeCrash.

(** What [genelf(w, prog)] does with its writer: a tree of calls on [w],
    each continued with what the call returned, that ends by returning
    or by panicking. *)
Inductive writing :=
  | WDone
  | WRaise (e : error)
  | WCrash
  | WWrite (p : list byte) (k : nat → option error → writing)
  | WFlush (k : option error → writing).

(** How a call of [Assemble] ends: it returns its [err], or the deferred
    function re-raises a run-time panic; [Hangs] when a [Write] of the
    buffered writer is still in its loop after the rounds it was
    given. *)
Inductive ending :=
  | Returned (err : option error)
  | Panicked
  | Hangs.

Definition ErrShortWrite : error := Errorf "short write" [].

(** [bufio.defaultBufSize] *)
Definition defaultBufSize : nat := 4096.

Section Entry.
(** A sink is any [io.Writer] that is not one of the buffered writers
    below: a state and its [Write], which returns the new state, the
    count [n] and the error. *)
Variable Sink : Type.
Variable sink_write : list byte → Sink → Sink * nat * option error.
(** The architecture encoder and the object writer live in other files. *)
Variable x86as : heap * prog → string → list byte → encoded.
Variable genelf : heap * prog → writing.

(** [bufio.Writer], as the Go library implements it: the sticky
    error, the buffered bytes ([buf[0:n]]), the size of the buffer and
    the underlying writer.  No buffer here is smaller than
    [defaultBufSize]: [b_more] is what [len(buf)] has above it. *)
Record Writer := {
  b_err : option error;
  b_buf : list byte;
  b_more : nat;
  b_wr : Sink
}.

(** [len(b.buf)] *)
Definition size (b : Writer) : nat := (defaultBufSize + b_more b)%nat.

(** The [io.Writer] handed to [Assemble], as [bufio.NewWriter] tells
    them apart: a [*bufio.Writer] whose buffer has at least
    [defaultBufSize] bytes, and any other writer (a [*bufio.Writer]
    with a smaller buffer is one of these: its [Write] is then the
    [Write] of the sink). *)
Inductive io_writer :=
  | Plain (s : Sink)
  | Buffered (b : Writer).

(** [bufio.NewWriter(w)]: a [*bufio.Writer] with a buffer of at least
    [defaultBufSize] bytes is returned as it is; any other writer is
    wrapped in a new buffer of that size. *)
Definition NewWriter (w : io_writer) : Writer :=
  match w with
  | Buffered b => b
  | Plain s => {| b_err := None; b_buf := []; b_more := 0; b_wr := s |}
  end.

(** The output after the run, [w] being what [NewWriter] returned for
    it: the sink that was wrapped, or the buffered writer itself. *)
Definition written (output : io_writer) (w : Writer) : io_writer :=
  match output with
  | Buffered _ => Buffered w
  | Plain _ => Plain (b_wr w)
  end.

Definition Available (b : Writer) : nat := (size b - length (b_buf b))%nat.

Definition Flush (b : Writer) : Writer * option error :=
  match b_err b with
  | Some e => (b, Some e)
  | None =>
      if bool_decide (length (b_buf b) = 0%nat) then (b, None)
      else
        let '(wr, n, err) := sink_write (b_buf b) (b_wr b) in
        let err :=
          match err with
          | None => if bool_decide (n < length (b_buf b))%nat then Some ErrShortWrite else None
          | Some e => Some e
          end in
        match err with
        | Some e =>
            ({| b_err := Some e; b_buf := drop n (b_buf b); b_more := b_more b;
                b_wr := wr |}, Some e)
        | None => ({| b_err := None; b_buf := []; b_more := b_more b; b_wr := wr |}, None)
        end
  end.

(** What a [Write] comes to: its results; a slice-bounds panic, when
    the underlying writer reports a count beyond what it was given; or
    [WriteHang], when the loop is still running after [fuel] rounds
    (an underlying writer can keep accepting nothing without reporting
    an error for any number of rounds). *)
Inductive wrote :=
  | Wrote (b : Writer) (nn : nat) (err : option error)
  | WriteCrash (b : Writer)
  | WriteHang (b : Writer).

Fixpoint Write_loop (fuel : nat) (b : Writer) (p : list byte) (nn : nat) : wrote :=
  if bool_decide (Available b < length p)%nat && bool_decide (b_err b = None) then
    match fuel with
    | O => WriteHang b
    | S fuel' =>
        if bool_decide (length (b_buf b) = 0%nat) then
          let '(wr, n, err) := sink_write p (b_wr b) in
          let b1 := {| b_err := err; b_buf := b_buf b; b_more := b_more b; b_wr := wr |} in
          if bool_decide (length p < n)%nat then WriteCrash b1
          else Write_loop fuel' b1 (drop n p) (nn + n)
        else
          let n := Available b in
          let b1 := {| b_err := b_err b; b_buf := b_buf b ++ take n p;
                       b_more := b_more b; b_wr := b_wr b |} in
          Write_loop fuel' (Flush b1).1 (drop n p) (nn + n)
    end
  else
    match b_err b with
    | Some e => Wrote b nn (Some e)
    | None =>
        Wrote {| b_err := None; b_buf := b_buf b ++ p; b_more := b_more b; b_wr := b_wr b |}
              (nn + length p) None
    end.

(** [b.Write(p)], its loop given [fuel] rounds. *)
Definition Write (fuel : nat) (b : Writer) (p : list byte) : wrote :=
  Write_loop fuel b p 0.

(** Running the object writer against the buffered writer, every
    [Write] given [fuel] rounds: the writer it leaves and how it
    ended. *)
Fixpoint run_writing (fuel : nat) (g : writing) (w : Writer) : Writer * ending :=
  match g with
  | WDone => (w, Returned None)
  | WRaise e => (w, Returned (Some e))
  | WCrash => (w, Panicked)
  | WWrite p k =>
      match Write fuel w p with
      | Wrote w' n err => run_writing fuel (k n err) w'
      | WriteCrash w' => (w', Panicked)
      | WriteHang w' => (w', Hangs)
      end
  | WFlush k =>
      run_writing fuel (k (Flush w).2) (Flush w).1
  end.

(** [Assemble]: the output it leaves and how the call ends.  The
    deferred function turns a panic with an [error] into the returned
    [err] and re-raises a run-time panic. *)
Definition Assemble (fuel : nat) (arch os_ input : string) (output : io_writer)
    (src : list byte) : io_writer * ending :=
  let prog := newprog arch os_ in
  if bool_decide (arch = "amd64") then
    match x86as prog input src with
    | EncodeRaise e => (output, Returned (Some e))
    | EncodeCrash => (output, Panicked)
    | Encoded prog =>
        let w := NewWriter output in
        if bool_decide (os_ = "linux") then
          match run_writing fuel (genelf prog) w with
          | (w, Returned None) => (written output (Flush w).1, Returned (Flush w).2)
          | (w, e) => (written output w, e)
          end
        else (output, Returned (Some (Errorf "unsupported os %q" [AStr os_])))
    end
  else (output, Returned (Some (Errorf "unsupported arch %q" [AStr arch]))).
End Entry.

Arguments b_err {Sink} w.
Arguments b_buf {Sink} w.
Arguments b_more {Sink} w.
Arguments b_wr {Sink} w.
Arguments Plain {Sink} s.
Arguments Buffered {Sink} b.

(** * Vocabulary of the properties *)

(** The state a call leaves when it returns, for stating examples. *)
Definition after {A} (m : M A) (st : as_) : as_ :=
  match m st with
  | Ret _ st' => st'
  | Raise _ st' => st'
  | Crash => st
  end.

(** The provisional extern [fsym] makes for an unknown name. *)
Definition extern (name : string) : sym :=
  {| sym_sect := None; sym_typ := sUND; sym_name := name; sym_size := 0; sym_off := 0;
     sym_pc := 0; sym_allocated := false; sym_exported := true |}.

(** The padding [alignpc] computes, in Go's [int] arithmetic. *)
Definition padding (align pc : Z) : Z := rem64 (sub64 align (rem64 pc align)) align.

(** The bytes one supported payload value contributes. *)
Definition encode (order : ByteOrder) (x : value) : list byte :=
  match x with
  | VNil => []
  | VByte b => [b]
  | VInt i => [byte_of_Z i]
  | VUint16 n => put_uint order 2 n
  | VUint32 n => put_uint order 4 n
  | VUint64 n => put_uint order 8 n
  | VOther _ => []
  end.

(** The value kinds the type switch of [code] has a case for. *)
Definition supported (x : value) : Prop :=
  match x with
  | VOther _ => False
  | _ => True
  end.

(** The type keywords of the second [switch] of [addsect]. *)
Definition section_type (typ : string) : option Z :=
  if bool_decide (typ = "progbits") then Some stPROGBITS
  else if bool_decide (typ = "nobits") then Some stNOBITS
  else if bool_decide (typ = "note") then Some stNOTE
  else None.

(** Every pointer of the list is a section of the store whose name is
    not [name]. *)
Definition none_named (name : string) (st : as_) (l : list ptr) : Prop :=
  Forall (λ s, ∃ S, h_sect (as_heap st) !! s = Some S ∧ s_name S ≠ name) l.

(** An object writer that writes the given chunks one after the other,
    whatever the writes return, and then returns. *)
Fixpoint writes (ps : list (list byte)) : writing :=
  match ps with
  | [] => WDone
  | p :: ps' => WWrite p (λ _ _, writes ps')
  end.

(** What the object writer writes, and how it ends, when each of its
    writes is accepted in full and each of its flushes succeeds. *)
Fixpoint accepted (g : writing) : list byte * ending :=
  match g with
  | WDone => ([], Returned None)
  | WRaise e => ([], Returned (Some e))
  | WCrash => ([], Panicked)
  | WWrite p k => let r := accepted (k (length p) None) in (p ++ r.1, r.2)
  | WFlush k => accepted (k None)
  end.

(** The object writer calls no [Flush], as long as each of its writes
    is accepted in full. *)
Fixpoint unflushed (g : writing) : Prop :=
  match g with
  | WWrite p k => unflushed (k (length p) None)
  | WFlush _ => False
  | _ => True
  end.

(** Two sinks for examples: one that keeps everything, and one with
    room for [room] more bytes that reports an error once it is full. *)
Definition keep_all (p : list byte) (s : list byte) : list byte * nat * option error :=
  (s ++ p, length p, None).

Definition ErrNoSpace : error := Errorf "no space left on device" [].

Definition keep_some (p : list byte) (s : list byte * nat)
    : (list byte * nat) * nat * option error :=
  let '(got, room) := s in
  if bool_decide (length p ≤ room)%nat
  then ((got ++ p, (room - length p)%nat), length p, None)
  else ((got ++ take room p, 0%nat), room, Some ErrNoSpace).

(** Stand-ins for the encoder and the object writer, for examples. *)
Definition encodes_nothing (hp : heap * prog) (input : string) (src : list byte) : encoded :=
  Encoded hp.

Definition ErrWriter : error := Errorf "elf: cannot write the object" [].

(** Weakest precondition: [Q] holds of the result and state when the
    computation returns, [E] of the state when it raises a diagnostic;
    a run-time panic leaves no state to speak of. *)
Definition wp {A} (m : M A) (Q : A → as_ → Prop) (E : as_ → Prop) (st : as_) : Prop :=
  match m st with
  | Ret a st' => Q a st'
  | Raise _ st' => E st'
  | Crash => True
  end.

(** A computation keeps [I] when every state it leaves satisfies [I],
    given that the state it starts from does. *)
Definition keeps (I : as_ → Prop) {A} (m : M A) : Prop :=
  ∀ st, I st → wp m (λ _, I) I st.

(** The symbol [p] is the provisional extern of [name]: the global map
    sends the name to it, it is on the undefined-symbols list, it has no
    owning section, its type is undefined and it is exported. *)
Definition provisional (name : string) (p : ptr) (st : as_) : Prop :=
  p_syms (as_prog st) !! name = Some p
  ∧ p ∈ p_usyms (as_prog st)
  ∧ ∃ y, h_sym (as_heap st) !! p = Some y
      ∧ sym_sect y = None ∧ sym_typ y = sUND ∧ sym_exported y = true.

(** The value of a byte, and of a byte sequence read as an unsigned
    integer in a byte order (what [ByteOrder.Uint16] and its like return). *)
Definition byte_to_Z (b : byte) : Z := Z.of_N (Byte.to_N b).

Fixpoint le_value (bs : list byte) : Z :=
  match bs with
  | [] => 0
  | b :: bs' => byte_to_Z b + 256 * le_value bs'
  end.

Definition uint_value (order : ByteOrder) (bs : list byte) : Z :=
  match order with
  | LittleEndian => le_value bs
  | BigEndian => le_value (reverse bs)
  end.

(** The width in bytes and the value of a payload value that is an
    integer. *)
Definition payload_integer (x : value) : option (nat * Z) :=
  match x with
  | VByte b => Some (1%nat, byte_to_Z b)
  | VInt i => Some (1%nat, i)
  | VUint16 n => Some (2%nat, n)
  | VUint32 n => Some (4%nat, n)
  | VUint64 n => Some (8%nat, n)
  | _ => None
  end.

(** As [wp], with the postcondition of a diagnostic told the error. *)
Definition wpx {A} (m : M A) (Q : A → as_ → Prop) (E : error → as_ → Prop)
    (st : as_) : Prop :=
  match m st with
  | Ret a st' => Q a st'
  | Raise e st' => E e st'
  | Crash => True
  end.

(** [e] is what [errorf] raises in [st], for some message. *)
Definition from_errorf (st : as_) (e : error) : Prop :=
  ∃ format args, @errorf unit format args st = Raise e st.

(** A computation that never raises a diagnostic. *)
Definition quiet {A} (m : M A) : Prop :=
  ∀ st, wpx m (λ _ _, True) (λ _ _, False) st.

(** A computation that leaves the state as it is, and raises only what
    [errorf] raises. *)
Definition still {A} (m : M A) : Prop :=
  ∀ st, wpx m (λ _ st', st' = st) (λ e st', st' = st ∧ from_errorf st e) st.

(** A computation whose diagnostics leave the state as it was. *)
Definition atomic {A} (m : M A) : Prop :=
  ∀ st, wpx m (λ _ _, True) (λ e st', st' = st ∧ from_errorf st e) st.

(** [S'] is [S] with more at the end of its lists: the name, the flags,
    the type, the position counter and the block alignment are the
    same. *)
Definition section_extends (S S' : section) : Prop :=
  s_name S' = s_name S ∧ s_flags S' = s_flags S ∧ s_typ S' = s_typ S
  ∧ s_pc S' = s_pc S ∧ s_blockalign S' = s_blockalign S
  ∧ s_inst S `prefix_of` s_inst S' ∧ s_syms S `prefix_of` s_syms S'
  ∧ s_vars S' = s_vars S ∧ s_labels S `prefix_of` s_labels S'
  ∧ s_blocks S `prefix_of` s_blocks S' ∧ s_strings S `prefix_of` s_strings S'
  ∧ s_relocs S `prefix_of` s_relocs S'.

(** [st'] is [st] grown: every instruction and relocation record of
    [st] is in [st'] unchanged, every section is there with its lists
    extended, no symbol is gone, the lists and the map of the program
    only have more, and the predefined sections, the byte order and
    the source position are the same. *)
Definition extends (st st' : as_) : Prop :=
  h_inst (as_heap st) `prefix_of` h_inst (as_heap st')
  ∧ h_reloc (as_heap st) `prefix_of` h_reloc (as_heap st')
  ∧ (length (h_sym (as_heap st)) ≤ length (h_sym (as_heap st')))%nat
  ∧ (∀ q S, h_sect (as_heap st) !! q = Some S →
       ∃ S', h_sect (as_heap st') !! q = Some S' ∧ section_extends S S')
  ∧ p_sects (as_prog st) `prefix_of` p_sects (as_prog st')
  ∧ p_osyms (as_prog st) `prefix_of` p_osyms (as_prog st')
  ∧ p_usyms (as_prog st) `prefix_of` p_usyms (as_prog st')
  ∧ p_relocs (as_prog st) `prefix_of` p_relocs (as_prog st')
  ∧ p_syms (as_prog st) ⊆ p_syms (as_prog st')
  ∧ p_text (as_prog st') = p_text (as_prog st)
  ∧ p_data (as_prog st') = p_data (as_prog st)
  ∧ p_bss (as_prog st') = p_bss (as_prog st)
  ∧ p_endian (as_prog st') = p_endian (as_prog st)
  ∧ as_file st' = as_file st ∧ as_line st' = as_line st
  ∧ as_lineno st' = as_lineno st.

(** [y'] is the record [y] of a symbol some calls later: the owning
    section and the name are the same, the exported flag is not
    cleared, and a type other than none stays with its size, offset,
    position and allocated flag. *)
Definition sym_kept (y y' : sym) : Prop :=
  sym_sect y' = sym_sect y ∧ sym_name y' = sym_name y
  ∧ (sym_exported y = true → sym_exported y' = true)
  ∧ (sym_typ y ≠ sNONE →
     sym_typ y' = sym_typ y ∧ sym_size y' = sym_size y ∧ sym_off y' = sym_off y
     ∧ sym_pc y' = sym_pc y ∧ sym_allocated y' = sym_allocated y).

Definition symbols_kept (st st' : as_) : Prop :=
  ∀ p y, h_sym (as_heap st) !! p = Some y →
    ∃ y', h_sym (as_heap st') !! p = Some y' ∧ sym_kept y y'.

(** The length of the code of the instruction at [i]. *)
Definition code_len (h : heap) (i : ptr) : Z :=
  match h_inst h !! i with
  | Some ins => len (i_code ins)
  | None => 0
  end.

(** The total length of the code of the instructions of a list. *)
Definition total_code (h : heap) (l : list ptr) : Z :=
  foldr (λ i acc, code_len h i + acc) 0 l.

(** Every section lists instructions of the store only, and its byte
    size is the total length of their code, as an [int64]. *)
Definition sized (st : as_) : Prop :=
  ∀ q S, h_sect (as_heap st) !! q = Some S →
    Forall (λ i, (i < length (h_inst (as_heap st)))%nat) (s_inst S)
    ∧ s_size S = wrap64 (total_code (as_heap st) (s_inst S)).

(** The declaration-order list holds every symbol of the store once,
    in the order of creation, and the map sends a name to a symbol
    exactly when the symbol has that name. *)
Definition symtab (st : as_) : Prop :=
  p_osyms (as_prog st) = seq 0 (length (h_sym (as_heap st)))
  ∧ ∀ name p, p_syms (as_prog st) !! name = Some p
      ↔ ∃ y, h_sym (as_heap st) !! p = Some y ∧ sym_name y = name.

(** The name of the section at [s]. *)
Definition sect_name (h : heap) (s : ptr) : string :=
  match h_sect h !! s with
  | Some x => s_name x
  | None => ""
  end.

(** The list of the user's sections holds sections of the store, with
    names that are pairwise different, not predefined and not empty. *)
Definition user_sections (st : as_) : Prop :=
  NoDup (sect_name (as_heap st) <$> p_sects (as_prog st))
  ∧ Forall (λ s, (s < length (h_sect (as_heap st)))%nat
                 ∧ (sect_name (as_heap st) s ∉ predefined)
                 ∧ sect_name (as_heap st) s ≠ "")
      (p_sects (as_prog st)).



(** The type of the symbol at [p]. *)
Definition typ_of (h : heap) (p : ptr) : option Z := sym_typ <$> h_sym h !! p.

(** The undefined-symbols list holds exactly the symbols of type
    [sUND], each once; a list of labels holds symbols of type [sLABEL]
    only and a list of blocks symbols of type [sBSS] only, each once. *)
Definition typed (st : as_) : Prop :=
  NoDup (p_usyms (as_prog st))
  ∧ (∀ p, p ∈ p_usyms (as_prog st) ↔ typ_of (as_heap st) p = Some sUND)
  ∧ ∀ q x, h_sect (as_heap st) !! q = Some x →
      NoDup (s_labels x) ∧ NoDup (s_blocks x)
      ∧ (∀ p, p ∈ s_labels x → typ_of (as_heap st) p = Some sLABEL)
      ∧ (∀ p, p ∈ s_blocks x → typ_of (as_heap st) p = Some sBSS).

(** The state between the steps of a declaration: the symbol [p] has
    been given the type [t] and is on no list yet. *)
Definition declaring (p : ptr) (t : Z) (st : as_) : Prop :=
  typed st ∧ typ_of (as_heap st) p = Some t
  ∧ ∀ q x, h_sect (as_heap st) !! q = Some x → (p ∉ s_labels x) ∧ (p ∉ s_blocks x).

(** * Properties *)

(** ** Arithmetic of the machine integers *)

Lemma wrap64_id (z : Z) : - 2 ^ 63 ≤ z < 2 ^ 63 → wrap64 z = z.
Proof. intros H. unfold wrap64. rewrite Z.mod_small; lia. Qed.

Lemma add64_exact (a b : Z) : - 2 ^ 63 ≤ a + b < 2 ^ 63 → add64 a b = a + b.
Proof. apply wrap64_id. Qed.

(** ** The store *)

Lemma lookup_snoc {A} (l : list A) (x : A) : (l ++ [x]) !! length l = Some x.
Proof. by apply list_lookup_middle. Qed.

Lemma insert_snoc {A} (l : list A) (x y : A) : <[length l := x]> (l ++ [y]) = l ++ [x].
Proof.
  replace (length l) with (length l + 0)%nat at 1 by lia.
  by rewrite insert_app_r.
Qed.

Lemma lookup_insert_same {A} (l : list A) (i : nat) (x y : A) :
  l !! i = Some y → <[i:=x]> l !! i = Some x.
Proof. intros H. apply list_lookup_insert_eq. by eapply lookup_lt_Some. Qed.

Create HintDb upd.
#[local] Hint Unfold on_inst on_sym on_sect on_reloc set_p_sects set_p_syms set_p_osyms
  set_p_usyms set_p_relocs set_as_heap set_as_prog set_as_sect : upd.

Ltac norm := autounfold with upd; simpl.
Ltac unfold_M :=
  unfold mbind, M_bind, mret, M_ret, gets, modify_prog, modify, load, update, new,
    crash, errf in *.
Ltac open_state st :=
  destruct st as [[? ? ? ?] [? ? ? ? ? ? ? ? ? ? ?] ? ? ? ?]; simpl in *.
Ltac run :=
  repeat (rewrite ?insert_snoc, ?lookup_snoc, ?list_insert_insert_eq; norm).

(** [errorf] always raises, and the state is the one it was called in. *)
Lemma errorf_raises {A} (format : string) (args : list fmtarg) (st : as_) :
  ∃ e, @errorf A format args st = Raise e st ∧ diag_text e = Some (ASprintf format args).
Proof.
  unfold errorf, errf. do 2 case_bool_decide; eexists; split; reflexivity.
Qed.

(** ** [gsym] *)

Lemma gsym_known (name : string) (s : option ptr) (st : as_) (p : ptr) :
  p_syms (as_prog st) !! name = Some p → gsym name s st = Ret p st.
Proof. intros H. unfold gsym. unfold_M. by rewrite H. Qed.

Lemma gsym_fresh (name : string) (q : ptr) (S : section) (st : as_) :
  p_syms (as_prog st) !! name = None →
  h_sect (as_heap st) !! q = Some S →
  let p := length (h_sym (as_heap st)) in
  gsym name (Some q) st = Ret p
    (set_as_prog
       (set_p_osyms (p_osyms (as_prog st) ++ [p])
          (set_p_syms (<[name := p]> (p_syms (as_prog st))) (as_prog st)))
       (set_as_heap
          (on_sym (λ l, l ++ [set_sym_allocated true
                               (set_sym_name name (set_sym_sect (Some q) sym0))])
             (on_sect (λ l, <[q := set_s_syms (s_syms S ++ [p]) S]> l) (as_heap st)))
          st)).
Proof.
  intros Hn Hq. open_state st. unfold gsym. unfold_M. simpl.
  rewrite Hn. simpl. rewrite Hq. run. reflexivity.
Qed.

(** C7. [gsym] is idempotent by name.  A name already in the global
    map gives back the record it maps to and leaves the whole state as
    it was (the map, the declaration-order list and every section list
    with it).  A name not in the map makes exactly one new symbol,
    untyped, owned by the given section: it is the last entry of that
    section's symbol list, the map sends the name to it, it is the last
    entry of the declaration-order list, and asking again, for any
    section, returns it and changes nothing. *)
Theorem gsym_idempotent_by_name (name : string) (s : option ptr) (st : as_) :
  (∀ p, p_syms (as_prog st) !! name = Some p → gsym name s st = Ret p st)
  ∧ (p_syms (as_prog st) !! name = None →
     ∀ q S, s = Some q → h_sect (as_heap st) !! q = Some S →
     let p := length (h_sym (as_heap st)) in
     ∃ st', gsym name s st = Ret p st'
       ∧ h_sym (as_heap st') =
           h_sym (as_heap st) ++
             [{| sym_sect := Some q; sym_typ := sNONE; sym_name := name; sym_size := 0;
                 sym_off := 0; sym_pc := 0; sym_allocated := true;
                 sym_exported := false |}]
       ∧ h_sect (as_heap st') =
           <[q := set_s_syms (s_syms S ++ [p]) S]> (h_sect (as_heap st))
       ∧ p_syms (as_prog st') = <[name := p]> (p_syms (as_prog st))
       ∧ p_osyms (as_prog st') = p_osyms (as_prog st) ++ [p]
       ∧ p_usyms (as_prog st') = p_usyms (as_prog st)
       ∧ p_sects (as_prog st') = p_sects (as_prog st)
       ∧ as_sect st' = as_sect st
       ∧ ∀ s', gsym name s' st' = Ret p st').
Proof.
  split.
  - intros p. apply gsym_known.
  - intros Hn q S -> Hq p. eexists. split; [by apply gsym_fresh|].
    repeat split. intros s'. apply gsym_known. simpl. apply lookup_insert_eq.
Qed.

Lemma gsym_idempotent_by_name_witness :
  let st0 := set_as_sect (Some 0%nat) (newas "amd64" "linux" "t.s") in
  ∃ st1, gsym "main" (Some 0%nat) st0 = Ret 0%nat st1
    ∧ length (h_sym (as_heap st1)) = 1%nat
    ∧ gsym "main" (Some 1%nat) st1 = Ret 0%nat st1.
Proof.
  intros st0.
  destruct (proj2 (gsym_idempotent_by_name "main" (Some 0%nat) st0)
              eq_refl 0%nat (newsection ".text" "ax" stPROGBITS) eq_refl eq_refl)
    as (st1 & H1 & Hy & _ & Hm & _).
  exists st1. split; [exact H1|]. split; [by rewrite Hy|].
  apply (proj1 (gsym_idempotent_by_name "main" (Some 1%nat) st1)).
  rewrite Hm. apply lookup_insert_eq.
Defined.

(** ** [fsym] *)

Lemma fsym_skip (typ : Z) (name : string) (st : as_) :
  (typ ≠ aVAR ∧ typ ≠ aPTR) ∨ name = "" → fsym typ name st = Ret None st.
Proof.
  intros H. unfold fsym. rewrite bool_decide_eq_true_2; [done|]. tauto.
Qed.

Lemma fsym_known (typ : Z) (name : string) (st : as_) (p : ptr) :
  typ = aVAR ∨ typ = aPTR → name ≠ "" →
  p_syms (as_prog st) !! name = Some p → fsym typ name st = Ret (Some p) st.
Proof.
  intros Ht Hn H. unfold fsym. rewrite bool_decide_eq_false_2 by tauto.
  unfold_M. by rewrite H.
Qed.

Lemma fsym_fresh (typ : Z) (name : string) (st : as_) :
  typ = aVAR ∨ typ = aPTR → name ≠ "" →
  p_syms (as_prog st) !! name = None →
  let p := length (h_sym (as_heap st)) in
  fsym typ name st = Ret (Some p)
    (set_as_prog
       (set_p_osyms (p_osyms (as_prog st) ++ [p])
          (set_p_syms (<[name := p]> (p_syms (as_prog st)))
             (set_p_usyms (p_usyms (as_prog st) ++ [p]) (as_prog st))))
       (set_as_heap (on_sym (λ l, l ++ [extern name]) (as_heap st)) st)).
Proof.
  intros Ht Hn H. open_state st. unfold fsym. rewrite bool_decide_eq_false_2 by tauto.
  unfold_M. simpl. rewrite H. reflexivity.
Qed.

(** C9. [fsym] returns nil and changes nothing for an operand kind
    that is neither [aVAR] nor [aPTR], and for the empty name.
    Otherwise a known name gives back its record with the state
    unchanged, and an unknown name makes exactly one symbol, of type
    [sUND] and exported, that the global map, the declaration-order
    list and the undefined-symbols list all receive; no section is
    touched. *)
Theorem fsym_reference (typ : Z) (name : string) (st : as_) :
  ((typ ≠ aVAR ∧ typ ≠ aPTR) ∨ name = "" → fsym typ name st = Ret None st)
  ∧ (typ = aVAR ∨ typ = aPTR → name ≠ "" →
     (∀ p, p_syms (as_prog st) !! name = Some p → fsym typ name st = Ret (Some p) st)
     ∧ (p_syms (as_prog st) !! name = None →
        let p := length (h_sym (as_heap st)) in
        ∃ st', fsym typ name st = Ret (Some p) st'
          ∧ h_sym (as_heap st') =
              h_sym (as_heap st) ++
                [{| sym_sect := None; sym_typ := sUND; sym_name := name; sym_size := 0;
                    sym_off := 0; sym_pc := 0; sym_allocated := false;
                    sym_exported := true |}]
          ∧ p_syms (as_prog st') = <[name := p]> (p_syms (as_prog st))
          ∧ p_osyms (as_prog st') = p_osyms (as_prog st) ++ [p]
          ∧ p_usyms (as_prog st') = p_usyms (as_prog st) ++ [p]
          ∧ h_sect (as_heap st') = h_sect (as_heap st)
          ∧ h_inst (as_heap st') = h_inst (as_heap st)
          ∧ h_reloc (as_heap st') = h_reloc (as_heap st)
          ∧ p_sects (as_prog st') = p_sects (as_prog st)
          ∧ p_relocs (as_prog st') = p_relocs (as_prog st)
          ∧ as_sect st' = as_sect st)).
Proof.
  split; [apply fsym_skip|]. intros Ht Hn. split.
  - intros p. by apply fsym_known.
  - intros H p. eexists. split; [by apply fsym_fresh|]. repeat split.
Qed.

Lemma fsym_reference_witness :
  let st0 := newas "amd64" "linux" "t.s" in
  fsym aREG "x" st0 = Ret None st0
  ∧ fsym aVAR "" st0 = Ret None st0
  ∧ ∃ st1, fsym aVAR "x" st0 = Ret (Some 0%nat) st1
      ∧ p_usyms (as_prog st1) = [0%nat]
      ∧ fsym aPTR "x" st1 = Ret (Some 0%nat) st1.
Proof.
  intros st0.
  split; [apply (proj1 (fsym_reference aREG "x" st0)); left; split; discriminate|].
  split; [apply (proj1 (fsym_reference aVAR "" st0)); by right|].
  destruct (proj2 (proj2 (fsym_reference aVAR "x" st0) (or_introl eq_refl)
                     ltac:(discriminate)) eq_refl)
    as (st1 & H1 & _ & Hm & _ & Hu & _).
  exists st1. split; [exact H1|]. split; [exact Hu|].
  apply (proj1 (proj2 (fsym_reference aPTR "x" st1) (or_intror eq_refl)
                  ltac:(discriminate))).
  rewrite Hm. apply lookup_insert_eq.
Defined.

(** ** [addrel] *)

(** C8. With a current section, [addrel] appends exactly one
    instruction, with no code, to that section, and makes exactly one
    relocation that records the section, that instruction, the
    section's byte size as offset and its position counter; the one
    relocation cell is the last entry both of the program's relocation
    list and of the section's. *)
Theorem addrel_records (o : op) (ad : addr4) (st : as_) (q : ptr) (S : section)
    (Hs : as_sect st = Some q) (HS : h_sect (as_heap st) !! q = Some S) :
  let i := length (h_inst (as_heap st)) in
  let r := length (h_reloc (as_heap st)) in
  ∃ st', addrel o ad st = Ret tt st'
    ∧ h_inst (as_heap st') =
        h_inst (as_heap st) ++ [{| i_op := o; i_addr := ad; i_code := [] |}]
    ∧ h_reloc (as_heap st') =
        h_reloc (as_heap st) ++
          [{| r_section := Some q; r_inst := Some i; r_off := s_size S; r_pc := s_pc S;
              r_isize := 0; r_reltyp := 0; r_relname := ""; r_rel := 0 |}]
    ∧ h_sect (as_heap st') =
        <[q := set_s_relocs (s_relocs S ++ [r]) (set_s_inst (s_inst S ++ [i]) S)]>
          (h_sect (as_heap st))
    ∧ p_relocs (as_prog st') = p_relocs (as_prog st) ++ [r]
    ∧ h_sym (as_heap st') = h_sym (as_heap st)
    ∧ p_syms (as_prog st') = p_syms (as_prog st)
    ∧ as_sect st' = as_sect st.
Proof.
  intros i r. subst i r. open_state st. subst. unfold addrel. unfold_M. simpl.
  rewrite HS. norm. rewrite (lookup_insert_same _ _ _ _ HS). norm.
  rewrite (lookup_insert_same _ _ _ _ HS). run.
  eexists. split; [reflexivity|]. repeat split.
Qed.

Lemma addrel_records_witness :
  let st0 := set_as_sect (Some 0%nat) (newas "amd64" "linux" "t.s") in
  ∃ st1, addrel 42 addr4_0 st0 = Ret tt st1
    ∧ p_relocs (as_prog st1) = [0%nat]
    ∧ (s_relocs <$> h_sect (as_heap st1) !! 0%nat) = Some [0%nat]
    ∧ (s_inst <$> h_sect (as_heap st1) !! 0%nat) = Some [0%nat]
    ∧ (i_code <$> h_inst (as_heap st1) !! 0%nat) = Some [].
Proof.
  intros st0.
  destruct (addrel_records 42 addr4_0 st0 0%nat (newsection ".text" "ax" stPROGBITS)
              eq_refl eq_refl) as (st1 & H1 & Hi & _ & Hsec & Hr & _).
  exists st1. split; [exact H1|]. rewrite Hr, Hsec, Hi. repeat split.
Defined.

(** ** [addlabel] *)

Lemma addlabel_same_offset (name : string) (off pc : Z) (st : as_) (p : ptr) (y : sym) :
  p_syms (as_prog st) !! name = Some p → h_sym (as_heap st) !! p = Some y →
  sym_typ y = sLABEL → sym_off y = off →
  addlabel name off pc st = Ret tt st.
Proof.
  intros Hp Hy Ht Ho. unfold addlabel. unfold_M. simpl.
  rewrite (gsym_known _ _ _ _ Hp), Hy.
  rewrite bool_decide_eq_true_2 by done. by rewrite bool_decide_eq_false_2 by tauto.
Qed.

Lemma addlabel_other_offset (name : string) (off pc : Z) (st : as_) (p : ptr) (y : sym) :
  p_syms (as_prog st) !! name = Some p → h_sym (as_heap st) !! p = Some y →
  sym_typ y = sLABEL → sym_off y ≠ off →
  ∃ e, addlabel name off pc st = Raise e st ∧ DuplicateSymbolDeclaration name e.
Proof.
  intros Hp Hy Ht Ho. unfold addlabel. unfold_M. simpl.
  rewrite (gsym_known _ _ _ _ Hp), Hy.
  rewrite bool_decide_eq_true_2 by done. rewrite bool_decide_eq_true_2 by done.
  apply errorf_raises.
Qed.

Lemma addlabel_other_type (name : string) (off pc : Z) (st : as_) (p : ptr) (y : sym) :
  p_syms (as_prog st) !! name = Some p → h_sym (as_heap st) !! p = Some y →
  sym_typ y ≠ sLABEL → sym_typ y ≠ sNONE →
  ∃ e, addlabel name off pc st = Raise e st ∧ DuplicateSymbolDeclaration name e.
Proof.
  intros Hp Hy Ht Ho. unfold addlabel. unfold_M. simpl.
  rewrite (gsym_known _ _ _ _ Hp), Hy.
  do 2 rewrite bool_decide_eq_false_2 by done.
  apply errorf_raises.
Qed.

Lemma addlabel_untyped (name : string) (off pc : Z) (st : as_) (p : ptr) (y : sym)
    (q : ptr) (S : section) :
  p_syms (as_prog st) !! name = Some p → h_sym (as_heap st) !! p = Some y →
  sym_typ y = sNONE →
  as_sect st = Some q → h_sect (as_heap st) !! q = Some S →
  addlabel name off pc st = Ret tt
    (set_as_heap
       (on_sect (λ l, <[q := set_s_labels (s_labels S ++ [p]) S]> l)
          (on_sym (λ l, <[p := set_sym_pc pc (set_sym_off off (set_sym_typ sLABEL y))]> l)
             (as_heap st))) st).
Proof.
  intros Hp Hy Ht Hq HS. unfold addlabel. unfold_M. simpl.
  rewrite (gsym_known _ _ _ _ Hp), Hy.
  rewrite bool_decide_eq_false_2 by (rewrite Ht; discriminate).
  rewrite bool_decide_eq_true_2 by done.
  open_state st. subst. rewrite Hy. norm.
  rewrite (lookup_insert_same _ _ _ _ Hy). run.
  rewrite (lookup_insert_same _ _ _ _ Hy). run.
  rewrite HS. run. reflexivity.
Qed.

Lemma addlabel_fresh (name : string) (off pc : Z) (st : as_) (q : ptr) (S : section) :
  p_syms (as_prog st) !! name = None →
  as_sect st = Some q → h_sect (as_heap st) !! q = Some S →
  let p := length (h_sym (as_heap st)) in
  addlabel name off pc st = Ret tt
    (set_as_prog
       (set_p_osyms (p_osyms (as_prog st) ++ [p])
          (set_p_syms (<[name := p]> (p_syms (as_prog st))) (as_prog st)))
       (set_as_heap
          (on_sym (λ l, l ++ [set_sym_pc pc (set_sym_off off (set_sym_typ sLABEL
                     (set_sym_allocated true
                        (set_sym_name name (set_sym_sect (Some q) sym0)))))])
             (on_sect (λ l, <[q := set_s_labels (s_labels S ++ [p])
                                      (set_s_syms (s_syms S ++ [p]) S)]> l)
                (as_heap st)))
          st)).
Proof.
  intros Hn Hq HS p. unfold addlabel.
  unfold mbind at 1, M_bind at 1, gets at 1. rewrite Hq.
  unfold mbind at 1, M_bind at 1. rewrite (gsym_fresh _ _ _ _ Hn HS).
  subst p. open_state st. subst. unfold_M. norm. run.
  rewrite (lookup_insert_same _ _ _ _ HS). run. reflexivity.
Qed.

(** C4. [addlabel] on a name that is already a label returns without
    touching the state when the offset is the recorded one, and raises
    the duplicate-declaration diagnostic, again without touching the
    state, when it is another.  On an untyped symbol, whether it was
    already known or is made by this call in the current section, it
    sets the type to label, the offset and the position, and appends
    the symbol to the label list of the current section. *)
Theorem addlabel_declares (name : string) (off pc : Z) (st : as_) :
  (∀ p y, p_syms (as_prog st) !! name = Some p → h_sym (as_heap st) !! p = Some y →
     sym_typ y = sLABEL →
     (sym_off y = off → addlabel name off pc st = Ret tt st)
     ∧ (sym_off y ≠ off →
        ∃ e, addlabel name off pc st = Raise e st ∧ DuplicateSymbolDeclaration name e))
  ∧ (∀ q S, as_sect st = Some q → h_sect (as_heap st) !! q = Some S →
     (∀ p y, p_syms (as_prog st) !! name = Some p → h_sym (as_heap st) !! p = Some y →
        sym_typ y = sNONE →
        ∃ st', addlabel name off pc st = Ret tt st'
          ∧ h_sym (as_heap st') =
              <[p := set_sym_pc pc (set_sym_off off (set_sym_typ sLABEL y))]>
                (h_sym (as_heap st))
          ∧ h_sect (as_heap st') =
              <[q := set_s_labels (s_labels S ++ [p]) S]> (h_sect (as_heap st))
          ∧ as_prog st' = as_prog st)
     ∧ (p_syms (as_prog st) !! name = None →
        let p := length (h_sym (as_heap st)) in
        ∃ st', addlabel name off pc st = Ret tt st'
          ∧ h_sym (as_heap st') =
              h_sym (as_heap st) ++
                [{| sym_sect := Some q; sym_typ := sLABEL; sym_name := name;
                    sym_size := 0; sym_off := off; sym_pc := pc;
                    sym_allocated := true; sym_exported := false |}]
          ∧ h_sect (as_heap st') =
              <[q := set_s_labels (s_labels S ++ [p]) (set_s_syms (s_syms S ++ [p]) S)]>
                (h_sect (as_heap st))
          ∧ p_syms (as_prog st') = <[name := p]> (p_syms (as_prog st))
          ∧ p_osyms (as_prog st') = p_osyms (as_prog st) ++ [p])).
Proof.
  split.
  - intros p y Hp Hy Ht. split; intros Ho.
    + by eapply addlabel_same_offset.
    + by eapply addlabel_other_offset.
  - intros q S Hq HS. split.
    + intros p y Hp Hy Ht. eexists. split; [by eapply addlabel_untyped|].
      repeat split.
    + intros Hn p. eexists. split; [by eapply addlabel_fresh|]. repeat split.
Qed.

Lemma addlabel_declares_witness :
  let st0 := set_as_sect (Some 0%nat) (newas "amd64" "linux" "t.s") in
  ∃ st1, addlabel "L" 16 3 st0 = Ret tt st1
    ∧ addlabel "L" 16 3 st1 = Ret tt st1
    ∧ ∃ e, addlabel "L" 20 3 st1 = Raise e st1 ∧ DuplicateSymbolDeclaration "L" e.
Proof.
  intros st0.
  destruct (proj2 (proj2 (addlabel_declares "L" 16 3 st0) 0%nat
                     (newsection ".text" "ax" stPROGBITS) eq_refl eq_refl) eq_refl)
    as (st1 & H1 & Hy & _ & Hm & _).
  exists st1. split; [exact H1|].
  assert (Hp : p_syms (as_prog st1) !! "L" = Some 0%nat)
    by (rewrite Hm; apply lookup_insert_eq).
  assert (Hl : h_sym (as_heap st1) !! 0%nat =
               Some {| sym_sect := Some 0%nat; sym_typ := sLABEL; sym_name := "L";
                       sym_size := 0; sym_off := 16; sym_pc := 3;
                       sym_allocated := true; sym_exported := false |})
    by (rewrite Hy; reflexivity).
  split.
  - exact (proj1 (proj1 (addlabel_declares "L" 16 3 st1) _ _ Hp Hl eq_refl) eq_refl).
  - apply (proj2 (proj1 (addlabel_declares "L" 20 3 st1) _ _ Hp Hl eq_refl)).
    discriminate.
Defined.

(** ** [addbss] *)

Lemma addbss_typed (name : string) (size : Z) (allocated : bool) (st : as_)
    (p : ptr) (y : sym) :
  p_syms (as_prog st) !! name = Some p → h_sym (as_heap st) !! p = Some y →
  sym_typ y ≠ sNONE →
  ∃ e, addbss name size allocated st = Raise e st ∧ DuplicateSymbolDeclaration name e.
Proof.
  intros Hp Hy Ht. unfold addbss. unfold_M. simpl.
  rewrite (gsym_known _ _ _ _ Hp), Hy.
  rewrite bool_decide_eq_false_2 by done. apply errorf_raises.
Qed.

Lemma addbss_fresh (name : string) (size : Z) (allocated : bool) (st : as_)
    (b : ptr) (B : section) :
  p_syms (as_prog st) !! name = None →
  p_bss (as_prog st) = Some b → h_sect (as_heap st) !! b = Some B →
  let p := length (h_sym (as_heap st)) in
  addbss name size allocated st = Ret tt
    (set_as_prog
       (set_p_osyms (p_osyms (as_prog st) ++ [p])
          (set_p_syms (<[name := p]> (p_syms (as_prog st))) (as_prog st)))
       (set_as_heap
          (on_sym (λ l, l ++ [set_sym_allocated allocated (set_sym_size size
                     (set_sym_typ sBSS 
                        (set_sym_name name (set_sym_sect (Some b) sym0))))])
             (on_sect (λ l, <[b := set_s_blocks (s_blocks B ++ [p])
                                     (set_s_blocksize
                                        (if allocated then add64 (s_blocksize B) size
                                         else s_blocksize B)
                                        (set_s_syms (s_syms B ++ [p]) B))]> l)
                (as_heap st)))
          st)).
Proof.
  intros Hn Hb HB p. unfold addbss.
  unfold mbind at 1, M_bind at 1, gets at 1. rewrite Hb.
  unfold mbind at 1, M_bind at 1. rewrite (gsym_fresh _ _ _ _ Hn HB).
  subst p. open_state st. subst. unfold_M. norm. run.
  destruct allocated; norm; rewrite (lookup_insert_same _ _ _ _ HB); run.
  - rewrite (lookup_insert_same _ _ _ _ HB); run. reflexivity.
  - reflexivity.
Qed.

Lemma addbss_untyped (name : string) (size : Z) (allocated : bool) (st : as_)
    (p : ptr) (y : sym) (b : ptr) (B : section) :
  p_syms (as_prog st) !! name = Some p → h_sym (as_heap st) !! p = Some y →
  sym_typ y = sNONE →
  p_bss (as_prog st) = Some b → h_sect (as_heap st) !! b = Some B →
  (allocated = true → ∃ o, sym_sect y = Some o ∧ is_Some (h_sect (as_heap st) !! o)) →
  ∃ st' B', addbss name size allocated st = Ret tt st'
    ∧ h_sym (as_heap st') =
        <[p := set_sym_allocated allocated (set_sym_size size (set_sym_typ sBSS y))]>
          (h_sym (as_heap st))
    ∧ h_sect (as_heap st') !! b = Some B'
    ∧ s_blocks B' = s_blocks B ++ [p]
    ∧ (allocated = false → h_sect (as_heap st') = <[b := B']> (h_sect (as_heap st))
                           ∧ s_blocksize B' = s_blocksize B)
    ∧ (allocated = true → sym_sect y = Some b →
       h_sect (as_heap st') = <[b := B']> (h_sect (as_heap st))
       ∧ s_blocksize B' = add64 (s_blocksize B) size)
    ∧ as_prog st' = as_prog st
    ∧ as_sect st' = as_sect st.
Proof.
  intros Hp Hy Ht Hb HB Ho. unfold addbss. unfold_M. simpl.
  rewrite Hb, (gsym_known _ _ _ _ Hp), Hy.
  rewrite bool_decide_eq_true_2 by done.
  open_state st. subst. rewrite Hy. norm.
  rewrite (lookup_insert_same _ _ _ _ Hy). run.
  rewrite (lookup_insert_same _ _ _ _ Hy). run.
  destruct allocated; norm.
  - destruct Ho as (o & Ho & [O HO]); [done|]. rewrite Ho, HO. norm.
    destruct (decide (o = b)) as [->|Hne].
    + assert (O = B) as -> by congruence.
      rewrite (lookup_insert_same _ _ _ _ HB). run.
      do 2 eexists. split; [reflexivity|]. simpl.
      rewrite (lookup_insert_same _ _ _ _ HB). repeat split; done.
    + rewrite list_lookup_insert_ne by done. rewrite HB. norm.
      do 2 eexists. split; [reflexivity|]. simpl.
      rewrite (list_lookup_insert_eq _ b) by (rewrite length_insert; by eapply lookup_lt_Some).
      repeat split; try done. all: congruence.
  - rewrite HB. norm. do 2 eexists. split; [reflexivity|]. simpl.
    rewrite (lookup_insert_same _ _ _ _ HB). repeat split; done.
Qed.

(** [addbss], case by case.  On a name whose symbol has a type other
    than none it raises the duplicate-declaration diagnostic and leaves
    the whole state as it was; so does every [addbss] of the same name
    after one that succeeded.  With a bss section, [addbss] on a name
    not yet in the global map makes the symbol in bss, sets type bss,
    the size and the allocated flag, appends it to the block list of bss
    and adds [size] (in [int64] arithmetic) to the block size of bss
    when [allocated], and nothing otherwise.  On a known, still untyped
    symbol it sets the same three fields and appends the symbol to the
    block list of bss; the block size of bss is unchanged when not
    [allocated], and grows by [size] when [allocated] and the symbol is
    owned by bss. *)
Theorem addbss_declares (name : string) (size : Z) (allocated : bool) (st : as_) :
  (∀ p y, p_syms (as_prog st) !! name = Some p → h_sym (as_heap st) !! p = Some y →
     sym_typ y ≠ sNONE →
     ∃ e, addbss name size allocated st = Raise e st ∧ DuplicateSymbolDeclaration name e)
  ∧ (∀ b B, p_bss (as_prog st) = Some b → h_sect (as_heap st) !! b = Some B →
     (p_syms (as_prog st) !! name = None →
      let p := length (h_sym (as_heap st)) in
      ∃ st', addbss name size allocated st = Ret tt st'
        ∧ h_sym (as_heap st') =
            h_sym (as_heap st) ++
              [{| sym_sect := Some b; sym_typ := sBSS; sym_name := name;
                  sym_size := size; sym_off := 0; sym_pc := 0;
                  sym_allocated := allocated; sym_exported := false |}]
        ∧ h_sect (as_heap st') =
            <[b := set_s_blocks (s_blocks B ++ [p])
                     (set_s_blocksize
                        (if allocated then add64 (s_blocksize B) size else s_blocksize B)
                        (set_s_syms (s_syms B ++ [p]) B))]>
              (h_sect (as_heap st))
        ∧ p_syms (as_prog st') = <[name := p]> (p_syms (as_prog st))
        ∧ p_osyms (as_prog st') = p_osyms (as_prog st) ++ [p]
        ∧ ∀ size' allocated',
            ∃ e, addbss name size' allocated' st' = Raise e st'
                 ∧ DuplicateSymbolDeclaration name e)
     ∧ (∀ p y, p_syms (as_prog st) !! name = Some p →
        h_sym (as_heap st) !! p = Some y → sym_typ y = sNONE →
        (allocated = true →
         ∃ o, sym_sect y = Some o ∧ is_Some (h_sect (as_heap st) !! o)) →
        ∃ st' B', addbss name size allocated st = Ret tt st'
          ∧ h_sym (as_heap st') =
              <[p := set_sym_allocated allocated (set_sym_size size (set_sym_typ sBSS y))]>
                (h_sym (as_heap st))
          ∧ h_sect (as_heap st') !! b = Some B'
          ∧ s_blocks B' = s_blocks B ++ [p]
          ∧ (allocated = false → s_blocksize B' = s_blocksize B)
          ∧ (allocated = true → sym_sect y = Some b →
             s_blocksize B' = add64 (s_blocksize B) size)
          ∧ ∀ size' allocated',
              ∃ e, addbss name size' allocated' st' = Raise e st'
                   ∧ DuplicateSymbolDeclaration name e)).
Proof.
  split; [intros p y; apply addbss_typed|].
  intros b B Hb HB. split.
  - intros Hn p. eexists. split; [by eapply addbss_fresh|].
    repeat split. intros size' allocated'.
    eapply addbss_typed; simpl.
    + apply lookup_insert_eq.
    + apply lookup_snoc.
    + discriminate.
  - intros p y Hp Hy Ht Ho.
    destruct (addbss_untyped name size allocated st p y b B Hp Hy Ht Hb HB Ho)
      as (st' & B' & H1 & Hsym & HB' & Hbl & Hna & Ha & Hg & _).
    exists st', B'. repeat split; try done.
    + intros H; by apply Hna.
    + intros H1' H2'. by apply Ha.
    + intros size' allocated'. eapply addbss_typed.
      * by rewrite Hg.
      * rewrite Hsym. by eapply lookup_insert_same.
      * discriminate.
Qed.

Lemma addbss_declares_witness :
  let st0 := newas "amd64" "linux" "t.s" in
  let st1 := after (addbss "v" 4 true) st0 in
  (∃ st', addbss "v" 4 true st0 = Ret tt st'
     ∧ (s_blocksize <$> h_sect (as_heap st') !! 2%nat) = Some 4
     ∧ ∃ e, addbss "v" 4 true st' = Raise e st' ∧ DuplicateSymbolDeclaration "v" e)
  ∧ (∃ st2, addbss "w" 8 false st1 = Ret tt st2
     ∧ (s_blocksize <$> h_sect (as_heap st2) !! 2%nat) = Some 4).
Proof.
  intros st0 st1. split.
  - destruct (proj1 (proj2 (addbss_declares "v" 4 true st0) 2%nat
                       (newsection ".bss" "wa" stNOBITS) eq_refl eq_refl) eq_refl)
      as (st' & H1 & _ & Hs1 & _ & _ & Hdup).
    exists st'. split; [exact H1|]. split; [by rewrite Hs1|]. apply Hdup.
  - destruct (proj1 (proj2 (addbss_declares "w" 8 false st1) 2%nat
                       (set_s_blocks [0%nat] (set_s_blocksize 4 (set_s_syms [0%nat]
                          (newsection ".bss" "wa" stNOBITS))))
                       eq_refl eq_refl) eq_refl)
      as (st2 & H2 & _ & Hs2 & _).
    exists st2. split; [exact H2|]. by rewrite Hs2.
Defined.

(** C5.  The code parts from the claim on a name that [addglobal]
    introduced first: the symbol then belongs to the section that was
    current (here .text), the first [addbss] of the name succeeds, types
    it bss and puts it on the block list of bss, but [p.sect.blocksize]
    is the block size of the owning section: that of .text becomes 4 and
    that of bss stays 0. *)
Lemma addbss_block_size_not_in_bss :
  let st0 := set_as_sect (Some 0%nat) (newas "amd64" "linux" "t.s") in
  let st1 := after (addglobal "v") st0 in
  let st2 := after (addbss "v" 4 true) st1 in
  addglobal "v" st0 = Ret tt st1
  ∧ (sym_typ <$> h_sym (as_heap st1) !! 0%nat) = Some sNONE
  ∧ addbss "v" 4 true st1 = Ret tt st2
  ∧ p_bss (as_prog st2) = Some 2%nat
  ∧ (sym_typ <$> h_sym (as_heap st2) !! 0%nat) = Some sBSS
  ∧ (s_blocks <$> h_sect (as_heap st2) !! 2%nat) = Some [0%nat]
  ∧ (s_blocksize <$> h_sect (as_heap st1) !! 2%nat) = Some 0
  ∧ (s_blocksize <$> h_sect (as_heap st2) !! 2%nat) = Some 0
  ∧ (s_blocksize <$> h_sect (as_heap st2) !! 0%nat) = Some 4.
Proof. vm_compute. repeat split. Qed.

(** ** [addsect] *)

Lemma find_sect_none (name : string) (st : as_) (l : list ptr) :
  none_named name st l → find_sect name l st = Ret None st.
Proof.
  induction 1 as [|s l (S & HS & Hn) _ IH]; [done|].
  simpl. unfold_M. simpl. rewrite HS. by rewrite bool_decide_eq_false_2.
Qed.

Lemma find_sect_first (name : string) (st : as_) (l1 l2 : list ptr) (s : ptr) (S : section) :
  none_named name st l1 → h_sect (as_heap st) !! s = Some S → s_name S = name →
  find_sect name (l1 ++ s :: l2) st = Ret (Some s) st.
Proof.
  intros H HS Hn. induction H as [|s' l (S' & HS' & Hn') _ IH]; simpl; unfold_M; simpl.
  - rewrite HS. by rewrite bool_decide_eq_true_2.
  - rewrite HS'. by rewrite bool_decide_eq_false_2.
Qed.

Lemma addsect_reserved (name flags typ : string) (st : as_) :
  name ∈ predefined →
  ∃ e, addsect name flags typ st = Raise e st ∧ ReservedSectionNameRedefinition name e.
Proof.
  intros H. unfold addsect. rewrite (bool_decide_eq_true_2 (name ∈ predefined)) by done.
  destruct (@errorf_raises unit "can't define a pre-defined section %q" [AStr name] st)
    as (e & He & Ht).
  exists e. split; [|done]. unfold mbind at 1 2, M_bind at 1 2. by rewrite He.
Qed.

Lemma empty_not_predefined : "" ∉ predefined.
Proof.
  intros H. unfold predefined in H.
  repeat (apply elem_of_cons in H as [H|H]; [discriminate|]).
  by apply elem_of_nil in H.
Qed.

Lemma addsect_empty (flags typ : string) (st : as_) :
  ∃ e, addsect "" flags typ st = Raise e st ∧ EmptySectionName e.
Proof.
  unfold addsect. rewrite (bool_decide_eq_false_2 ("" ∈ predefined)) by apply empty_not_predefined.
  rewrite (bool_decide_eq_true_2 ("" = "")) by done.
  destruct (@errorf_raises unit "no section name specified" [] st) as (e & He & Ht).
  exists e. split; [|done]. unfold mbind at 1 2, M_bind at 1 2. by rewrite He.
Qed.

Lemma addsect_unknown_type (name flags typ : string) (st : as_) :
  name ∉ predefined → name ≠ "" → section_type typ = None →
  ∃ e, addsect name flags typ st = Raise e st ∧ UnknownSectionType typ e.
Proof.
  intros H1 H2 Ht. unfold addsect.
  rewrite (bool_decide_eq_false_2 (name ∈ predefined)) by done.
  rewrite (bool_decide_eq_false_2 (name = "")) by done.
  unfold section_type in Ht. repeat case_bool_decide; try done.
  destruct (@errorf_raises Z "unknown section type %q" [AStr typ] st) as (e & He & Hx).
  exists e. split; [|done]. unfold mbind, M_bind, mret, M_ret. by rewrite He.
Qed.

Lemma addsect_run (name flags typ : string) (xtyp : Z) (st : as_) :
  name ∉ predefined → name ≠ "" → section_type typ = Some xtyp →
  addsect name flags typ st =
    (found ← find_sect name (p_sects (as_prog st));
     match found with
     | Some s => modify (set_as_sect (Some s))
     | None =>
         s ← new sections (newsection name flags xtyp);
         modify_prog (λ g, set_p_sects (p_sects g ++ [s]) g);;
         modify (set_as_sect (Some s))
     end) st.
Proof.
  intros H1 H2 Ht. unfold addsect.
  rewrite (bool_decide_eq_false_2 (name ∈ predefined)) by done.
  rewrite (bool_decide_eq_false_2 (name = "")) by done.
  unfold section_type in Ht.
  repeat case_bool_decide; try done; injection Ht as <-; reflexivity.
Qed.

(** C6. [addsect] raises a diagnostic, and changes nothing, for the
    empty name, for each of the eight pre-defined names, and for a type
    keyword other than progbits, nobits and note.  Otherwise the first
    section of the list that bears the name becomes the current one and
    nothing else changes (the list keeps its length); when the list has
    no section of that name, one new section with the given name, flags
    and type is made, appended to the list and made current. *)
Theorem addsect_selects (name flags typ : string) (st : as_) :
  (name = "" → ∃ e, addsect name flags typ st = Raise e st ∧ EmptySectionName e)
  ∧ (name ∈ predefined →
     ∃ e, addsect name flags typ st = Raise e st
          ∧ ReservedSectionNameRedefinition name e)
  ∧ (name ≠ "" → name ∉ predefined → typ ∉ ["progbits"; "nobits"; "note"] →
     ∃ e, addsect name flags typ st = Raise e st ∧ UnknownSectionType typ e)
  ∧ (name ≠ "" → name ∉ predefined →
     ∀ xtyp, section_type typ = Some xtyp →
     (∀ l1 s l2 S, p_sects (as_prog st) = l1 ++ s :: l2 →
        none_named name st l1 →
        h_sect (as_heap st) !! s = Some S → s_name S = name →
        addsect name flags typ st = Ret tt (set_as_sect (Some s) st))
     ∧ (none_named name st (p_sects (as_prog st)) →
        let s := length (h_sect (as_heap st)) in
        ∃ st', addsect name flags typ st = Ret tt st'
          ∧ h_sect (as_heap st') =
              h_sect (as_heap st) ++ [newsection name flags xtyp]
          ∧ p_sects (as_prog st') = p_sects (as_prog st) ++ [s]
          ∧ as_sect st' = Some s
          ∧ h_sym (as_heap st') = h_sym (as_heap st)
          ∧ h_inst (as_heap st') = h_inst (as_heap st)
          ∧ h_reloc (as_heap st') = h_reloc (as_heap st)
          ∧ p_syms (as_prog st') = p_syms (as_prog st))).
Proof.
  split; [intros ->; apply addsect_empty|].
  split; [apply addsect_reserved|].
  split.
  - intros H1 H2 Ht. apply addsect_unknown_type; try done.
    unfold section_type. repeat case_bool_decide; try done; subst; exfalso; apply Ht;
      set_solver.
  - intros H1 H2 xtyp Ht. split.
    + intros l1 s l2 S Hl Hnone HS Hn.
      rewrite (addsect_run _ _ _ _ _ H2 H1 Ht). unfold mbind, M_bind.
      rewrite Hl. by rewrite (find_sect_first _ _ _ _ _ _ Hnone HS Hn).
    + intros Hnone s. rewrite (addsect_run _ _ _ _ _ H2 H1 Ht). unfold mbind at 1, M_bind at 1.
      rewrite (find_sect_none _ _ _ Hnone). eexists. split; [reflexivity|].
      repeat split.
Qed.

Ltac not_listed :=
  let H := fresh in
  intros H; repeat (apply elem_of_cons in H as [H|H]; [discriminate|]);
  by apply elem_of_nil in H.

Lemma addsect_selects_witness :
  let st0 := newas "amd64" "linux" "t.s" in
  let st1 := after (addsect "extra" "wa" "progbits") st0 in
  (∃ st', addsect "extra" "wa" "progbits" st0 = Ret tt st'
     ∧ p_sects (as_prog st') = [3%nat] ∧ as_sect st' = Some 3%nat)
  ∧ addsect "extra" "wa" "progbits" (set_as_sect (Some 0%nat) st1) = Ret tt st1
  ∧ (∃ e, addsect ".text" "ax" "progbits" st1 = Raise e st1
          ∧ ReservedSectionNameRedefinition ".text" e)
  ∧ (∃ e, addsect "extra" "wa" "code" st1 = Raise e st1 ∧ UnknownSectionType "code" e).
Proof.
  intros st0 st1.
  assert (Hname : "extra" ≠ "") by discriminate.
  assert (Hfree : "extra" ∉ predefined) by not_listed.
  split; [|split; [|split]].
  - destruct (proj2 (proj2 (proj2 (proj2 (addsect_selects "extra" "wa" "progbits" st0)))
                Hname Hfree stPROGBITS eq_refl) (Forall_nil_2 _))
      as (st' & H1 & _ & Hl & Hc & _).
    exists st'. split; [exact H1|]. split; [exact Hl|exact Hc].
  - exact (proj1 (proj2 (proj2 (proj2 (addsect_selects "extra" "wa" "progbits"
                     (set_as_sect (Some 0%nat) st1)))) Hname Hfree stPROGBITS eq_refl)
             [] 3%nat [] (newsection "extra" "wa" stPROGBITS)
             eq_refl (Forall_nil_2 _) eq_refl eq_refl).
  - apply (proj1 (proj2 (addsect_selects ".text" "ax" "progbits" st1))).
    unfold predefined; apply elem_of_cons; by left.
  - apply (proj1 (proj2 (proj2 (addsect_selects "extra" "wa" "code" st1)))); try done.
    not_listed.
Defined.

(** ** [bytes] and [alignpc] *)

Ltac cell H :=
  repeat (first [rewrite H | rewrite (lookup_insert_same _ _ _ _ H)]; run).

Lemma bytes_appends (q : ptr) (S : section) (buf : list byte) (st : as_) :
  h_sect (as_heap st) !! q = Some S →
  bytes (Some q) buf st = Ret tt
    (set_as_heap
       (on_sect (λ l, <[q := set_s_inst (s_inst S ++ [length (h_inst (as_heap st))])
                               (set_s_size (add64 (s_size S) (len buf)) S)]> l)
          (on_inst (λ l, l ++ [{| i_op := opBYTES; i_addr := addr4_0; i_code := buf |}])
             (as_heap st))) st).
Proof.
  intros HS. open_state st. unfold bytes. unfold_M. simpl. cell HS. reflexivity.
Qed.

Lemma rem_mod_same (a b : Z) : 0 < b → (Z.rem a b) mod b = a mod b.
Proof.
  intros Hb. rewrite (Z.rem_eq a b) by lia.
  rewrite Zminus_mod, (Z.mul_comm b), Z_mod_mult, Z.sub_0_r. apply Zmod_mod.
Qed.

Lemma padding_formula (align pc : Z) :
  1 ≤ align < 2 ^ 63 → (0 ≤ pc ∨ 2 * align ≤ 2 ^ 63) →
  padding align pc = (align - pc mod align) mod align.
Proof.
  intros Ha Hpc. unfold padding, rem64, sub64.
  assert (Hr : - align < Z.rem pc align < align).
  { pose proof (Z.rem_bound_abs pc align ltac:(lia)). lia. }
  assert (Hr' : 0 ≤ pc → 0 ≤ Z.rem pc align).
  { intros. apply Z.rem_nonneg; lia. }
  assert (Hr'' : pc ≤ 0 → Z.rem pc align ≤ 0).
  { intros. apply Z.rem_nonpos; lia. }
  rewrite (wrap64_id (Z.rem pc align)) by lia.
  rewrite (wrap64_id (align - Z.rem pc align)) by lia.
  assert (Hpos : 0 ≤ align - Z.rem pc align) by lia.
  rewrite Z.rem_mod_nonneg by lia.
  pose proof (Z.mod_pos_bound (align - Z.rem pc align) align ltac:(lia)).
  rewrite wrap64_id by lia.
  rewrite (Zminus_mod align (Z.rem pc align)), rem_mod_same by lia.
  by rewrite (Zminus_mod align (pc mod align)), Zmod_mod.
Qed.

(** C1, as the code has it.  With a current section, an alignment
    [align] from 1 up and a position counter that is not negative (or
    an alignment of at most 2^62), [alignpc] computes the padding
    [(align - pc mod align) mod align] from the position counter [pc]
    of the section, not from its byte size.  A padding of at most
    [maxAlloc] bytes is handed to [bytes] as that many bytes of the
    fill value: exactly one [opBYTES] instruction with that code is
    appended to the section and its byte size grows by the padding (in
    [int64] arithmetic); the position counter is left as it was.  With
    a larger padding the allocation of the filler panics and nothing
    is appended. *)
Theorem alignpc_pads (align : Z) (value : byte) (st : as_) (q : ptr) (S : section)
    (Hs : as_sect st = Some q) (HS : h_sect (as_heap st) !! q = Some S)
    (Ha : 1 ≤ align < 2 ^ 63) (Hpc : 0 ≤ s_pc S ∨ 2 * align ≤ 2 ^ 63) :
  let pad := (align - s_pc S mod align) mod align in
  0 ≤ pad < align
  ∧ (pad ≤ maxAlloc →
     ∃ st', alignpc align value st = Ret tt st'
       ∧ h_inst (as_heap st') =
           h_inst (as_heap st) ++
             [{| i_op := opBYTES; i_addr := addr4_0;
                 i_code := replicate (Z.to_nat pad) value |}]
       ∧ h_sect (as_heap st') =
           <[q := set_s_inst (s_inst S ++ [length (h_inst (as_heap st))])
                    (set_s_size (add64 (s_size S) pad) S)]>
             (h_sect (as_heap st))
       ∧ as_prog st' = as_prog st
       ∧ as_sect st' = as_sect st)
  ∧ (maxAlloc < pad → alignpc align value st = Crash).
Proof.
  intros pad.
  assert (Hpad : 0 ≤ pad < align) by (apply Z.mod_pos_bound; lia).
  split; [done|].
  unfold alignpc. unfold mbind, M_bind, gets, load. simpl. rewrite Hs, HS.
  rewrite bool_decide_eq_false_2 by lia.
  fold (padding align (s_pc S)). rewrite (padding_formula _ _ Ha Hpc). fold pad.
  split.
  - intros Hfit. rewrite bool_decide_eq_false_2 by lia. simpl. rewrite Hs.
    rewrite (bytes_appends _ _ _ _ HS).
    eexists. split; [reflexivity|]. simpl.
    unfold len. rewrite length_replicate, Z2Nat.id by lia. repeat split; done.
  - intros Hbig. by rewrite bool_decide_eq_true_2 by lia.
Qed.

Lemma alignpc_pads_witness :
  let st0 := set_as_sect (Some 0%nat) (newas "amd64" "linux" "t.s") in
  let st1 := after (bytes (Some 0%nat) (replicate 10 "000"%byte)) st0 in
  let st2 := after (update sections (Some 0%nat) (set_s_pc 10)) st1 in
  ∃ st', alignpc 16 "000"%byte st2 = Ret tt st'
    ∧ (i_code <$> h_inst (as_heap st') !! 1%nat) = Some (replicate 6 "000"%byte)
    ∧ (s_size <$> h_sect (as_heap st') !! 0%nat) = Some 16
    ∧ (s_pc <$> h_sect (as_heap st') !! 0%nat) = Some 10.
Proof.
  intros st0 st1 st2.
  destruct (proj1 (proj2 (alignpc_pads 16 "000"%byte st2 0%nat
              (set_s_pc 10 (set_s_inst [0%nat] (set_s_size 10
                 (newsection ".text" "ax" stPROGBITS))))
              eq_refl eq_refl ltac:(lia) ltac:(left; simpl; lia)))
              ltac:(vm_compute; discriminate))
    as (st' & H1 & Hi & Hsec & _).
  exists st'. split; [exact H1|]. rewrite Hi, Hsec. repeat split.
Defined.

(** C1 as it was stated fails: a section of byte size 10 whose
    position counter is 0 gets no filler from [alignpc 16 0], and its
    byte size stays 10. *)
Lemma alignpc_not_from_byte_size :
  let st0 := set_as_sect (Some 0%nat) (newas "amd64" "linux" "t.s") in
  let st1 := after (bytes (Some 0%nat) (replicate 10 "000"%byte)) st0 in
  let st2 := after (alignpc 16 "000"%byte) st1 in
  (s_size <$> h_sect (as_heap st1) !! 0%nat) = Some 10
  ∧ (s_pc <$> h_sect (as_heap st1) !! 0%nat) = Some 0
  ∧ alignpc 16 "000"%byte st1 = Ret tt st2
  ∧ (i_code <$> h_inst (as_heap st2) !! 1%nat) = Some []
  ∧ (s_size <$> h_sect (as_heap st2) !! 0%nat) = Some 10.
Proof. vm_compute. repeat split. Qed.

(** ** [code] and [emit] *)

Lemma length_le_bytes (n : nat) (v : Z) : length (le_bytes n v) = n.
Proof. revert v. induction n as [|n IH]; intros v; simpl; [done|]. by rewrite IH. Qed.

Lemma length_put_uint (order : ByteOrder) (n : nat) (v : Z) :
  length (put_uint order n v) = n.
Proof. destruct order; simpl; rewrite ?length_reverse; apply length_le_bytes. Qed.

Lemma le_bytes_lookup (n k : nat) (v : Z) :
  (k < n)%nat → le_bytes n v !! k = Some (byte_of_Z (Z.shiftr v (8 * Z.of_nat k))).
Proof.
  revert k v. induction n as [|n IH]; intros k v Hk; [lia|].
  destruct k as [|k]; simpl.
  - by rewrite Z.shiftr_0_r.
  - rewrite IH by lia. rewrite Z.shiftr_shiftr by lia. do 3 f_equal. lia.
Qed.

(** Byte [k] of an [n]-byte integer: the least significant byte comes
    first in little-endian order and last in big-endian order. *)
Lemma put_uint_lookup (order : ByteOrder) (n k : nat) (v : Z) :
  (k < n)%nat →
  put_uint order n v !! k =
    Some (byte_of_Z (Z.shiftr v (8 * Z.of_nat
            match order with LittleEndian => k | BigEndian => n - 1 - k end))).
Proof.
  intros Hk. destruct order; simpl.
  - by apply le_bytes_lookup.
  - rewrite reverse_lookup by (rewrite length_le_bytes; lia).
    rewrite length_le_bytes. replace (n - S k)%nat with (n - 1 - k)%nat by lia.
    apply le_bytes_lookup. lia.
Qed.

Lemma code_loop_supported (v : list value) (c : list byte) (st : as_) :
  Forall supported v →
  code_loop c v st = Ret (c ++ flat_map (encode (p_endian (as_prog st))) v) st.
Proof.
  intros H. revert c. induction H as [|x v Hx _ IH]; intros c; simpl.
  - by rewrite app_nil_r.
  - destruct x; simpl in *; try done; unfold_M; rewrite IH;
      by rewrite <- ?app_assoc.
Qed.

Lemma code_loop_unsupported (v1 v2 : list value) (ty : string) (c : list byte) (st : as_) :
  Forall supported v1 →
  ∃ e, code_loop c (v1 ++ VOther ty :: v2) st = Raise e st ∧ EmitTypeError ty e.
Proof.
  intros H. revert c. induction H as [|x v Hx _ IH]; intros c; simpl.
  - destruct (@errorf_raises unit "unknown emit type %T" [AType ty] st) as (e & He & Ht).
    exists e. split; [|done]. unfold mbind, M_bind. by rewrite He.
  - destruct x; simpl in *; try done; unfold_M; apply IH.
Qed.

(** C3, as the code has it.  [emit] encodes its payload values in
    order: a byte as it is, an [int] as its low eight bits, nothing for
    nil, and a [uint16], [uint32] or [uint64] as 2, 4 or 8 bytes in the
    byte order of the program, least significant byte first for
    little-endian and last for big-endian.  With a current section it
    then appends exactly one instruction holding the operation, the
    operands and that code, and adds the length of the code to the byte
    size of the section (in [int64] arithmetic).  A value of any other
    kind raises the emit-type diagnostic before anything is appended:
    the state stays as it was. *)
Theorem emit_records (o : op) (ad : addr4) (v : list value) (st : as_) :
  (Forall supported v →
   ∀ q S, as_sect st = Some q → h_sect (as_heap st) !! q = Some S →
   let c := flat_map (encode (p_endian (as_prog st))) v in
   let i := length (h_inst (as_heap st)) in
   ∃ st', emit o ad v st = Ret tt st'
     ∧ h_inst (as_heap st') =
         h_inst (as_heap st) ++ [{| i_op := o; i_addr := ad; i_code := c |}]
     ∧ h_sect (as_heap st') =
         <[q := set_s_size (add64 (s_size S) (len c)) (set_s_inst (s_inst S ++ [i]) S)]>
           (h_sect (as_heap st))
     ∧ h_sym (as_heap st') = h_sym (as_heap st)
     ∧ h_reloc (as_heap st') = h_reloc (as_heap st)
     ∧ as_prog st' = as_prog st
     ∧ as_sect st' = as_sect st)
  ∧ (∀ v1 ty v2, v = v1 ++ VOther ty :: v2 → Forall supported v1 →
     ∃ e, emit o ad v st = Raise e st ∧ EmitTypeError ty e)
  ∧ (∀ n k x, (k < n)%nat →
     put_uint LittleEndian n x !! k = Some (byte_of_Z (Z.shiftr x (8 * Z.of_nat k)))
     ∧ put_uint BigEndian n x !! k =
         Some (byte_of_Z (Z.shiftr x (8 * Z.of_nat (n - 1 - k))))).
Proof.
  split; [|split].
  - intros Hv q S Hs HS c i. unfold emit, code. unfold mbind at 1, M_bind at 1.
    rewrite (code_loop_supported _ _ _ Hv). simpl. fold c.
    open_state st. subst. unfold_M. simpl. cell HS.
    eexists. split; [reflexivity|]. repeat split.
  - intros v1 ty v2 -> Hv1. unfold emit, code. unfold mbind at 1, M_bind at 1.
    destruct (code_loop_unsupported v1 v2 ty [] st Hv1) as (e & He & Ht).
    exists e. by rewrite He.
  - intros n k x Hk. split.
    + by apply (put_uint_lookup LittleEndian).
    + by apply (put_uint_lookup BigEndian).
Qed.

Lemma emit_records_witness :
  let st0 := set_as_sect (Some 0%nat) (newas "amd64" "linux" "t.s") in
  (∃ st', emit 7 addr4_0 [VByte "001"%byte; VUint16 258; VUint32 1] st0 = Ret tt st'
     ∧ (i_code <$> h_inst (as_heap st') !! 0%nat) =
         Some ["001"; "002"; "001"; "001"; "000"; "000"; "000"]%byte
     ∧ (s_size <$> h_sect (as_heap st') !! 0%nat) = Some 7)
  ∧ (∃ e, emit 7 addr4_0 [VByte "001"%byte; VOther "string"; VUint16 258] st0
          = Raise e st0 ∧ EmitTypeError "string" e).
Proof.
  intros st0. split.
  - destruct (proj1 (emit_records 7 addr4_0 [VByte "001"%byte; VUint16 258; VUint32 1] st0)
                ltac:(repeat constructor) 0%nat (newsection ".text" "ax" stPROGBITS)
                eq_refl eq_refl) as (st' & H1 & Hi & Hsec & _).
    exists st'. split; [exact H1|]. rewrite Hi, Hsec. repeat split.
  - apply (proj1 (proj2 (emit_records 7 addr4_0
                           [VByte "001"%byte; VOther "string"; VUint16 258] st0))
             [VByte "001"%byte] "string" [VUint16 258] eq_refl).
    repeat constructor.
Defined.

(** C3 as it was stated fails: an [int] and a nil payload value are
    neither single bytes nor fixed-width unsigned integers, yet [emit]
    raises nothing for them; the [int] 511 is cut to the one byte 255
    and nil adds nothing. *)
Lemma emit_accepts_int_and_nil :
  let st0 := set_as_sect (Some 0%nat) (newas "amd64" "linux" "t.s") in
  let st1 := after (emit 7 addr4_0 [VInt 511; VNil]) st0 in
  emit 7 addr4_0 [VInt 511; VNil] st0 = Ret tt st1
  ∧ (i_code <$> h_inst (as_heap st1) !! 0%nat) = Some ["255"%byte]
  ∧ (s_size <$> h_sect (as_heap st1) !! 0%nat) = Some 1.
Proof. vm_compute. repeat split. Qed.

(** ** [Assemble] *)

Section EntryProperties.
Context {Sink : Type}.
Variable sink_write : list byte → Sink → Sink * nat * option error.
Variable x86as : heap * prog → string → list byte → encoded.
Variable genelf : heap * prog → writing.

(** A write that fits in the buffer goes there, whatever the rounds. *)
Lemma Write_fits (fuel : nat) (w : Writer Sink) (p : list byte) :
  b_err w = None → (length (b_buf w) + length p ≤ size Sink w)%nat →
  Write Sink sink_write fuel w p =
    Wrote Sink {| b_err := None; b_buf := b_buf w ++ p; b_more := b_more w;
                  b_wr := b_wr w |} (length p) None.
Proof.
  intros He Hl. unfold Write.
  assert (Hfit : bool_decide (Available Sink w < length p)%nat = false)
    by (apply bool_decide_eq_false_2; unfold Available, size in *; lia).
  destruct fuel; cbn [Write_loop]; by rewrite Hfit, He.
Qed.

(** An object writer that does not flush and writes no more than
    fits leaves everything in the buffer. *)
Lemma run_writing_fits (fuel : nat) (g : writing) (w : Writer Sink) :
  b_err w = None → unflushed g →
  (length (b_buf w) + length (accepted g).1 ≤ size Sink w)%nat →
  run_writing Sink sink_write fuel g w =
    ({| b_err := None; b_buf := b_buf w ++ (accepted g).1; b_more := b_more w;
        b_wr := b_wr w |}, (accepted g).2).
Proof.
  revert w. induction g as [|e| |p k IH|k IH]; intros w He Hu Hl;
    cbn [accepted unflushed run_writing fst snd] in *; cbv zeta in *;
    cbn [fst snd] in *;
    try (rewrite app_nil_r; by destruct w; cbn [b_err b_buf b_more b_wr] in *; subst).
  - rewrite length_app in Hl. rewrite Write_fits by (done || lia).
    rewrite IH; cbn [b_err b_buf b_more b_wr];
      [by rewrite <- app_assoc|done|done|rewrite length_app; unfold size in *; cbn [b_more b_buf]; lia].
  - done.
Qed.

(** The run for amd64 and linux with such an object writer: the
    bytes stay in the buffer until the final flush, and there is no
    flush unless the object writer returned without an error. *)
Lemma Assemble_buffers (fuel : nat) (input : string) (output : io_writer Sink)
    (src : list byte) (g : heap * prog) :
  x86as (newprog "amd64" "linux") input src = Encoded g →
  b_err (NewWriter Sink output) = None → unflushed (genelf g) →
  (length (b_buf (NewWriter Sink output)) + length (accepted (genelf g)).1
   ≤ size Sink (NewWriter Sink output))%nat →
  let kept := {| b_err := None;
                 b_buf := b_buf (NewWriter Sink output) ++ (accepted (genelf g)).1;
                 b_more := b_more (NewWriter Sink output);
                 b_wr := b_wr (NewWriter Sink output) |} in
  Assemble Sink sink_write x86as genelf fuel "amd64" "linux" input output src =
    match (accepted (genelf g)).2 with
    | Returned None =>
        (written Sink output (Flush Sink sink_write kept).1,
         Returned (Flush Sink sink_write kept).2)
    | e => (written Sink output kept, e)
    end.
Proof.
  intros Hg He Hu Hl kept. unfold Assemble.
  rewrite bool_decide_eq_true_2 by done. rewrite Hg.
  rewrite bool_decide_eq_true_2 by done.
  rewrite run_writing_fits by done. fold kept.
  by destruct (accepted (genelf g)).2 as [[e|]| |].
Qed.

(** C2, as the code has it.  An architecture tag other than amd64
    makes [Assemble] return the unsupported-architecture error
    without running the encoder or the writer.  For amd64, a
    diagnostic of the encoder is what [Assemble] returns, a run-time
    panic of the encoder is re-raised, and after a successful encoding
    an OS tag other than linux makes it return the unsupported-OS
    error.  In all four the output is left as it was.  For amd64 and
    linux the output is reached only through the buffered writer that
    [bufio.NewWriter] gives for it, handed to the object writer.  Take
    any object writer that, its writes being accepted, calls no flush
    and writes no more than the buffer has room for.  If the output
    is not itself a buffered writer of at least 4096 bytes, it sees
    nothing while the object writer runs; when the object writer
    raises a diagnostic or panics there is no flush and the output is
    left as it was, and when it returns the final flush hands the
    output all the bytes in one write (and none when there are none),
    and the error of that flush is what [Assemble] returns.  If the
    output is itself a buffered writer of at least 4096 bytes,
    without an error, it is used as it is: the bytes join its own
    buffer, where they stay when the object writer raises a diagnostic
    or panics, and which the final flush flushes when it returns. *)
Theorem Assemble_dispatch (fuel : nat) (arch os_ input : string)
    (output : io_writer Sink) (src : list byte) :
  let run := Assemble Sink sink_write x86as genelf fuel arch os_ input output src in
  (arch ≠ "amd64" →
   ∃ e, run = (output, Returned (Some e)) ∧ UnsupportedArchitecture arch e)
  ∧ (arch = "amd64" →
     (∀ e, x86as (newprog arch os_) input src = EncodeRaise e →
        run = (output, Returned (Some e)))
     ∧ (x86as (newprog arch os_) input src = EncodeCrash → run = (output, Panicked))
     ∧ (∀ g, x86as (newprog arch os_) input src = Encoded g →
        (os_ ≠ "linux" →
         ∃ e, run = (output, Returned (Some e)) ∧ UnsupportedOS os_ e)
        ∧ (os_ = "linux" → unflushed (genelf g) →
           (∀ s, output = Plain s →
              (length (accepted (genelf g)).1 ≤ defaultBufSize)%nat →
              ((accepted (genelf g)).2 ≠ Returned None →
               run = (Plain s, (accepted (genelf g)).2))
              ∧ ((accepted (genelf g)).2 = Returned None →
                 ((accepted (genelf g)).1 = [] → run = (Plain s, Returned None))
                 ∧ ((accepted (genelf g)).1 ≠ [] →
                    run =
                      (Plain (sink_write (accepted (genelf g)).1 s).1.1,
                       Returned
                         match (sink_write (accepted (genelf g)).1 s).2 with
                         | Some e => Some e
                         | None =>
                             if bool_decide
                                  ((sink_write (accepted (genelf g)).1 s).1.2
                                   < length (accepted (genelf g)).1)%nat
                             then Some ErrShortWrite else None
                         end))))
           ∧ (∀ b, output = Buffered b → b_err b = None →
                (length (b_buf b) + length (accepted (genelf g)).1 ≤ size Sink b)%nat →
                let kept := {| b_err := None;
                               b_buf := b_buf b ++ (accepted (genelf g)).1;
                               b_more := b_more b; b_wr := b_wr b |} in
                ((accepted (genelf g)).2 ≠ Returned None →
                 run = (Buffered kept, (accepted (genelf g)).2))
                ∧ ((accepted (genelf g)).2 = Returned None →
                   run = (Buffered (Flush Sink sink_write kept).1,
                          Returned (Flush Sink sink_write kept).2)))))).
Proof.
  intros run. unfold run. split.
  - intros H. unfold Assemble. rewrite bool_decide_eq_false_2 by done. by eexists.
  - intros ->. split; [|split].
    + intros e He. unfold Assemble. rewrite bool_decide_eq_true_2 by done. by rewrite He.
    + intros He. unfold Assemble. rewrite bool_decide_eq_true_2 by done. by rewrite He.
    + intros g Hg. split.
      * intros H. unfold Assemble. rewrite bool_decide_eq_true_2 by done. rewrite Hg.
        rewrite bool_decide_eq_false_2 by done. by eexists.
      * intros -> Hu. split.
        -- intros s -> Hl.
           rewrite (Assemble_buffers fuel input (Plain s) src g Hg eq_refl Hu)
             by (unfold size; cbn [NewWriter b_buf b_more length]; lia).
           simpl. split.
           ++ intros Hend. by destruct (accepted (genelf g)).2 as [[e|]| |].
           ++ intros ->. unfold Flush. simpl. split.
              ** by intros ->.
              ** intros Hne.
                 rewrite bool_decide_eq_false_2
                   by (intros H0; apply Hne; by apply length_zero_iff_nil).
                 destruct (sink_write (accepted (genelf g)).1 s) as [[s' n] [e|]];
                   simpl; [done|]. by case_bool_decide.
        -- intros b -> He Hl.
           rewrite (Assemble_buffers fuel input (Buffered b) src g Hg He Hu Hl).
           cbn [written NewWriter]. split.
           ++ intros Hend. by destruct (accepted (genelf g)).2 as [[e|]| |].
           ++ by intros ->.
Qed.
End EntryProperties.

Lemma Assemble_dispatch_witness :
  let small := λ _ : heap * prog, writes [["001"; "002"]; ["003"]]%byte in
  (∃ e, Assemble (list byte) keep_all encodes_nothing small 0 "arm" "linux" "t.s"
          (Plain []) []
        = (Plain [], Returned (Some e)) ∧ UnsupportedArchitecture "arm" e)
  ∧ (∃ e, Assemble (list byte) keep_all encodes_nothing small 0 "amd64" "plan9" "t.s"
            (Plain []) []
          = (Plain [], Returned (Some e)) ∧ UnsupportedOS "plan9" e)
  ∧ Assemble (list byte) keep_all encodes_nothing small 0 "amd64" "linux" "t.s"
      (Plain []) []
    = (Plain ["001"; "002"; "003"]%byte, Returned None).
Proof.
  intros small. split; [|split].
  - apply (proj1 (Assemble_dispatch keep_all encodes_nothing small 0
                    "arm" "linux" "t.s" (Plain []) [])).
    discriminate.
  - apply (proj1 (proj2 (proj2 (proj2 (Assemble_dispatch keep_all encodes_nothing small 0
                    "amd64" "plan9" "t.s" (Plain []) []) eq_refl)) _ eq_refl)).
    discriminate.
  - apply (proj2 (proj2 (proj1 (proj2 (proj2 (proj2 (proj2 (Assemble_dispatch keep_all
                    encodes_nothing small 0 "amd64" "linux" "t.s" (Plain []) [])
                    eq_refl)) _ eq_refl) eq_refl I) [] eq_refl
                    ltac:(vm_compute; lia)) eq_refl)).
    discriminate.
Defined.

(** C2 as it was stated fails: a failing run can leave bytes in the
    output.  First, the final flush itself can fail after the sink took
    part of the buffer: with room for one byte and an object of two,
    [Assemble] returns the error of the sink and the sink holds one
    byte.  Second, the buffered writer passes a write larger than its
    4096-byte buffer straight to the sink, so an object writer that
    raises a diagnostic after such a write leaves those bytes in the
    sink of a run that returns an error.  Third, an output that is
    itself a buffered writer of 4096 bytes is written to directly: the
    two bytes of an object writer that then raises a diagnostic are in
    its buffer when the run returns the error. *)
Lemma Assemble_failing_run_writes :
  Assemble (list byte * nat) keep_some encodes_nothing
      (λ _, writes [["001"; "002"]]%byte) 0 "amd64" "linux" "t.s" (Plain ([], 1%nat)) []
    = (Plain (["001"%byte], 0%nat), Returned (Some ErrNoSpace))
  ∧ Assemble (list byte) keep_all encodes_nothing
      (λ _, WWrite (replicate 4097 "000"%byte) (λ _ _, WRaise ErrWriter))
      1 "amd64" "linux" "t.s" (Plain []) []
    = (Plain (replicate 4097 "000"%byte), Returned (Some ErrWriter))
  ∧ Assemble (list byte) keep_all encodes_nothing
      (λ _, WWrite ["001"; "002"]%byte (λ _ _, WRaise ErrWriter))
      0 "amd64" "linux" "t.s"
      (Buffered {| b_err := None; b_buf := []; b_more := 0; b_wr := [] |}) []
    = (Buffered {| b_err := None; b_buf := ["001"; "002"]%byte; b_more := 0; b_wr := [] |},
       Returned (Some ErrWriter)).
Proof. repeat split; vm_compute; reflexivity. Qed.

(** ** What no call changes about a provisional extern *)

Lemma wp_ret {A} (a : A) Q E st : Q a st → wp (mret a) Q E st.
Proof. done. Qed.

Lemma wp_bind {A B} (m : M A) (k : A → M B) Q E st :
  wp m (λ a st', wp (k a) Q E st') E st → wp (m ≫= k) Q E st.
Proof. unfold wp, mbind, M_bind. by destruct (m st). Qed.

Lemma wp_mono {A} (m : M A) (Q Q' : A → as_ → Prop) (E : as_ → Prop) st :
  wp m Q E st → (∀ a st', Q a st' → Q' a st') → wp m Q' E st.
Proof. unfold wp. destruct (m st); auto. Qed.

Lemma wp_gets {A} (f : as_ → A) Q E st : Q (f st) st → wp (gets f) Q E st.
Proof. done. Qed.

Lemma wp_modify (f : as_ → as_) Q E st : Q tt (f st) → wp (modify f) Q E st.
Proof. done. Qed.

Lemma wp_modify_prog (f : prog → prog) Q E st :
  Q tt (set_as_prog (f (as_prog st)) st) → wp (modify_prog f) Q E st.
Proof. done. Qed.

Lemma wp_crash {A} Q E st : wp (@crash A) Q E st.
Proof. done. Qed.

Lemma wp_errorf {A} (format : string) (args : list fmtarg) Q E st :
  E st → wp (@errorf A format args) Q E st.
Proof.
  intros H. unfold wp. by destruct (@errorf_raises A format args st) as (e & -> & _).
Qed.

Lemma wp_new {A} (r : region A) (x : A) Q E st :
  Q (length (cells r (as_heap st)))
    (set_as_heap (on_cells r (λ l, l ++ [x]) (as_heap st)) st) →
  wp (new r x) Q E st.
Proof. done. Qed.

Lemma wp_load {A} (r : region A) (p : option ptr) Q E st :
  (∀ q x, p = Some q → cells r (as_heap st) !! q = Some x → Q x st) →
  wp (load r p) Q E st.
Proof.
  intros H. unfold wp, load. destruct p as [q|]; [|done].
  destruct (cells r (as_heap st) !! q) eqn:Hq; [|done]. by eapply H.
Qed.

Lemma wp_update {A} (r : region A) (p : option ptr) (f : A → A) Q E st :
  (∀ q x, p = Some q → cells r (as_heap st) !! q = Some x →
     Q tt (set_as_heap (on_cells r (λ l, <[q := f x]> l) (as_heap st)) st)) →
  wp (update r p f) Q E st.
Proof.
  intros H. unfold wp, update. destruct p as [q|]; [|done].
  destruct (cells r (as_heap st) !! q) eqn:Hq; [|done]. by eapply H.
Qed.

Lemma wp_keeps {A B} (I : as_ → Prop) (m : M A) (k : A → M B) Q st :
  keeps I m → I st → (∀ a st', I st' → wp (k a) Q I st') → wp (m ≫= k) Q I st.
Proof.
  intros Hm HI Hk. apply wp_bind. eapply wp_mono; [by apply Hm|]. simpl. auto.
Qed.

Section Provisional.
Variables (name : string) (p : ptr).

Lemma provisional_heap_other st h :
  provisional name p st → h_sym h = h_sym (as_heap st) → provisional name p (set_as_heap h st).
Proof. intros (? & ? & ?) Hh. repeat split; try done. simpl. by rewrite Hh. Qed.

Lemma provisional_sym_snoc st x :
  provisional name p st → provisional name p (set_as_heap (on_sym (λ l, l ++ [x]) (as_heap st)) st).
Proof.
  intros (? & ? & y & Hy & ?). repeat split; try done. exists y. split; [|done].
  simpl. rewrite lookup_app_l; [done|]. by eapply lookup_lt_Some.
Qed.

Lemma provisional_sym_other st q y :
  provisional name p st → q ≠ p →
  provisional name p (set_as_heap (on_sym (λ l, <[q := y]> l) (as_heap st)) st).
Proof.
  intros (? & ? & y' & Hy & ?) Hq. repeat split; try done. exists y'. split; [|done].
  simpl. by rewrite list_lookup_insert_ne.
Qed.

Lemma provisional_sym_same st q x y :
  provisional name p st → h_sym (as_heap st) !! q = Some x →
  sym_sect y = sym_sect x → sym_typ y = sym_typ x →
  (sym_exported x = true → sym_exported y = true) →
  provisional name p (set_as_heap (on_sym (λ l, <[q := y]> l) (as_heap st)) st).
Proof.
  intros HI Hx Hs Ht He. destruct (decide (q = p)) as [->|Hq];
    [|by apply provisional_sym_other].
  destruct HI as (? & ? & y' & Hy & ? & ? & ?). repeat split; try done.
  exists y. simpl. rewrite (lookup_insert_same _ _ _ _ Hx).
  assert (x = y') as -> by congruence. split; [done|]. rewrite Hs, Ht. auto.
Qed.

Lemma provisional_prog st g :
  provisional name p st → p_syms g !! name = Some p → p ∈ p_usyms g →
  provisional name p (set_as_prog g st).
Proof. intros (? & ? & ?) ? ?. by repeat split. Qed.

Lemma provisional_sect st s : provisional name p st → provisional name p (set_as_sect s st).
Proof. by intros (? & ? & ?). Qed.

Lemma provisional_lt st : provisional name p st → (p < length (h_sym (as_heap st)))%nat.
Proof. intros (_ & _ & y & Hy & _). by eapply lookup_lt_Some. Qed.

Lemma provisional_typ st y :
  provisional name p st → h_sym (as_heap st) !! p = Some y → sym_typ y = sUND.
Proof. intros (_ & _ & y' & Hy & _ & Ht & _) H. congruence. Qed.
End Provisional.

Section Keeps.
Variables (name : string) (p : ptr).
Local Abbreviation I := (provisional name p).

Lemma provisional_set_syms st name' q :
  I st → name' ≠ name →
  I (set_as_prog (set_p_syms (<[name' := q]> (p_syms (as_prog st))) (as_prog st)) st).
Proof.
  intros (? & ? & ?) Hn. apply provisional_prog; [done| |done].
  simpl. by rewrite lookup_insert_ne.
Qed.

Lemma provisional_set_osyms st v :
  I st → I (set_as_prog (set_p_osyms v (as_prog st)) st).
Proof. intros (? & ? & ?). by apply provisional_prog. Qed.

Lemma provisional_set_usyms st q :
  I st → I (set_as_prog (set_p_usyms (p_usyms (as_prog st) ++ [q]) (as_prog st)) st).
Proof.
  intros (? & ? & ?). apply provisional_prog; [done|done|].
  simpl. apply elem_of_app. by left.
Qed.

Lemma provisional_set_relocs st v :
  I st → I (set_as_prog (set_p_relocs v (as_prog st)) st).
Proof. intros (? & ? & ?). by apply provisional_prog. Qed.

Lemma provisional_set_sects st v :
  I st → I (set_as_prog (set_p_sects v (as_prog st)) st).
Proof. intros (? & ? & ?). by apply provisional_prog. Qed.

(** [I] again, for the state the last step made. *)
Ltac again HI :=
  simpl;
  first
    [ exact HI
    | apply provisional_heap_other; [exact HI | reflexivity]
    | apply provisional_sym_snoc; exact HI
    | eapply provisional_sym_same;
        [exact HI | eassumption | reflexivity | reflexivity | simpl; auto]
    | apply provisional_sym_other; [exact HI | congruence || lia]
    | apply provisional_set_osyms; exact HI
    | apply provisional_set_usyms; exact HI
    | apply provisional_set_relocs; exact HI
    | apply provisional_set_sects; exact HI
    | apply provisional_set_syms; [exact HI | congruence]
    | apply provisional_sect; exact HI ].

(** After a step that made a new state: [I] holds of it, and the
    proof goes on from any state with [I]. *)
Ltac forget HI :=
  lazymatch goal with
  | |- wp _ _ _ ?s =>
      let H := fresh "HI" in
      assert (H : I s) by again HI;
      clear HI; revert H; generalize s; intros ? HI
  end.

Ltac settle HI :=
  cbv beta;
  lazymatch goal with
  | |- wp _ _ _ ?s => first [is_var s | forget HI]
  | |- provisional _ _ _ => again HI
  | |- True => exact Logic.I
  | |- _ => idtac
  end.

(** One step of a computation. *)
Ltac wp_step HI :=
  lazymatch goal with
  | |- wp (mret _) _ _ _ => apply wp_ret
  | |- wp (mbind _ _) _ _ _ => apply wp_bind
  | |- wp (gets _) _ _ _ => apply wp_gets
  | |- wp (errorf _ _) _ _ _ => apply wp_errorf
  | |- wp crash _ _ _ => apply wp_crash
  | |- wp (new _ _) _ _ _ => apply wp_new
  | |- wp (load _ _) _ _ _ =>
      let q := fresh "q" in let x := fresh "x" in
      let Hq := fresh "Hq" in let Hx := fresh "Hx" in
      apply wp_load; intros q x Hq Hx; simpl in Hx;
      try (injection Hq as Hq; subst q)
  | |- wp (update _ _ _) _ _ _ =>
      let q := fresh "q" in let x := fresh "x" in
      let Hq := fresh "Hq" in let Hx := fresh "Hx" in
      apply wp_update; intros q x Hq Hx; simpl in Hx;
      try (injection Hq as Hq; subst q)
  | |- wp (modify_prog _) _ _ _ => apply wp_modify_prog
  | |- wp (modify _) _ _ _ => apply wp_modify
  | |- wp (if ?b then _ else _) _ _ _ => destruct b eqn:?
  | |- wp (match ?x with _ => _ end) _ _ _ => destruct x eqn:?
  end;
  settle HI.

Ltac wp_run HI := repeat wp_step HI.

Lemma gsym_keeps (name' : string) (s : option ptr) : keeps I (gsym name' s).
Proof.
  intros st HI. unfold gsym. do 2 wp_step HI.
  destruct (p_syms (as_prog st) !! name') as [p'|] eqn:Hn; [by wp_step HI|].
  assert (Hne : name' ≠ name) by (destruct HI as (? & _); congruence).
  pose proof (provisional_lt _ _ _ HI) as Hlt.
  set (pn := length (h_sym (as_heap st))) in *.
  do 2 wp_step HI. fold pn. wp_run HI.
Qed.

Lemma fsym_keeps (typ : Z) (name' : string) : keeps I (fsym typ name').
Proof.
  intros st HI. unfold fsym. wp_step HI; [by wp_step HI|]. do 2 wp_step HI.
  destruct (p_syms (as_prog st) !! name') as [p'|] eqn:Hn; [by wp_step HI|].
  assert (Hne : name' ≠ name) by (destruct HI as (? & _); congruence).
  wp_run HI.
Qed.

(** A call to a computation that keeps [I], inside a larger one. *)
Ltac wp_call HI lem :=
  eapply wp_keeps; [apply lem | exact HI | clear HI; intros ? ? HI].

Lemma addglobal_keeps (name' : string) : keeps I (addglobal name').
Proof.
  intros st HI. unfold addglobal. do 2 wp_step HI. wp_call HI gsym_keeps. wp_run HI.
Qed.

(** A symbol whose type is not undefined is not [p]. *)
Lemma provisional_other_typ st q y :
  I st → h_sym (as_heap st) !! q = Some y → sym_typ y ≠ sUND → q ≠ p.
Proof. intros HI Hy Ht ->. by rewrite (provisional_typ _ _ _ _ HI Hy) in Ht. Qed.

Lemma addbss_keeps (name' : string) (size : Z) (allocated : bool) :
  keeps I (addbss name' size allocated).
Proof.
  intros st HI. unfold addbss. do 2 wp_step HI. wp_call HI gsym_keeps.
  do 3 wp_step HI; [|wp_run HI].
  apply bool_decide_eq_true in Heqb.
  match goal with
  | Hx : h_sym _ !! ?q = Some _ |- _ =>
      assert (q ≠ p)
        by (eapply provisional_other_typ; [exact HI|exact Hx|rewrite Heqb; discriminate])
  end.
  wp_run HI.
Qed.

Lemma addlabel_keeps (name' : string) (off pc : Z) : keeps I (addlabel name' off pc).
Proof.
  intros st HI. unfold addlabel. do 2 wp_step HI. wp_call HI gsym_keeps.
  do 3 wp_step HI; [wp_run HI|]. wp_step HI; [|wp_run HI].
  apply bool_decide_eq_true in Heqb0.
  match goal with
  | Hx : h_sym _ !! ?q = Some _ |- _ =>
      assert (q ≠ p)
        by (eapply provisional_other_typ; [exact HI|exact Hx|rewrite Heqb0; discriminate])
  end.
  wp_run HI.
Qed.

Lemma code_loop_keeps (v : list value) (c : list byte) : keeps I (code_loop c v).
Proof.
  revert c. induction v as [|x v IH]; intros c st HI; [by apply wp_ret|].
  destruct x; cbn [code_loop]; wp_run HI; by apply IH.
Qed.

Lemma emit_keeps (o : op) (ad : addr4) (v : list value) : keeps I (emit o ad v).
Proof.
  intros st HI. unfold emit, code. wp_call HI code_loop_keeps. wp_run HI.
Qed.

Lemma addrel_keeps (o : op) (ad : addr4) : keeps I (addrel o ad).
Proof. intros st HI. unfold addrel. wp_run HI. Qed.

Lemma find_sect_keeps (name' : string) (l : list ptr) : keeps I (find_sect name' l).
Proof.
  induction l as [|s l IH]; intros st HI; simpl; [by wp_step HI|].
  do 3 wp_step HI; [by wp_step HI|]. by apply IH.
Qed.

Lemma addsect_keeps (name' flags typ : string) : keeps I (addsect name' flags typ).
Proof.
  intros st HI. unfold addsect. wp_step HI.
  eapply (wp_mono _ (λ _, I)); [wp_run HI|]. clear st HI. intros _ st HI. cbv beta.
  wp_step HI. eapply (wp_mono _ (λ _, I)); [wp_run HI|]. clear st HI.
  intros xtyp st HI. cbv beta. do 2 wp_step HI.
  wp_call HI find_sect_keeps. wp_run HI.
Qed.

Lemma bytes_keeps (s : option ptr) (buf : list byte) : keeps I (bytes s buf).
Proof. intros st HI. unfold bytes. wp_run HI. Qed.

Lemma strz_keeps (s : option ptr) (str : string) : keeps I (strz s str).
Proof. intros st HI. unfold strz. wp_run HI. Qed.

Lemma alignpc_keeps (align : Z) (value : byte) : keeps I (alignpc align value).
Proof.
  intros st HI. unfold alignpc. wp_run HI. by apply bytes_keeps.
Qed.

Lemma exec_keeps (c : call) : keeps I (exec c).
Proof.
  destruct c; simpl.
  - apply emit_keeps.
  - intros st HI. wp_call HI gsym_keeps. by wp_step HI.
  - intros st HI. wp_call HI fsym_keeps. by wp_step HI.
  - apply addglobal_keeps.
  - apply addbss_keeps.
  - apply addlabel_keeps.
  - apply addrel_keeps.
  - apply addsect_keeps.
  - apply alignpc_keeps.
  - apply strz_keeps.
  - apply bytes_keeps.
Qed.

Lemma reaches_keeps (st st' : as_) : I st → reaches st st' → I st'.
Proof.
  intros HI H. induction H as [|c st st' st'' _ IH Hc]; [done|].
  specialize (IH HI). pose proof (exec_keeps c st' IH) as Hw. unfold wp in Hw.
  destruct Hc as [Hc|[e Hc]]; by rewrite Hc in Hw.
Qed.
End Keeps.

(** C10, as the code has it.  The symbol [fsym] makes for an unknown
    name has no owning section, the type undefined (not none) and is
    exported, and it is on the undefined-symbols list.  No later call
    of a method of this file changes any of that, whether the call
    returns or raises a diagnostic.  In particular the name can no
    longer be declared: in every state reached, [addlabel] and [addbss]
    of the name raise the duplicate-declaration diagnostic and leave
    the state as it is. *)
Theorem fsym_extern_stays (typ : Z) (name : string) (st : as_)
    (Hk : typ = aVAR ∨ typ = aPTR) (Hn : name ≠ "")
    (Hfresh : p_syms (as_prog st) !! name = None) :
  let p := length (h_sym (as_heap st)) in
  ∃ st1, fsym typ name st = Ret (Some p) st1
    ∧ provisional name p st1
    ∧ ∀ st2, reaches st1 st2 →
        p_syms (as_prog st2) !! name = Some p
        ∧ p ∈ p_usyms (as_prog st2)
        ∧ (∃ y, h_sym (as_heap st2) !! p = Some y
             ∧ sym_sect y = None ∧ sym_typ y = sUND ∧ sym_exported y = true)
        ∧ (∀ off pc, ∃ e, addlabel name off pc st2 = Raise e st2
                          ∧ DuplicateSymbolDeclaration name e)
        ∧ (∀ size allocated, ∃ e, addbss name size allocated st2 = Raise e st2
                                  ∧ DuplicateSymbolDeclaration name e).
Proof.
  intros p. eexists. split; [by apply fsym_fresh|].
  match goal with |- provisional _ _ ?s ∧ _ => assert (H1 : provisional name p s) end.
  { split; [|split].
    - simpl. apply lookup_insert_eq.
    - simpl. apply elem_of_app. right. apply elem_of_cons. by left.
    - eexists. split; [apply lookup_snoc|]. by repeat split. }
  split; [exact H1|]. intros st2 Hr.
  pose proof (reaches_keeps _ _ _ _ H1 Hr) as (Hm & Hu & y & Hy & Hs & Ht & He).
  split; [done|]. split; [done|]. split; [by exists y|]. split.
  - intros off pc. eapply addlabel_other_type; try done; rewrite Ht; discriminate.
  - intros size allocated. eapply addbss_typed; try done. rewrite Ht. discriminate.
Qed.

Lemma fsym_extern_stays_witness :
  let st0 := set_as_sect (Some 0%nat) (newas "amd64" "linux" "t.s") in
  ∃ st1, fsym aVAR "x" st0 = Ret (Some 0%nat) st1
    ∧ ∀ st2, leaves (CallAddglobal "x") st1 st2 →
        (∃ y, h_sym (as_heap st2) !! 0%nat = Some y ∧ sym_sect y = None ∧ sym_typ y = sUND)
        ∧ ∃ e, addlabel "x" 16 3 st2 = Raise e st2 ∧ DuplicateSymbolDeclaration "x" e.
Proof.
  intros st0.
  destruct (fsym_extern_stays aVAR "x" st0 (or_introl eq_refl) ltac:(discriminate) eq_refl)
    as (st1 & H1 & _ & Hall).
  exists st1. split; [exact H1|]. intros st2 Hc.
  destruct (Hall st2 (reaches_step _ _ _ _ (reaches_refl st1) Hc))
    as (_ & _ & (y & Hy & Hs & Ht & _) & Hl & _).
  split; [by exists y|]. apply Hl.
Defined.

(** C10 as it was stated fails: the symbol [fsym] makes is never
    untyped, and declaring its name afterwards does not succeed.  Right
    after [fsym aVAR "x"], the type of the symbol is undefined, and
    both [addlabel] and [addbss] of "x" raise a diagnostic. *)
Lemma declare_after_reference_fails :
  let st0 := set_as_sect (Some 0%nat) (newas "amd64" "linux" "t.s") in
  let st1 := after (fsym aVAR "x") st0 in
  fsym aVAR "x" st0 = Ret (Some 0%nat) st1
  ∧ (sym_typ <$> h_sym (as_heap st1) !! 0%nat) = Some sUND
  ∧ sUND ≠ sNONE
  ∧ (∃ e, addlabel "x" 16 3 st1 = Raise e st1)
  ∧ (∃ e, addbss "x" 4 true st1 = Raise e st1).
Proof.
  vm_compute. repeat split; try discriminate; eexists; reflexivity.
Qed.

(** * Further properties *)

(** ** [align2] *)

Lemma shl64_pow2 (k : nat) : (k < 62)%nat → shl64 (2 ^ Z.of_nat k) 1 = 2 ^ Z.of_nat (S k).
Proof.
  intros Hk. unfold shl64. rewrite Z.shiftl_mul_pow2 by lia.
  rewrite Nat2Z.inj_succ, Z.pow_succ_r by lia.
  assert (2 ^ Z.of_nat k ≤ 2 ^ 61) by (apply Z.pow_le_mono_r; lia).
  assert (0 < 2 ^ Z.of_nat k) by (apply Z.pow_pos_nonneg; lia).
  rewrite wrap64_id; lia.
Qed.

Lemma align2_loop_from (n k : nat) (x : Z) :
  (k + n = 62)%nat → x ≤ 2 ^ 62 → (k = 0%nat ∨ 2 ^ (Z.of_nat k - 1) < x) →
  ∃ j : nat, (k ≤ j ≤ 62)%nat
    ∧ (∀ fuel, (j - k ≤ fuel)%nat → align2_loop fuel (2 ^ Z.of_nat k) x = Some (2 ^ Z.of_nat j))
    ∧ x ≤ 2 ^ Z.of_nat j
    ∧ (j = 0%nat ∨ 2 ^ (Z.of_nat j - 1) < x).
Proof.
  revert k. induction n as [|n IH]; intros k Hk Hx Hlow.
  - exists k. assert (k = 62%nat) as -> by lia. split; [lia|].
    change (Z.of_nat 62) with 62 in *. split; [|split; [done|done]].
    intros fuel _. destruct fuel; simpl; by rewrite bool_decide_eq_false_2 by lia.
  - destruct (decide (2 ^ Z.of_nat k < x)) as [Hlt|Hge].
    + destruct (IH (S k)) as (j & Hj & Hrun & Hup & Hmin); [lia|done| |].
      { right. by replace (Z.of_nat (S k) - 1) with (Z.of_nat k) by lia. }
      exists j. split; [lia|]. split; [|done].
      intros fuel Hf. destruct fuel as [|fuel]; [lia|]. simpl.
      rewrite bool_decide_eq_true_2 by done. rewrite shl64_pow2 by lia.
      apply Hrun. lia.
    + exists k. split; [lia|]. split; [|split; [lia|done]].
      intros fuel _. destruct fuel; simpl; by rewrite bool_decide_eq_false_2 by lia.
Qed.

(** X1. For [x] up to 2^62 [align2] returns, after at most 62 rounds,
    the smallest power of two that is at least [x]: 1 for every [x]
    up to 1 (zero and negative values included). *)
Theorem align2_next_power (x : Z) (Hx : x ≤ 2 ^ 62) :
  ∃ j : nat, (j ≤ 62)%nat
    ∧ (∀ fuel, (j ≤ fuel)%nat → align2 fuel x = Some (2 ^ Z.of_nat j))
    ∧ x ≤ 2 ^ Z.of_nat j
    ∧ (j = 0%nat ∨ 2 ^ (Z.of_nat j - 1) < x).
Proof.
  destruct (align2_loop_from 62 0 x eq_refl Hx (or_introl eq_refl))
    as (j & Hj & Hrun & Hup & Hmin).
  exists j. split; [lia|]. split; [|done].
  intros fuel Hf. unfold align2. change 1 with (2 ^ Z.of_nat 0). apply Hrun. lia.
Qed.

Lemma align2_next_power_witness :
  align2 62 5 = Some 8 ∧ align2 62 8 = Some 8 ∧ align2 62 9 = Some 16
  ∧ ∃ j : nat, align2 62 1000 = Some (2 ^ Z.of_nat j) ∧ 1000 ≤ 2 ^ Z.of_nat j.
Proof.
  repeat split; try reflexivity.
  destruct (align2_next_power 1000 ltac:(lia)) as (j & Hj & Hrun & Hup & _).
  exists j. split; [by apply Hrun|done].
Defined.

Lemma align2_loop_zero (fuel : nat) (x : Z) : 0 < x → align2_loop fuel 0 x = None.
Proof.
  intros Hx. induction fuel as [|fuel IH]; simpl; rewrite bool_decide_eq_true_2 by done;
    [done|]. exact IH.
Qed.

Lemma align2_loop_high (n k : nat) (fuel : nat) (x : Z) :
  (k + n = 62)%nat → 2 ^ 62 < x → align2_loop fuel (2 ^ Z.of_nat k) x = None.
Proof.
  revert k fuel. induction n as [|n IH]; intros k fuel Hk Hx.
  - assert (k = 62%nat) as -> by lia. change (Z.of_nat 62) with 62.
    destruct fuel as [|fuel]; simpl; rewrite bool_decide_eq_true_2 by lia; [done|].
    replace (shl64 (2 ^ 62) 1) with (- 2 ^ 63) by reflexivity.
    destruct fuel as [|fuel]; simpl; rewrite bool_decide_eq_true_2 by lia; [done|].
    replace (shl64 (- 2 ^ 63) 1) with 0 by reflexivity.
    apply align2_loop_zero. lia.
  - assert (2 ^ Z.of_nat k ≤ 2 ^ 62) by (apply Z.pow_le_mono_r; lia).
    destruct fuel as [|fuel]; simpl; rewrite bool_decide_eq_true_2 by lia; [done|].
    rewrite shl64_pow2 by lia. apply IH; [lia|done].
Qed.

(** X2. For [x] above 2^62 the loop of [align2] never ends: [y]
    overflows to -2^63 and then stays 0, which is below [x] for ever. *)
Theorem align2_never_returns (x : Z) (Hx : 2 ^ 62 < x) :
  ∀ fuel, align2 fuel x = None.
Proof.
  intros fuel. unfold align2. change 1 with (2 ^ Z.of_nat 0).
  by apply (align2_loop_high 62 0).
Qed.

Lemma align2_never_returns_witness : align2 1000 (2 ^ 62 + 1) = None.
Proof. apply (align2_never_returns (2 ^ 62 + 1)). lia. Defined.

(** ** The bytes of [code] read back *)

Lemma byte_to_of_Z (z : Z) : byte_to_Z (byte_of_Z z) = z mod 256.
Proof.
  unfold byte_to_Z, byte_of_Z.
  change 255 with (Z.ones 8). rewrite Z.land_ones by lia. change (2 ^ 8) with 256.
  pose proof (Z.mod_pos_bound z 256 ltac:(lia)) as Hb.
  destruct (Byte.of_N (Z.to_N (z mod 256))) as [b|] eqn:Hof.
  - simpl. apply Byte.to_of_N in Hof. rewrite Hof. lia.
  - apply Byte.of_N_None_iff in Hof. lia.
Qed.

Lemma le_value_le_bytes (n : nat) (v : Z) :
  le_value (le_bytes n v) = v mod 2 ^ (8 * Z.of_nat n).
Proof.
  revert v. induction n as [|n IH]; intros v; simpl le_bytes; simpl le_value.
  - by rewrite Z.mod_1_r.
  - rewrite byte_to_of_Z, IH, Z.shiftr_div_pow2 by lia.
    replace (8 * Z.of_nat (S n)) with (8 + 8 * Z.of_nat n) by lia.
    rewrite Z.pow_add_r by lia. change (2 ^ 8) with 256.
    rewrite (Z.rem_mul_r v 256 (2 ^ (8 * Z.of_nat n))) by lia. lia.
Qed.

Lemma byte_to_Z_bound (b : byte) : 0 ≤ byte_to_Z b < 256.
Proof. unfold byte_to_Z. pose proof (Byte.to_N_bounded b). lia. Qed.

Lemma uint_value_put_uint (order : ByteOrder) (n : nat) (v : Z) :
  uint_value order (put_uint order n v) = v mod 2 ^ (8 * Z.of_nat n).
Proof.
  destruct order; simpl; rewrite ?reverse_involutive; apply le_value_le_bytes.
Qed.

Lemma uint_value_byte (order : ByteOrder) (b : byte) : uint_value order [b] = byte_to_Z b.
Proof. destruct order; simpl; lia. Qed.

(** X3. The bytes of [code] read back.  In the code that [code]
    returns for a payload of supported values, an integer value (a
    byte, an [int], a [uint16], a [uint32] or a [uint64]) stands as 1,
    1, 2, 4 or 8 bytes between the code of the values before it and
    the code of the values after it, and these bytes, read as an
    unsigned integer in the byte order of the program, give the value
    back modulo 2^(8*width); [code] leaves the state as it was. *)
Theorem code_integer_round_trip (v1 v2 : list value) (x : value) (w : nat) (n : Z)
    (st : as_)
    (H1 : Forall supported v1) (H2 : Forall supported v2)
    (Hx : payload_integer x = Some (w, n)) :
  ∃ c1 c c2,
    code (v1 ++ x :: v2) st = Ret (c1 ++ c ++ c2) st
    ∧ code v1 st = Ret c1 st ∧ code v2 st = Ret c2 st
    ∧ length c = w
    ∧ uint_value (p_endian (as_prog st)) c = n mod 2 ^ (8 * Z.of_nat w).
Proof.
  assert (Hs : supported x) by (by destruct x).
  exists (flat_map (encode (p_endian (as_prog st))) v1),
         (encode (p_endian (as_prog st)) x),
         (flat_map (encode (p_endian (as_prog st))) v2).
  unfold code. rewrite !code_loop_supported; [|done|done|].
  - split; [by rewrite flat_map_app|]. split; [done|]. split; [done|].
    destruct x; simpl in Hx; try done; injection Hx as <- <-; simpl encode.
    + split; [done|]. rewrite uint_value_byte.
      pose proof (byte_to_Z_bound b). by rewrite Z.mod_small.
    + split; [done|]. by rewrite uint_value_byte, byte_to_of_Z.
    + split; [apply length_put_uint|apply uint_value_put_uint].
    + split; [apply length_put_uint|apply uint_value_put_uint].
    + split; [apply length_put_uint|apply uint_value_put_uint].
  - apply Forall_app. split; [done|]. by apply Forall_cons.
Qed.

Lemma code_integer_round_trip_witness :
  let st0 := newas "amd64" "linux" "t.s" in
  ∃ c, code [VByte "001"%byte; VUint16 258; VNil; VInt 511] st0
       = Ret (["001"%byte] ++ c ++ ["255"%byte]) st0
    ∧ length c = 2%nat
    ∧ uint_value LittleEndian c = 258.
Proof.
  intros st0.
  destruct (code_integer_round_trip [VByte "001"%byte] [VNil; VInt 511] (VUint16 258)
              2 258 st0 ltac:(repeat constructor) ltac:(repeat constructor) eq_refl)
    as (c1 & c & c2 & Hrun & Hc1 & Hc2 & Hlen & Hval).
  injection Hc1 as <-. injection Hc2 as <-.
  exists c. split; [exact Hrun|]. split; [exact Hlen|exact Hval].
Defined.

(** ** [strz] and [addglobal] *)

Lemma length_bytes_of_string (s : string) :
  length (String.list_byte_of_string s) = String.length s.
Proof.
  unfold String.list_byte_of_string. rewrite List.length_map.
  induction s as [|a s IH]; simpl; [done|]. by rewrite IH.
Qed.

Lemma strz_run (q : ptr) (S : section) (str : string) (st : as_) :
  h_sect (as_heap st) !! q = Some S →
  strz (Some q) str st = Ret tt
    (set_as_heap
       (on_sect
          (λ l, <[q := set_s_inst (s_inst S ++ [length (h_inst (as_heap st))])
                   (set_s_size
                      (add64 (s_size S) (add64 (Z.of_nat (String.length str)) 1))
                      (set_s_strings
                         (s_strings S ++
                            [{| sp_off := s_size S;
                                sp_size := wrap64 (Z.of_nat (String.length str) + 1);
                                sp_pc := s_pc S |}]) S))]> l)
          (on_inst
             (λ l, l ++ [{| i_op := opSTRZ; i_addr := addr4_0;
                            i_code := String.list_byte_of_string str ++ ["000"%byte] |}])
             (as_heap st))) st).
Proof.
  intros HS. open_state st. unfold strz. unfold_M. simpl. cell HS. reflexivity.
Qed.

(** X4. With a valid section and a string shorter than 2^62 bytes,
    [strz] appends exactly one [opSTRZ] instruction whose code is the
    bytes of the string followed by one NUL, and one span that covers
    exactly that code: the span starts at the byte size the section had,
    its size is the length of the code, it records the position
    counter, and the new byte size of the section is the end of the
    span. *)
Theorem strz_span_covers_code (q : ptr) (S : section) (str : string) (st : as_)
    (HS : h_sect (as_heap st) !! q = Some S)
    (Hlen : Z.of_nat (String.length str) < 2 ^ 62) :
  let c := String.list_byte_of_string str ++ ["000"%byte] in
  let sp := {| sp_off := s_size S; sp_size := len c; sp_pc := s_pc S |} in
  ∃ st' S', strz (Some q) str st = Ret tt st'
    ∧ h_inst (as_heap st') =
        h_inst (as_heap st) ++ [{| i_op := opSTRZ; i_addr := addr4_0; i_code := c |}]
    ∧ h_sect (as_heap st') = <[q := S']> (h_sect (as_heap st))
    ∧ s_strings S' = s_strings S ++ [sp]
    ∧ s_inst S' = s_inst S ++ [length (h_inst (as_heap st))]
    ∧ s_size S' = add64 (sp_off sp) (sp_size sp)
    ∧ len c = Z.of_nat (String.length str) + 1
    ∧ s_pc S' = s_pc S
    ∧ as_prog st' = as_prog st.
Proof.
  intros c sp.
  assert (Hc : len c = Z.of_nat (String.length str) + 1).
  { unfold len, c. rewrite length_app, length_bytes_of_string. simpl. lia. }
  do 2 eexists. split; [by apply strz_run|]. simpl.
  repeat split; try done.
  - unfold sp. rewrite Hc. by rewrite wrap64_id by lia.
  - unfold sp. simpl. rewrite Hc. unfold add64 at 2. by rewrite wrap64_id by lia.
Qed.

Lemma strz_span_covers_code_witness :
  let st0 := newas "amd64" "linux" "t.s" in
  ∃ st', strz (Some 1%nat) "hi" st0 = Ret tt st'
    ∧ (i_code <$> h_inst (as_heap st') !! 0%nat) = Some ["h"; "i"; "000"]%byte
    ∧ (s_strings <$> h_sect (as_heap st') !! 1%nat)
      = Some [{| sp_off := 0; sp_size := 3; sp_pc := 0 |}]
    ∧ (s_size <$> h_sect (as_heap st') !! 1%nat) = Some 3.
Proof.
  intros st0.
  destruct (strz_span_covers_code 1%nat (newsection ".data" "wa" stPROGBITS) "hi" st0
              eq_refl ltac:(by vm_compute))
    as (st' & S' & H1 & Hi & Hs & Hsp & _ & Hsz & _).
  exists st'. split; [exact H1|]. rewrite Hi, Hs. simpl. rewrite Hsp, Hsz.
  repeat split.
Defined.

Lemma addglobal_known (name : string) (st : as_) (p : ptr) (y : sym) :
  p_syms (as_prog st) !! name = Some p → h_sym (as_heap st) !! p = Some y →
  addglobal name st = Ret tt
    (set_as_heap (on_sym (λ l, <[p := set_sym_exported true y]> l) (as_heap st)) st).
Proof.
  intros Hp Hy. unfold addglobal. unfold_M. simpl.
  rewrite (gsym_known _ _ _ _ Hp). simpl. by rewrite Hy.
Qed.

Lemma addglobal_fresh (name : string) (st : as_) (q : ptr) (S : section) :
  p_syms (as_prog st) !! name = None →
  as_sect st = Some q → h_sect (as_heap st) !! q = Some S →
  let p := length (h_sym (as_heap st)) in
  addglobal name st = Ret tt
    (set_as_prog
       (set_p_osyms (p_osyms (as_prog st) ++ [p])
          (set_p_syms (<[name := p]> (p_syms (as_prog st))) (as_prog st)))
       (set_as_heap
          (on_sym (λ l, l ++ [set_sym_exported true (set_sym_allocated true
                               (set_sym_name name (set_sym_sect (Some q) sym0)))])
             (on_sect (λ l, <[q := set_s_syms (s_syms S ++ [p]) S]> l) (as_heap st)))
          st)).
Proof.
  intros Hn Hq HS p. unfold addglobal.
  unfold mbind at 1, M_bind at 1, gets at 1. rewrite Hq.
  unfold mbind at 1, M_bind at 1. rewrite (gsym_fresh _ _ _ _ Hn HS).
  subst p. open_state st. subst. unfold_M. norm. run. reflexivity.
Qed.

(** X5. [addglobal] sets the exported flag of the symbol of the name
    and changes nothing else about it: a known symbol keeps its
    section, type, size, offset, position and allocated flag, and when
    it is exported already the whole state stays as it was; an unknown
    name makes one untyped, exported symbol in the current section.
    Either way a second [addglobal] of the name changes nothing. *)
Theorem addglobal_exports (name : string) (st : as_) :
  (∀ p y, p_syms (as_prog st) !! name = Some p → h_sym (as_heap st) !! p = Some y →
     ∃ st', addglobal name st = Ret tt st'
       ∧ h_sym (as_heap st') = <[p := set_sym_exported true y]> (h_sym (as_heap st))
       ∧ h_sect (as_heap st') = h_sect (as_heap st)
       ∧ as_prog st' = as_prog st
       ∧ (sym_exported y = true → st' = st)
       ∧ addglobal name st' = Ret tt st')
  ∧ (p_syms (as_prog st) !! name = None →
     ∀ q S, as_sect st = Some q → h_sect (as_heap st) !! q = Some S →
     let p := length (h_sym (as_heap st)) in
     ∃ st', addglobal name st = Ret tt st'
       ∧ h_sym (as_heap st') =
           h_sym (as_heap st) ++
             [{| sym_sect := Some q; sym_typ := sNONE; sym_name := name; sym_size := 0;
                 sym_off := 0; sym_pc := 0; sym_allocated := true;
                 sym_exported := true |}]
       ∧ h_sect (as_heap st') =
           <[q := set_s_syms (s_syms S ++ [p]) S]> (h_sect (as_heap st))
       ∧ p_syms (as_prog st') = <[name := p]> (p_syms (as_prog st))
       ∧ p_osyms (as_prog st') = p_osyms (as_prog st) ++ [p]
       ∧ addglobal name st' = Ret tt st').
Proof.
  split.
  - intros p y Hp Hy. eexists. split; [by eapply addglobal_known|].
    assert (Hidem : ∀ z, sym_exported z = true → set_sym_exported true z = z)
      by (intros [] ?; simpl in *; by subst).
    repeat split.
    + intros He. rewrite Hidem by done. open_state st. norm.
      by rewrite (list_insert_id _ _ _ Hy).
    + erewrite addglobal_known; [|exact Hp|simpl; by eapply lookup_insert_same].
      open_state st. norm. rewrite list_insert_insert_eq. by rewrite Hidem.
  - intros Hn q S Hq HS p. eexists. split; [by eapply addglobal_fresh|].
    repeat split.
    erewrite addglobal_known; [|simpl; apply lookup_insert_eq|simpl; apply lookup_snoc].
    open_state st. norm. by rewrite insert_snoc.
Qed.

Lemma addglobal_exports_witness :
  let st0 := set_as_sect (Some 0%nat) (newas "amd64" "linux" "t.s") in
  let st1 := after (addlabel "main" 0 0) st0 in
  (∃ st', addglobal "main" st1 = Ret tt st'
     ∧ (sym_exported <$> h_sym (as_heap st') !! 0%nat) = Some true
     ∧ (sym_typ <$> h_sym (as_heap st') !! 0%nat) = Some sLABEL
     ∧ addglobal "main" st' = Ret tt st')
  ∧ (∃ st', addglobal "other" st1 = Ret tt st'
     ∧ p_osyms (as_prog st') = [0%nat; 1%nat]).
Proof.
  intros st0 st1. split.
  - destruct (proj1 (addglobal_exports "main" st1) 0%nat
                {| sym_sect := Some 0%nat; sym_typ := sLABEL; sym_name := "main";
                   sym_size := 0; sym_off := 0; sym_pc := 0; sym_allocated := true;
                   sym_exported := false |} eq_refl eq_refl)
      as (st' & H1 & Hy & _ & _ & _ & H2).
    exists st'. split; [exact H1|]. rewrite Hy. by repeat split.
  - destruct (proj2 (addglobal_exports "other" st1) eq_refl 0%nat
                (set_s_labels [0%nat] (set_s_syms [0%nat]
                   (newsection ".text" "ax" stPROGBITS))) eq_refl eq_refl)
      as (st' & H1 & _ & _ & _ & Ho & _).
    exists st'. split; [exact H1|]. by rewrite Ho.
Defined.

(** ** Diagnostics leave the state as it was *)

Lemma wpx_bind {A B} (m : M A) (k : A → M B) Q E st :
  wpx m (λ a st', wpx (k a) Q E st') E st → wpx (m ≫= k) Q E st.
Proof. unfold wpx, mbind, M_bind. by destruct (m st). Qed.

Lemma wpx_mono {A} (m : M A) (Q Q' : A → as_ → Prop) (E E' : error → as_ → Prop) st :
  wpx m Q E st → (∀ a st', Q a st' → Q' a st') → (∀ e st', E e st' → E' e st') →
  wpx m Q' E' st.
Proof. unfold wpx. destruct (m st); auto. Qed.

Lemma errorf_from {A} (format : string) (args : list fmtarg) (st : as_) :
  ∃ e, @errorf A format args st = Raise e st ∧ from_errorf st e.
Proof.
  unfold from_errorf, errorf, errf.
  do 2 case_bool_decide; eexists; (split; [reflexivity|]); exists format, args;
    unfold errorf, errf.
  all: repeat (rewrite bool_decide_eq_true_2 by done);
       repeat (rewrite bool_decide_eq_false_2 by done); reflexivity.
Qed.

Lemma quiet_ret {A} (a : A) : quiet (mret a).
Proof. by intros st. Qed.
Lemma quiet_gets {A} (f : as_ → A) : quiet (gets f).
Proof. by intros st. Qed.
Lemma quiet_modify (f : as_ → as_) : quiet (modify f).
Proof. by intros st. Qed.
Lemma quiet_modify_prog (f : prog → prog) : quiet (modify_prog f).
Proof. by intros st. Qed.
Lemma quiet_crash {A} : quiet (@crash A).
Proof. by intros st. Qed.
Lemma quiet_new {A} (r : region A) (x : A) : quiet (new r x).
Proof. by intros st. Qed.
Lemma quiet_load {A} (r : region A) (p : option ptr) : quiet (load r p).
Proof. intros st. unfold wpx, load. by repeat case_match. Qed.
Lemma quiet_update {A} (r : region A) (p : option ptr) (f : A → A) : quiet (update r p f).
Proof. intros st. unfold wpx, update. by repeat case_match. Qed.
Lemma quiet_bind {A B} (m : M A) (k : A → M B) :
  quiet m → (∀ a, quiet (k a)) → quiet (m ≫= k).
Proof.
  intros Hm Hk st. apply wpx_bind. eapply wpx_mono; [apply Hm| |done].
  intros a st' _. apply Hk.
Qed.

Lemma still_ret {A} (a : A) : still (mret a).
Proof. by intros st. Qed.
Lemma still_gets {A} (f : as_ → A) : still (gets f).
Proof. by intros st. Qed.
Lemma still_load {A} (r : region A) (p : option ptr) : still (load r p).
Proof.
  intros st. unfold wpx, load. destruct p as [q|]; [|done].
  by destruct (cells r (as_heap st) !! q).
Qed.
Lemma still_errorf {A} (format : string) (args : list fmtarg) : still (@errorf A format args).
Proof.
  intros st. unfold wpx. by destruct (@errorf_from A format args st) as (e & -> & He).
Qed.
Lemma still_bind {A B} (m : M A) (k : A → M B) :
  still m → (∀ a, still (k a)) → still (m ≫= k).
Proof.
  intros Hm Hk st. apply wpx_bind. eapply wpx_mono; [apply Hm| |done].
  intros a st' ->. apply Hk.
Qed.

Lemma quiet_wpx {A} (m : M A) (E : error → as_ → Prop) st :
  quiet m → wpx m (λ _ _, True) E st.
Proof. intros H. eapply wpx_mono; [apply H|done|done]. Qed.

Lemma quiet_atomic {A} (m : M A) : quiet m → atomic m.
Proof. intros H st. eapply wpx_mono; [apply H|done|done]. Qed.
Lemma still_atomic {A} (m : M A) : still m → atomic m.
Proof. intros H st. eapply wpx_mono; [apply H|done|done]. Qed.
Lemma atomic_bind {A B} (m : M A) (k : A → M B) :
  still m → (∀ a, atomic (k a)) → atomic (m ≫= k).
Proof.
  intros Hm Hk st. apply wpx_bind. eapply wpx_mono; [apply Hm| |done].
  intros a st' ->. apply Hk.
Qed.

Create HintDb quiet.
#[local] Hint Resolve quiet_ret quiet_gets quiet_modify quiet_modify_prog quiet_crash
  quiet_new quiet_load quiet_update : quiet.

(** Decomposes a computation built from the primitives. *)
Ltac quiet_tac :=
  repeat first
    [ apply quiet_bind; [|intros ?]
    | progress eauto with quiet
    | match goal with
      | |- quiet (if ?b then _ else _) => destruct b
      | |- quiet (match ?x with _ => _ end) => destruct x
      end ].

Lemma gsym_quiet (name : string) (s : option ptr) : quiet (gsym name s).
Proof. unfold gsym. quiet_tac. Qed.
#[local] Hint Resolve gsym_quiet : quiet.

Lemma fsym_quiet (typ : Z) (name : string) : quiet (fsym typ name).
Proof. unfold fsym. quiet_tac. Qed.

Lemma addglobal_quiet (name : string) : quiet (addglobal name).
Proof. unfold addglobal. quiet_tac. Qed.

Lemma addrel_quiet (o : op) (ad : addr4) : quiet (addrel o ad).
Proof. unfold addrel. quiet_tac. Qed.

Lemma bytes_quiet (s : option ptr) (buf : list byte) : quiet (bytes s buf).
Proof. unfold bytes. quiet_tac. Qed.
#[local] Hint Resolve bytes_quiet : quiet.

Lemma strz_quiet (s : option ptr) (str : string) : quiet (strz s str).
Proof. unfold strz. quiet_tac. Qed.

Lemma alignpc_quiet (align : Z) (value : byte) : quiet (alignpc align value).
Proof. unfold alignpc. quiet_tac. Qed.

Lemma code_loop_still (v : list value) (c : list byte) : still (code_loop c v).
Proof.
  revert c. induction v as [|x v IH]; intros c; [apply still_ret|].
  destruct x; cbn [code_loop]; try apply IH.
  - apply still_bind; [apply still_gets|intros ?; apply IH].
  - apply still_bind; [apply still_gets|intros ?; apply IH].
  - apply still_bind; [apply still_gets|intros ?; apply IH].
  - apply still_bind; [apply still_errorf|intros ?; apply IH].
Qed.

Lemma emit_atomic (o : op) (ad : addr4) (v : list value) : atomic (emit o ad v).
Proof.
  unfold emit, code. apply atomic_bind; [apply code_loop_still|].
  intros c. apply quiet_atomic. quiet_tac.
Qed.

Lemma find_sect_still (name : string) (l : list ptr) : still (find_sect name l).
Proof.
  induction l as [|s l IH]; cbn [find_sect]; [apply still_ret|].
  apply still_bind; [apply still_load|]. intros S.
  case_bool_decide; [apply still_ret|apply IH].
Qed.

Lemma addsect_atomic (name flags typ : string) : atomic (addsect name flags typ).
Proof.
  unfold addsect. apply atomic_bind.
  { repeat case_bool_decide; (apply still_errorf || apply still_ret). }
  intros _. apply atomic_bind.
  { repeat case_bool_decide; (apply still_errorf || apply still_ret). }
  intros xtyp. apply atomic_bind; [apply still_gets|]. intros l.
  apply atomic_bind; [apply find_sect_still|]. intros found.
  apply quiet_atomic. quiet_tac.
Qed.

(** [gsym] either leaves the state as it was, or returns a symbol that
    is untyped. *)
Lemma gsym_same_or_untyped (name : string) (s : option ptr) (st : as_) :
  wpx (gsym name s)
    (λ p st1, st1 = st
       ∨ ∃ y, h_sym (as_heap st1) !! p = Some y ∧ sym_typ y = sNONE)
    (λ _ _, False) st.
Proof.
  unfold wpx. destruct (p_syms (as_prog st) !! name) as [p|] eqn:Hn.
  - rewrite (gsym_known _ _ _ _ Hn). by left.
  - destruct s as [q|]; [destruct (h_sect (as_heap st) !! q) as [S|] eqn:Hq|].
    + rewrite (gsym_fresh _ _ _ _ Hn Hq). right. eexists. split; [apply lookup_snoc|done].
    + unfold gsym. unfold_M. rewrite Hn. simpl. by rewrite Hq.
    + unfold gsym. unfold_M. by rewrite Hn.
Qed.

Lemma addbss_atomic (name : string) (size : Z) (allocated : bool) :
  atomic (addbss name size allocated).
Proof.
  intros st. unfold addbss. apply wpx_bind. unfold gets at 1, wpx at 1.
  apply wpx_bind. eapply wpx_mono; [apply gsym_same_or_untyped| |done].
  intros p st1 Hcase. apply wpx_bind. unfold wpx at 1, load.
  destruct (cells symbols (as_heap st1) !! p) as [y|] eqn:Hy; [|done].
  case_bool_decide as Ht.
  - apply quiet_wpx. quiet_tac.
  - destruct Hcase as [->|(y' & Hy' & Ht')].
    + exact (still_atomic _ (still_errorf _ _) st).
    + simpl in Hy. congruence.
Qed.

Lemma addlabel_atomic (name : string) (off pc : Z) : atomic (addlabel name off pc).
Proof.
  intros st. unfold addlabel. apply wpx_bind. unfold gets at 1, wpx at 1.
  apply wpx_bind. eapply wpx_mono; [apply gsym_same_or_untyped| |done].
  intros p st1 Hcase. apply wpx_bind. unfold wpx at 1, load.
  destruct (cells symbols (as_heap st1) !! p) as [y|] eqn:Hy; [|done].
  case_bool_decide as Hl; [|case_bool_decide as Ht].
  - case_bool_decide as Ho; [|done].
    destruct Hcase as [->|(y' & Hy' & Ht')].
    + exact (still_atomic _ (still_errorf _ _) st).
    + simpl in Hy. assert (y' = y) as -> by congruence. by rewrite Hl in Ht'.
  - apply quiet_wpx. quiet_tac.
  - destruct Hcase as [->|(y' & Hy' & Ht')].
    + exact (still_atomic _ (still_errorf _ _) st).
    + simpl in Hy. congruence.
Qed.

Lemma exec_atomic (c : call) : atomic (exec c).
Proof.
  destruct c; simpl.
  - apply emit_atomic.
  - apply quiet_atomic. quiet_tac.
  - apply quiet_atomic. apply quiet_bind; [apply fsym_quiet|]. intros ?. quiet_tac.
  - apply quiet_atomic, addglobal_quiet.
  - apply addbss_atomic.
  - apply addlabel_atomic.
  - apply quiet_atomic, addrel_quiet.
  - apply addsect_atomic.
  - apply quiet_atomic, alignpc_quiet.
  - apply quiet_atomic, strz_quiet.
  - apply quiet_atomic, bytes_quiet.
Qed.

(** X6. Whenever a call raises a diagnostic, the state is exactly the
    one the call started from, and the error is one built by [errorf]
    there (so it carries the position of that state): no call changes
    the program and then fails. *)
Theorem diagnostics_change_nothing (c : call) (st st' : as_) (e : error)
    (H : exec c st = Raise e st') :
  st' = st ∧ ∃ format args, @errorf unit format args st = Raise e st.
Proof.
  pose proof (exec_atomic c st) as Hw. unfold wpx in Hw. by rewrite H in Hw.
Qed.

Lemma diagnostics_change_nothing_witness :
  let st0 := set_as_sect (Some 0%nat) (newas "amd64" "linux" "t.s") in
  let st1 := after (addbss "v" 4 true) st0 in
  ∃ e, exec (CallAddlabel "v" 0 0) st1 = Raise e st1
    ∧ ∃ format args, @errorf unit format args st1 = Raise e st1.
Proof.
  intros st0 st1. eexists. split; [reflexivity|].
  exact (proj2 (diagnostics_change_nothing (CallAddlabel "v" 0 0) st1 st1 _ eq_refl)).
Defined.

(** X7. Only [emit], [addbss], [addlabel] and [addsect] can raise a
    diagnostic: [gsym], [fsym], [addglobal], [addrel], [alignpc],
    [strz] and [bytes] either return or stop on a run-time panic. *)
Theorem only_four_raise (c : call) (st st' : as_) (e : error)
    (H : exec c st = Raise e st') :
  match c with
  | CallEmit _ _ _ | CallAddbss _ _ _ | CallAddlabel _ _ _ | CallAddsect _ _ _ => True
  | _ => False
  end.
Proof.
  assert (Hq : ∀ m : M unit, quiet m → m st = Raise e st' → False).
  { intros m Hm Hr. specialize (Hm st). unfold wpx in Hm. by rewrite Hr in Hm. }
  destruct c; simpl in *; try done; eapply Hq; try exact H.
  - quiet_tac.
  - apply quiet_bind; [apply fsym_quiet|]. intros ?. quiet_tac.
  - apply addglobal_quiet.
  - apply addrel_quiet.
  - apply alignpc_quiet.
  - apply strz_quiet.
  - apply bytes_quiet.
Qed.

Lemma only_four_raise_witness :
  let st0 := set_as_sect (Some 0%nat) (newas "amd64" "linux" "t.s") in
  ∃ e, exec (CallAddsect ".text" "ax" "progbits") st0 = Raise e st0.
Proof.
  intros st0. eexists. 
  assert (H := only_four_raise (CallAddsect ".text" "ax" "progbits") st0 st0 _ eq_refl).
  reflexivity.
Defined.

(** ** Stepping through a computation *)

(** One step of a computation built from the primitives. *)
Ltac xstep :=
  lazymatch goal with
  | |- wp (mret _) _ _ _ => apply wp_ret
  | |- wp (mbind _ _) _ _ _ => apply wp_bind
  | |- wp (gets _) _ _ _ => apply wp_gets
  | |- wp (errorf _ _) _ _ _ => apply wp_errorf
  | |- wp crash _ _ _ => apply wp_crash
  | |- wp (new _ _) _ _ _ => apply wp_new
  | |- wp (load _ _) _ _ _ =>
      let q := fresh "q" in let x := fresh "x" in
      let Hq := fresh "Hq" in let Hx := fresh "Hx" in
      apply wp_load; intros q x Hq Hx; try (injection Hq as Hq; subst q)
  | |- wp (update _ _ _) _ _ _ =>
      let q := fresh "q" in let x := fresh "x" in
      let Hq := fresh "Hq" in let Hx := fresh "Hx" in
      apply wp_update; intros q x Hq Hx; try (injection Hq as Hq; subst q)
  | |- wp (modify_prog _) _ _ _ => apply wp_modify_prog
  | |- wp (modify _) _ _ _ => apply wp_modify
  | |- wp (if ?b then _ else _) _ _ _ => destruct b eqn:?
  | |- wp (match ?x with _ => _ end) _ _ _ => destruct x eqn:?
  end;
  cbv beta.

(** ** Nothing is removed or rewritten *)

Lemma section_extends_refl (S : section) : section_extends S S.
Proof. by repeat split. Qed.

Lemma section_extends_trans (S1 S2 S3 : section) :
  section_extends S1 S2 → section_extends S2 S3 → section_extends S1 S3.
Proof.
  intros (?&?&?&?&?&?&?&?&?&?&?&?) (?&?&?&?&?&?&?&?&?&?&?&?).
  repeat split; try congruence; by etrans.
Qed.

Lemma extends_refl (st : as_) : extends st st.
Proof.
  repeat split; try done. intros q S HS. exists S. split; [done|apply section_extends_refl].
Qed.

Lemma extends_trans (st1 st2 st3 : as_) :
  extends st1 st2 → extends st2 st3 → extends st1 st3.
Proof.
  intros (?&?&?&H12&?&?&?&?&?&?&?&?&?&?&?&?) (?&?&?&H23&?&?&?&?&?&?&?&?&?&?&?&?).
  repeat split; try congruence; try (by etrans); try lia.
  intros q S HS. destruct (H12 q S HS) as (S2 & HS2 & He2).
  destruct (H23 q S2 HS2) as (S3 & HS3 & He3).
  exists S3. split; [done|]. by eapply section_extends_trans.
Qed.

(** What one primitive step makes of a state. *)
Ltac extends_same_sections :=
  let q := fresh in let S := fresh in let H := fresh in
  intros q S H; exists S; split; [exact H|apply section_extends_refl].

Lemma extends_new_inst st x :
  extends st (set_as_heap (on_cells insts (λ l, l ++ [x]) (as_heap st)) st).
Proof. repeat split; try done; try extends_same_sections. by apply prefix_app_r. Qed.

Lemma extends_new_reloc st x :
  extends st (set_as_heap (on_cells relocations (λ l, l ++ [x]) (as_heap st)) st).
Proof. repeat split; try done; try extends_same_sections. by apply prefix_app_r. Qed.

Lemma extends_new_sym st x :
  extends st (set_as_heap (on_cells symbols (λ l, l ++ [x]) (as_heap st)) st).
Proof.
  repeat split; try done; try extends_same_sections. simpl. rewrite length_app. lia.
Qed.

Lemma extends_new_sect st x :
  extends st (set_as_heap (on_cells sections (λ l, l ++ [x]) (as_heap st)) st).
Proof.
  repeat split; try done. intros q S HS. exists S. split; [|apply section_extends_refl].
  simpl. rewrite lookup_app_l; [done|]. by eapply lookup_lt_Some.
Qed.

Lemma extends_update_sym st q y :
  extends st (set_as_heap (on_cells symbols (λ l, <[q := y]> l) (as_heap st)) st).
Proof.
  repeat split; try done; try extends_same_sections. simpl. by rewrite length_insert.
Qed.

Lemma extends_update_sect st q x y :
  cells sections (as_heap st) !! q = Some x → section_extends x y →
  extends st (set_as_heap (on_cells sections (λ l, <[q := y]> l) (as_heap st)) st).
Proof.
  intros Hx Hxy. repeat split; try done. intros q' S HS. simpl in *.
  destruct (decide (q' = q)) as [->|Hne].
  - exists y. rewrite (lookup_insert_same _ _ _ _ Hx). split; [done|]. congruence.
  - exists S. rewrite list_lookup_insert_ne by done. split; [done|apply section_extends_refl].
Qed.

Lemma extends_prog st g :
  p_sects (as_prog st) `prefix_of` p_sects g →
  p_osyms (as_prog st) `prefix_of` p_osyms g →
  p_usyms (as_prog st) `prefix_of` p_usyms g →
  p_relocs (as_prog st) `prefix_of` p_relocs g →
  p_syms (as_prog st) ⊆ p_syms g →
  p_text g = p_text (as_prog st) → p_data g = p_data (as_prog st) →
  p_bss g = p_bss (as_prog st) → p_endian g = p_endian (as_prog st) →
  extends st (set_as_prog g st).
Proof. intros. repeat split; try done. extends_same_sections. Qed.

Lemma extends_set_sect st s : extends st (set_as_sect s st).
Proof. repeat split; try done. extends_same_sections. Qed.

(** [section_extends] for the field updates of the methods. *)
Ltac section_extends_tac :=
  repeat split; simpl; try reflexivity; try (by apply prefix_app_r).

Section Extends.
Variable st0 : as_.
Local Abbreviation I := (extends st0).

(** [I] for the state at hand, one layer at a time. *)
Ltac ext_again HI :=
  first
    [ exact HI
    | eapply extends_trans;
        [ | first
            [ apply extends_new_inst
            | apply extends_new_reloc
            | apply extends_new_sym
            | apply extends_new_sect
            | apply extends_update_sym
            | eapply extends_update_sect; [eassumption|section_extends_tac]
            | apply extends_set_sect
            | apply extends_prog; simpl; try reflexivity; try (by apply prefix_app_r);
                try (apply insert_subseteq; simpl; assumption) ] ];
        [ ext_again HI ] ].

Lemma gsym_extends (name : string) (s : option ptr) : keeps I (gsym name s).
Proof.
  intros st HI. unfold gsym. repeat xstep; ext_again HI.
Qed.

Lemma fsym_extends (typ : Z) (name : string) : keeps I (fsym typ name).
Proof.
  intros st HI. unfold fsym. repeat xstep; ext_again HI.
Qed.

(** A call to a computation that keeps [I], inside a larger one. *)
Ltac ext_call lem HI :=
  apply wp_bind; eapply wp_mono;
    [apply lem; ext_again HI | cbv beta; clear HI; intros ? ? HI].

Ltac ext_run HI := repeat xstep; ext_again HI.

Lemma addglobal_extends (name : string) : keeps I (addglobal name).
Proof.
  intros st HI. unfold addglobal. do 2 xstep. ext_call gsym_extends HI. ext_run HI.
Qed.

Lemma addbss_extends (name : string) (size : Z) (allocated : bool) :
  keeps I (addbss name size allocated).
Proof.
  intros st HI. unfold addbss. do 2 xstep. ext_call gsym_extends HI. ext_run HI.
Qed.

Lemma addlabel_extends (name : string) (off pc : Z) : keeps I (addlabel name off pc).
Proof.
  intros st HI. unfold addlabel. do 2 xstep. ext_call gsym_extends HI. ext_run HI.
Qed.

Lemma code_loop_extends (v : list value) (c : list byte) : keeps I (code_loop c v).
Proof.
  revert c. induction v as [|x v IH]; intros c st HI; [by apply wp_ret|].
  destruct x; cbn [code_loop]; repeat xstep; try (by apply IH); ext_again HI.
Qed.

Lemma emit_extends (o : op) (ad : addr4) (v : list value) : keeps I (emit o ad v).
Proof.
  intros st HI. unfold emit, code. ext_call code_loop_extends HI. ext_run HI.
Qed.

Lemma addrel_extends (o : op) (ad : addr4) : keeps I (addrel o ad).
Proof. intros st HI. unfold addrel. ext_run HI. Qed.

Lemma find_sect_extends (name : string) (l : list ptr) : keeps I (find_sect name l).
Proof.
  induction l as [|s l IH]; intros st HI; cbn [find_sect]; [by apply wp_ret|].
  repeat xstep; try (by apply IH); ext_again HI.
Qed.

Lemma addsect_extends (name flags typ : string) : keeps I (addsect name flags typ).
Proof.
  intros st HI. unfold addsect. xstep.
  eapply (wp_mono _ (λ _, I)); [repeat xstep; ext_again HI|].
  clear st HI. intros _ st HI. cbv beta. xstep.
  eapply (wp_mono _ (λ _, I)); [repeat xstep; ext_again HI|].
  clear st HI. intros xtyp st HI. cbv beta. do 2 xstep.
  ext_call find_sect_extends HI. ext_run HI.
Qed.

Lemma bytes_extends (s : option ptr) (buf : list byte) : keeps I (bytes s buf).
Proof. intros st HI. unfold bytes. ext_run HI. Qed.

Lemma strz_extends (s : option ptr) (str : string) : keeps I (strz s str).
Proof. intros st HI. unfold strz. ext_run HI. Qed.

Lemma alignpc_extends (align : Z) (value : byte) : keeps I (alignpc align value).
Proof.
  intros st HI. unfold alignpc. repeat xstep; try ext_again HI. by apply bytes_extends.
Qed.

Lemma exec_extends (c : call) : keeps I (exec c).
Proof.
  destruct c; simpl.
  - apply emit_extends.
  - intros st HI. ext_call gsym_extends HI. by xstep.
  - intros st HI. ext_call fsym_extends HI. by xstep.
  - apply addglobal_extends.
  - apply addbss_extends.
  - apply addlabel_extends.
  - apply addrel_extends.
  - apply addsect_extends.
  - apply alignpc_extends.
  - apply strz_extends.
  - apply bytes_extends.
Qed.
End Extends.

Lemma leaves_extends (c : call) (st st' : as_) : leaves c st st' → extends st st'.
Proof.
  intros Hc. pose proof (exec_extends st c st (extends_refl st)) as Hw. unfold wp in Hw.
  destruct Hc as [Hc|[e Hc]]; by rewrite Hc in Hw.
Qed.

Lemma reaches_extends_all (st st' : as_) : reaches st st' → extends st st'.
Proof.
  induction 1 as [|c st st' st'' _ IH Hc]; [apply extends_refl|].
  eapply extends_trans; [exact IH|]. by eapply leaves_extends.
Qed.

(** X8. No sequence of calls removes or rewrites anything.  In every
    state reached, each instruction record and each relocation record
    made so far is there unchanged, each section is there with its
    lists of instructions, symbols, labels, blocks, spans and
    relocations only extended at the end, and the program's section
    list, declaration-order list, undefined-symbols list and relocation
    list only extended at the end; every binding of the global map is
    kept. *)
Theorem calls_only_append (st st' : as_) (H : reaches st st') :
  h_inst (as_heap st) `prefix_of` h_inst (as_heap st')
  ∧ h_reloc (as_heap st) `prefix_of` h_reloc (as_heap st')
  ∧ (∀ q S, h_sect (as_heap st) !! q = Some S →
       ∃ S', h_sect (as_heap st') !! q = Some S'
         ∧ s_inst S `prefix_of` s_inst S' ∧ s_syms S `prefix_of` s_syms S'
         ∧ s_labels S `prefix_of` s_labels S' ∧ s_blocks S `prefix_of` s_blocks S'
         ∧ s_strings S `prefix_of` s_strings S' ∧ s_relocs S `prefix_of` s_relocs S')
  ∧ p_sects (as_prog st) `prefix_of` p_sects (as_prog st')
  ∧ p_osyms (as_prog st) `prefix_of` p_osyms (as_prog st')
  ∧ p_usyms (as_prog st) `prefix_of` p_usyms (as_prog st')
  ∧ p_relocs (as_prog st) `prefix_of` p_relocs (as_prog st')
  ∧ (∀ name p, p_syms (as_prog st) !! name = Some p →
       p_syms (as_prog st') !! name = Some p).
Proof.
  destruct (reaches_extends_all _ _ H) as (?&?&?&Hs&?&?&?&?&Hm&_).
  repeat split; try done.
  - intros q S HS. destruct (Hs q S HS) as (S' & HS' & (?&?&?&?&?&?&?&?&?&?&?&?)).
    exists S'. by repeat split.
  - intros name p Hp. by eapply lookup_weaken.
Qed.

(** X9. No call changes the position counter, the name, the flags, the
    type or the block alignment of a section, or the predefined
    sections, the byte order or the source position of the assembler:
    in particular the position counter is advanced by none of [emit],
    [strz], [bytes], [alignpc] and [addrel]. *)
Theorem calls_keep_position (st st' : as_) (H : reaches st st') :
  (∀ q S, h_sect (as_heap st) !! q = Some S →
     ∃ S', h_sect (as_heap st') !! q = Some S'
       ∧ s_pc S' = s_pc S ∧ s_name S' = s_name S ∧ s_flags S' = s_flags S
       ∧ s_typ S' = s_typ S ∧ s_blockalign S' = s_blockalign S)
  ∧ p_text (as_prog st') = p_text (as_prog st)
  ∧ p_data (as_prog st') = p_data (as_prog st)
  ∧ p_bss (as_prog st') = p_bss (as_prog st)
  ∧ p_endian (as_prog st') = p_endian (as_prog st)
  ∧ as_file st' = as_file st ∧ as_line st' = as_line st
  ∧ as_lineno st' = as_lineno st.
Proof.
  destruct (reaches_extends_all _ _ H) as (?&?&?&Hs&?&?&?&?&?&?&?&?&?&?&?&?).
  repeat split; try done.
  intros q S HS. destruct (Hs q S HS) as (S' & HS' & (?&?&?&?&?&?)).
  exists S'. by repeat split.
Qed.

Lemma calls_only_append_witness :
  let st0 := set_as_sect (Some 0%nat) (newas "amd64" "linux" "t.s") in
  let st1 := after (exec (CallEmit 7 addr4_0 [VByte "001"%byte])) st0 in
  let st2 := after (exec (CallAddrel 9 addr4_0)) st1 in
  h_inst (as_heap st1) `prefix_of` h_inst (as_heap st2)
  ∧ length (h_inst (as_heap st1)) = 1%nat ∧ length (h_inst (as_heap st2)) = 2%nat.
Proof.
  intros st0 st1 st2. split; [|by split].
  exact (proj1 (calls_only_append st1 st2
           (reaches_step (CallAddrel 9 addr4_0) st1 st1 st2
              (reaches_refl st1) (or_introl eq_refl)))).
Defined.

Lemma calls_keep_position_witness :
  let st0 := set_as_sect (Some 0%nat) (newas "amd64" "linux" "t.s") in
  let st1 := after (exec (CallEmit 7 addr4_0 [VByte "001"%byte; VByte "002"%byte])) st0 in
  let st2 := after (exec (CallStrz (Some 0%nat) "hi")) st1 in
  ∃ S', h_sect (as_heap st2) !! 0%nat = Some S' ∧ s_pc S' = 0 ∧ s_size S' = 5.
Proof.
  intros st0 st1 st2.
  destruct (proj1 (calls_keep_position st0 st2
              (reaches_step (CallStrz (Some 0%nat) "hi") st0 st1 st2
                 (reaches_step (CallEmit 7 addr4_0 [VByte "001"%byte; VByte "002"%byte])
                    st0 st0 st1 (reaches_refl st0) (or_introl eq_refl))
                 (or_introl eq_refl)))
              0%nat (newsection ".text" "ax" stPROGBITS) eq_refl)
    as (S' & HS' & Hpc & _).
  exists S'. split; [exact HS'|]. split; [exact Hpc|].
  vm_compute in HS'. by injection HS' as <-.
Defined.

(** ** Symbols keep what they were given *)

Lemma sym_kept_refl (y : sym) : sym_kept y y.
Proof. by repeat split. Qed.

Lemma sym_kept_trans (y1 y2 y3 : sym) : sym_kept y1 y2 → sym_kept y2 y3 → sym_kept y1 y3.
Proof.
  intros (Hs & Hn & He & Ht) (Hs' & Hn' & He' & Ht').
  split; [congruence|]. split; [congruence|]. split; [auto|].
  intros H. destruct (Ht H) as (H1 & H2 & H3 & H4 & H5).
  destruct Ht' as (H1' & H2' & H3' & H4' & H5'); [congruence|].
  repeat split; congruence.
Qed.

Lemma symbols_kept_refl (st : as_) : symbols_kept st st.
Proof. intros p y Hy. exists y. split; [done|apply sym_kept_refl]. Qed.

Lemma symbols_kept_trans (st1 st2 st3 : as_) :
  symbols_kept st1 st2 → symbols_kept st2 st3 → symbols_kept st1 st3.
Proof.
  intros H12 H23 p y Hy. destruct (H12 p y Hy) as (y2 & Hy2 & Hk2).
  destruct (H23 p y2 Hy2) as (y3 & Hy3 & Hk3). exists y3. split; [done|].
  by eapply sym_kept_trans.
Qed.

Section SymbolsKept.
Variable st0 : as_.
Local Abbreviation I := (symbols_kept st0).

Lemma kept_heap_other st h : I st → h_sym h = h_sym (as_heap st) → I (set_as_heap h st).
Proof. intros HI Hh p y Hy. simpl. rewrite Hh. by apply HI. Qed.

Lemma kept_new_sym st x :
  I st → I (set_as_heap (on_cells symbols (λ l, l ++ [x]) (as_heap st)) st).
Proof.
  intros HI p y Hy. destruct (HI p y Hy) as (y' & Hy' & Hk). exists y'. split; [|done].
  simpl. rewrite lookup_app_l; [done|]. by eapply lookup_lt_Some.
Qed.

(** An update that keeps the section and the name and does not clear
    the exported flag, of a symbol that was untyped, or not there, in
    [st0]. *)
Lemma kept_update_untyped st q x y :
  I st → cells symbols (as_heap st) !! q = Some x →
  (∀ y0, h_sym (as_heap st0) !! q = Some y0 → sym_typ y0 = sNONE) →
  sym_sect y = sym_sect x → sym_name y = sym_name x →
  (sym_exported x = true → sym_exported y = true) →
  I (set_as_heap (on_cells symbols (λ l, <[q := y]> l) (as_heap st)) st).
Proof.
  intros HI Hx Hun Hs Hn He p y0 Hy0. destruct (HI p y0 Hy0) as (y' & Hy' & Hk).
  simpl in *. destruct (decide (p = q)) as [->|Hne].
  - exists y. rewrite (lookup_insert_same _ _ _ _ Hx). split; [done|].
    assert (y' = x) as -> by congruence. destruct Hk as (Hs' & Hn' & He' & _).
    split; [congruence|]. split; [congruence|]. split; [auto|].
    intros Ht. by rewrite (Hun y0 Hy0) in Ht.
  - exists y'. by rewrite list_lookup_insert_ne.
Qed.

(** An update that changes the exported flag only, and does not clear it. *)
Lemma kept_update_exported st q x :
  I st → cells symbols (as_heap st) !! q = Some x →
  I (set_as_heap (on_cells symbols (λ l, <[q := set_sym_exported true x]> l)
       (as_heap st)) st).
Proof.
  intros HI Hx p y0 Hy0. destruct (HI p y0 Hy0) as (y' & Hy' & Hk).
  simpl in *. destruct (decide (p = q)) as [->|Hne].
  - eexists. rewrite (lookup_insert_same _ _ _ _ Hx). split; [done|].
    assert (y' = x) as -> by congruence. destruct Hk as (Hs' & Hn' & He' & Ht').
    split; [done|]. split; [done|]. split; [done|]. exact Ht'.
  - exists y'. by rewrite list_lookup_insert_ne.
Qed.

(** An update of a symbol that was not there in [st0]. *)
Lemma kept_update_new st q y :
  I st → h_sym (as_heap st0) !! q = None →
  I (set_as_heap (on_cells symbols (λ l, <[q := y]> l) (as_heap st)) st).
Proof.
  intros HI Hq p y0 Hy0. destruct (HI p y0 Hy0) as (y' & Hy' & Hk).
  exists y'. split; [|done]. simpl. rewrite list_lookup_insert_ne; [done|]. congruence.
Qed.

Lemma kept_length st : I st → (length (h_sym (as_heap st0)) ≤ length (h_sym (as_heap st)))%nat.
Proof.
  intros HI. destruct (h_sym (as_heap st0)) as [|y l] eqn:Hl using rev_ind; [simpl; lia|].
  destruct (HI (length l) y) as (y' & Hy' & _); [rewrite Hl; apply lookup_snoc|].
  apply lookup_lt_Some in Hy'. rewrite length_app. simpl. lia.
Qed.

(** A symbol that is untyped now was untyped, or not there, in [st0]. *)
Lemma kept_untyped st q x :
  I st → cells symbols (as_heap st) !! q = Some x → sym_typ x = sNONE →
  ∀ y0, h_sym (as_heap st0) !! q = Some y0 → sym_typ y0 = sNONE.
Proof.
  intros HI Hx Ht y0 Hy0. destruct (HI q y0 Hy0) as (y' & Hy' & _ & _ & _ & Hk).
  simpl in Hx. assert (y' = x) as -> by congruence.
  destruct (decide (sym_typ y0 = sNONE)) as [|Hne]; [done|].
  destruct (Hk Hne) as (Heq & _). congruence.
Qed.

Lemma kept_prog st g : I st → I (set_as_prog g st).
Proof. done. Qed.

Lemma kept_sect st s : I st → I (set_as_sect s st).
Proof. done. Qed.

Ltac kept_again HI :=
  first
    [ exact HI
    | apply kept_new_sym; kept_again HI
    | eapply kept_update_exported; [kept_again HI | eassumption]
    | eapply kept_update_untyped;
        [kept_again HI | eassumption | eassumption | reflexivity | reflexivity
        | simpl; auto]
    | eapply kept_update_new; [kept_again HI | eassumption]
    | apply kept_prog; kept_again HI
    | apply kept_sect; kept_again HI
    | apply kept_heap_other; [kept_again HI | reflexivity] ].

Ltac kept_call lem HI :=
  apply wp_bind; eapply wp_mono;
    [apply lem; kept_again HI | cbv beta; clear HI; intros ? ? HI].

Ltac kept_run HI := repeat xstep; kept_again HI.

Lemma gsym_kept (name : string) (s : option ptr) : keeps I (gsym name s).
Proof.
  intros st HI. unfold gsym. do 2 xstep.
  destruct (p_syms (as_prog st) !! name) as [p|] eqn:Hn; [by xstep|].
  assert (Hnew : h_sym (as_heap st0) !! length (cells symbols (as_heap st)) = None).
  { apply lookup_ge_None. by apply kept_length. }
  kept_run HI.
Qed.

Lemma fsym_kept (typ : Z) (name : string) : keeps I (fsym typ name).
Proof. intros st HI. unfold fsym. kept_run HI. Qed.

Lemma addglobal_kept (name : string) : keeps I (addglobal name).
Proof.
  intros st HI. unfold addglobal. do 2 xstep. kept_call gsym_kept HI. kept_run HI.
Qed.

Lemma addbss_kept (name : string) (size : Z) (allocated : bool) :
  keeps I (addbss name size allocated).
Proof.
  intros st HI. unfold addbss. do 2 xstep. kept_call gsym_kept HI.
  do 3 xstep; [|kept_run HI].
  match goal with
  | Hb : bool_decide (sym_typ ?y = sNONE) = true, Hx : cells symbols _ !! _ = Some ?y |- _ =>
      apply bool_decide_eq_true in Hb; pose proof (kept_untyped _ _ _ HI Hx Hb) as Hun
  end.
  kept_run HI.
Qed.

Lemma addlabel_kept (name : string) (off pc : Z) : keeps I (addlabel name off pc).
Proof.
  intros st HI. unfold addlabel. do 2 xstep. kept_call gsym_kept HI.
  do 3 xstep; [kept_run HI|]. xstep; [|kept_run HI].
  match goal with
  | Hb : bool_decide (sym_typ ?y = sNONE) = true, Hx : cells symbols _ !! _ = Some ?y |- _ =>
      apply bool_decide_eq_true in Hb; pose proof (kept_untyped _ _ _ HI Hx Hb) as Hun
  end.
  kept_run HI.
Qed.

Lemma code_loop_kept (v : list value) (c : list byte) : keeps I (code_loop c v).
Proof.
  revert c. induction v as [|x v IH]; intros c st HI; [by apply wp_ret|].
  destruct x; cbn [code_loop]; repeat xstep; try (by apply IH); kept_again HI.
Qed.

Lemma emit_kept (o : op) (ad : addr4) (v : list value) : keeps I (emit o ad v).
Proof.
  intros st HI. unfold emit, code. kept_call code_loop_kept HI. kept_run HI.
Qed.

Lemma addrel_kept (o : op) (ad : addr4) : keeps I (addrel o ad).
Proof. intros st HI. unfold addrel. kept_run HI. Qed.

Lemma find_sect_kept (name : string) (l : list ptr) : keeps I (find_sect name l).
Proof.
  induction l as [|s l IH]; intros st HI; cbn [find_sect]; [by apply wp_ret|].
  repeat xstep; try (by apply IH); kept_again HI.
Qed.

Lemma addsect_kept (name flags typ : string) : keeps I (addsect name flags typ).
Proof.
  intros st HI. unfold addsect. xstep.
  eapply (wp_mono _ (λ _, I)); [repeat xstep; kept_again HI|].
  clear st HI. intros _ st HI. cbv beta. xstep.
  eapply (wp_mono _ (λ _, I)); [repeat xstep; kept_again HI|].
  clear st HI. intros xtyp st HI. cbv beta. do 2 xstep.
  kept_call find_sect_kept HI. kept_run HI.
Qed.

Lemma bytes_kept (s : option ptr) (buf : list byte) : keeps I (bytes s buf).
Proof. intros st HI. unfold bytes. kept_run HI. Qed.

Lemma strz_kept (s : option ptr) (str : string) : keeps I (strz s str).
Proof. intros st HI. unfold strz. kept_run HI. Qed.

Lemma alignpc_kept (align : Z) (value : byte) : keeps I (alignpc align value).
Proof.
  intros st HI. unfold alignpc. repeat xstep; try kept_again HI. by apply bytes_kept.
Qed.

Lemma exec_kept (c : call) : keeps I (exec c).
Proof.
  destruct c; simpl.
  - apply emit_kept.
  - intros st HI. kept_call gsym_kept HI. by xstep.
  - intros st HI. kept_call fsym_kept HI. by xstep.
  - apply addglobal_kept.
  - apply addbss_kept.
  - apply addlabel_kept.
  - apply addrel_kept.
  - apply addsect_kept.
  - apply alignpc_kept.
  - apply strz_kept.
  - apply bytes_kept.
Qed.
End SymbolsKept.

Lemma reaches_symbols_kept (st st' : as_) : reaches st st' → symbols_kept st st'.
Proof.
  induction 1 as [|c st st' st'' _ IH Hc]; [apply symbols_kept_refl|].
  pose proof (exec_kept st c st' IH) as Hw. unfold wp in Hw.
  destruct Hc as [Hc|[e Hc]]; by rewrite Hc in Hw.
Qed.

(** X10. A symbol keeps what it was given.  Whatever calls follow, a
    symbol keeps its owning section and its name, its exported flag is
    never cleared, and once it has a type other than none, its type,
    size, offset, position and allocated flag never change. *)
Theorem symbols_keep_their_declaration (st st' : as_) (p : ptr) (y : sym)
    (H : reaches st st') (Hy : h_sym (as_heap st) !! p = Some y) :
  ∃ y', h_sym (as_heap st') !! p = Some y'
    ∧ sym_sect y' = sym_sect y ∧ sym_name y' = sym_name y
    ∧ (sym_exported y = true → sym_exported y' = true)
    ∧ (sym_typ y ≠ sNONE →
       sym_typ y' = sym_typ y ∧ sym_size y' = sym_size y ∧ sym_off y' = sym_off y
       ∧ sym_pc y' = sym_pc y ∧ sym_allocated y' = sym_allocated y).
Proof. exact (reaches_symbols_kept st st' H p y Hy). Qed.

Lemma symbols_keep_their_declaration_witness :
  let st0 := set_as_sect (Some 0%nat) (newas "amd64" "linux" "t.s") in
  let st1 := after (exec (CallAddlabel "L" 16 3)) st0 in
  let st2 := after (exec (CallAddglobal "L")) st1 in
  ∃ y', h_sym (as_heap st2) !! 0%nat = Some y'
    ∧ sym_typ y' = sLABEL ∧ sym_off y' = 16 ∧ sym_pc y' = 3.
Proof.
  intros st0 st1 st2.
  destruct (symbols_keep_their_declaration st1 st2 0%nat
              {| sym_sect := Some 0%nat; sym_typ := sLABEL; sym_name := "L";
                 sym_size := 0; sym_off := 16; sym_pc := 3; sym_allocated := true;
                 sym_exported := false |}
              (reaches_step (CallAddglobal "L") st1 st1 st2
                 (reaches_refl st1) (or_introl eq_refl)) eq_refl)
    as (y' & Hy' & _ & _ & _ & Ht).
  destruct Ht as (Ht & _ & Ho & Hp & _); [discriminate|].
  exists y'. by repeat split.
Defined.

(** ** The byte size of a section is the length of its code *)

Lemma wrap64_plus_l (a b : Z) : wrap64 (wrap64 a + b) = wrap64 (a + b).
Proof.
  unfold wrap64. f_equal.
  replace ((a + 2 ^ 63) `mod` 2 ^ 64 - 2 ^ 63 + b + 2 ^ 63)
    with ((a + 2 ^ 63) `mod` 2 ^ 64 + b) by lia.
  rewrite Zplus_mod_idemp_l. f_equal. lia.
Qed.

Lemma wrap64_plus_r (a b : Z) : wrap64 (a + wrap64 b) = wrap64 (a + b).
Proof. by rewrite Z.add_comm, wrap64_plus_l, Z.add_comm. Qed.

Lemma total_code_snoc (h : heap) (l : list ptr) (i : ptr) :
  total_code h (l ++ [i]) = total_code h l + code_len h i.
Proof. unfold total_code. induction l as [|j l IH]; simpl; [lia|]. rewrite IH. lia. Qed.

Lemma total_code_same (h h' : heap) (l : list ptr) :
  Forall (λ i, h_inst h' !! i = h_inst h !! i) l → total_code h' l = total_code h l.
Proof.
  induction 1 as [|i l Hi _ IH]; simpl; [done|]. rewrite IH. f_equal.
  unfold code_len. by rewrite Hi.
Qed.

Lemma total_code_inst (h h' : heap) (l : list ptr) :
  h_inst h' = h_inst h → total_code h' l = total_code h l.
Proof. intros H. apply total_code_same, Forall_forall. intros i _. by rewrite H. Qed.

Lemma sized_heap_other st h :
  sized st → h_inst h = h_inst (as_heap st) → h_sect h = h_sect (as_heap st) →
  sized (set_as_heap h st).
Proof.
  intros HI Hi Hs q S HS. simpl in *. rewrite Hs in HS. destruct (HI q S HS) as (Hv & Hz).
  rewrite Hi. split; [done|]. rewrite Hz. f_equal; by try apply total_code_inst.
Qed.

Lemma sized_prog st g : sized st → sized (set_as_prog g st).
Proof. done. Qed.

Lemma sized_sect st s : sized st → sized (set_as_sect s st).
Proof. done. Qed.

Lemma sized_new_inst st x :
  sized st → sized (set_as_heap (on_cells insts (λ l, l ++ [x]) (as_heap st)) st).
Proof.
  intros HI q S HS. simpl in *. destruct (HI q S HS) as (Hv & Hz). split.
  - eapply Forall_impl; [exact Hv|]. intros i Hi. simpl in Hi. rewrite length_app. lia.
  - rewrite Hz. f_equal. symmetry. apply total_code_same.
    eapply Forall_impl; [exact Hv|]. intros i Hi. simpl. by rewrite lookup_app_l.
Qed.

Lemma sized_new_sect st name flags typ :
  sized st →
  sized (set_as_heap (on_cells sections (λ l, l ++ [newsection name flags typ])
           (as_heap st)) st).
Proof.
  intros HI q S HS. simpl in *.
  destruct (decide (q < length (h_sect (as_heap st)))%nat) as [Hlt|Hge].
  - rewrite lookup_app_l in HS by done. destruct (HI q S HS) as (Hv & Hz).
    split; [done|]. rewrite Hz. f_equal; by try apply total_code_inst.
  - rewrite lookup_app_r in HS by lia.
    destruct (q - length (h_sect (as_heap st)))%nat; [|done].
    injection HS as <-. simpl. by split.
Qed.

(** An update of a section that keeps its instructions and its size. *)
Lemma sized_update_same st q x y :
  sized st → cells sections (as_heap st) !! q = Some x →
  s_inst y = s_inst x → s_size y = s_size x →
  sized (set_as_heap (on_cells sections (λ l, <[q := y]> l) (as_heap st)) st).
Proof.
  intros HI Hx Hi Hz q' S HS. simpl in *.
  destruct (decide (q' = q)) as [->|Hne].
  - rewrite (lookup_insert_same _ _ _ _ Hx) in HS. injection HS as <-.
    rewrite Hi, Hz. destruct (HI q x Hx) as (Hv & Hzx).
    split; [done|]. rewrite Hzx. f_equal; by try apply total_code_inst.
  - rewrite list_lookup_insert_ne in HS by done. destruct (HI q' S HS) as (Hv & Hzx).
    split; [done|]. rewrite Hzx. f_equal; by try apply total_code_inst.
Qed.

(** An update of a section that appends one instruction of the store
    and adds the length of its code to the size. *)
Lemma sized_update_push st q x y i ins :
  sized st → cells sections (as_heap st) !! q = Some x →
  h_inst (as_heap st) !! i = Some ins →
  s_inst y = s_inst x ++ [i] →
  s_size y = wrap64 (s_size x + len (i_code ins)) →
  sized (set_as_heap (on_cells sections (λ l, <[q := y]> l) (as_heap st)) st).
Proof.
  intros HI Hx Hins Hi Hz q' S HS. simpl in *.
  destruct (decide (q' = q)) as [->|Hne].
  - rewrite (lookup_insert_same _ _ _ _ Hx) in HS. injection HS as <-.
    destruct (HI q x Hx) as (Hv & Hzx). rewrite Hi, Hz. split.
    + apply Forall_app. split; [done|]. apply Forall_singleton. by eapply lookup_lt_Some.
    + rewrite total_code_snoc.
      rewrite (total_code_inst (as_heap st)) by done.
      unfold code_len. simpl. rewrite Hins.
      by rewrite Hzx, wrap64_plus_l.
  - rewrite list_lookup_insert_ne in HS by done. destruct (HI q' S HS) as (Hv & Hzx).
    split; [done|]. rewrite Hzx. f_equal; by try apply total_code_inst.
Qed.

(** The same for an instruction without code: the size stays. *)
Lemma sized_update_push_empty st q x y i ins :
  sized st → cells sections (as_heap st) !! q = Some x →
  h_inst (as_heap st) !! i = Some ins → i_code ins = [] →
  s_inst y = s_inst x ++ [i] → s_size y = s_size x →
  sized (set_as_heap (on_cells sections (λ l, <[q := y]> l) (as_heap st)) st).
Proof.
  intros HI Hx Hins Hc Hi Hz. eapply sized_update_push; try done.
  rewrite Hz, Hc. destruct (HI q x Hx) as (_ & ->). unfold len. simpl.
  by rewrite wrap64_plus_l, Z.add_0_r.
Qed.

Lemma newas_sized (arch os_ file : string) : sized (newas arch os_ file).
Proof.
  intros q S HS. simpl in HS.
  destruct q as [|[|[|q]]]; simpl in HS; try done; injection HS as <-; by split.
Qed.

Section Sized.
Local Abbreviation I := sized.

Ltac sized_again HI :=
  first
    [ exact HI
    | apply sized_new_inst; sized_again HI
    | apply sized_new_sect; sized_again HI
    | eapply sized_update_push;
        [sized_again HI | eassumption | simpl; apply lookup_snoc | reflexivity
        | reflexivity]
    | eapply sized_update_push_empty;
        [sized_again HI | eassumption | simpl; apply lookup_snoc | reflexivity
        | reflexivity | reflexivity]
    | eapply sized_update_same; [sized_again HI | eassumption | reflexivity | reflexivity]
    | apply sized_prog; sized_again HI
    | apply sized_sect; sized_again HI
    | apply sized_heap_other; [sized_again HI | reflexivity | reflexivity] ].

Ltac sized_call lem HI :=
  apply wp_bind; eapply wp_mono;
    [apply lem; sized_again HI | cbv beta; clear HI; intros ? ? HI].

Ltac sized_run HI := repeat xstep; sized_again HI.

Lemma gsym_sized (name : string) (s : option ptr) : keeps I (gsym name s).
Proof. intros st HI. unfold gsym. sized_run HI. Qed.

Lemma fsym_sized (typ : Z) (name : string) : keeps I (fsym typ name).
Proof. intros st HI. unfold fsym. sized_run HI. Qed.

Lemma addglobal_sized (name : string) : keeps I (addglobal name).
Proof.
  intros st HI. unfold addglobal. do 2 xstep. sized_call gsym_sized HI. sized_run HI.
Qed.

Lemma addbss_sized (name : string) (size : Z) (allocated : bool) :
  keeps I (addbss name size allocated).
Proof.
  intros st HI. unfold addbss. do 2 xstep. sized_call gsym_sized HI. sized_run HI.
Qed.

Lemma addlabel_sized (name : string) (off pc : Z) : keeps I (addlabel name off pc).
Proof.
  intros st HI. unfold addlabel. do 2 xstep. sized_call gsym_sized HI. sized_run HI.
Qed.

Lemma code_loop_sized (v : list value) (c : list byte) : keeps I (code_loop c v).
Proof.
  revert c. induction v as [|x v IH]; intros c st HI; [by apply wp_ret|].
  destruct x; cbn [code_loop]; repeat xstep; try (by apply IH); sized_again HI.
Qed.

Lemma emit_sized (o : op) (ad : addr4) (v : list value) : keeps I (emit o ad v).
Proof.
  intros st HI. unfold emit, code. sized_call code_loop_sized HI. sized_run HI.
Qed.

Lemma addrel_sized (o : op) (ad : addr4) : keeps I (addrel o ad).
Proof. intros st HI. unfold addrel. sized_run HI. Qed.

Lemma find_sect_sized (name : string) (l : list ptr) : keeps I (find_sect name l).
Proof.
  induction l as [|s l IH]; intros st HI; cbn [find_sect]; [by apply wp_ret|].
  repeat xstep; try (by apply IH); sized_again HI.
Qed.

Lemma addsect_sized (name flags typ : string) : keeps I (addsect name flags typ).
Proof.
  intros st HI. unfold addsect. xstep.
  eapply (wp_mono _ (λ _, I)); [repeat xstep; sized_again HI|].
  clear st HI. intros _ st HI. cbv beta. xstep.
  eapply (wp_mono _ (λ _, I)); [repeat xstep; sized_again HI|].
  clear st HI. intros xtyp st HI. cbv beta. do 2 xstep.
  sized_call find_sect_sized HI. sized_run HI.
Qed.

(** [bytes] and [strz] add to the size before they append the
    instruction: the sizes are right again when they return. *)
Lemma bytes_sized (s : option ptr) (buf : list byte) : keeps I (bytes s buf).
Proof.
  intros st HI. unfold wp. destruct s as [q|]; [|done].
  destruct (h_sect (as_heap st) !! q) as [S|] eqn:HS.
  - rewrite (bytes_appends q S buf st HS).
    set (ins := {| i_op := opBYTES; i_addr := addr4_0; i_code := buf |}).
    apply (sized_update_push
             (set_as_heap (on_cells insts (λ l, l ++ [ins]) (as_heap st)) st) q S _
             (length (h_inst (as_heap st))) ins);
      [apply sized_new_inst, HI | exact HS | simpl; apply lookup_snoc | reflexivity
      | reflexivity].
  - unfold bytes, load. unfold_M. simpl. by rewrite HS.
Qed.

Lemma strz_sized (s : option ptr) (str : string) : keeps I (strz s str).
Proof.
  intros st HI. unfold wp. destruct s as [q|]; [|done].
  destruct (h_sect (as_heap st) !! q) as [S|] eqn:HS.
  - rewrite (strz_run q S str st HS).
    set (ins := {| i_op := opSTRZ; i_addr := addr4_0;
                   i_code := String.list_byte_of_string str ++ ["000"%byte] |}).
    apply (sized_update_push
             (set_as_heap (on_cells insts (λ l, l ++ [ins]) (as_heap st)) st) q S _
             (length (h_inst (as_heap st))) ins);
      [apply sized_new_inst, HI | exact HS | simpl; apply lookup_snoc | reflexivity|].
    simpl. unfold add64, len. rewrite wrap64_plus_r. f_equal. f_equal.
    rewrite length_app, length_bytes_of_string. simpl. lia.
  - unfold strz, load. unfold_M. simpl. by rewrite HS.
Qed.

Lemma alignpc_sized (align : Z) (value : byte) : keeps I (alignpc align value).
Proof.
  intros st HI. unfold alignpc. repeat xstep; try sized_again HI. by apply bytes_sized.
Qed.

Lemma exec_sized (c : call) : keeps I (exec c).
Proof.
  destruct c; simpl.
  - apply emit_sized.
  - intros st HI. sized_call gsym_sized HI. by xstep.
  - intros st HI. sized_call fsym_sized HI. by xstep.
  - apply addglobal_sized.
  - apply addbss_sized.
  - apply addlabel_sized.
  - apply addrel_sized.
  - apply addsect_sized.
  - apply alignpc_sized.
  - apply strz_sized.
  - apply bytes_sized.
Qed.
End Sized.

Lemma reaches_sized (st st' : as_) : reaches st st' → sized st → sized st'.
Proof.
  induction 1 as [|c st st' st'' _ IH Hc]; [done|]. intros H0.
  pose proof (exec_sized c st' (IH H0)) as Hw. unfold wp in Hw.
  destruct Hc as [Hc|[e Hc]]; by rewrite Hc in Hw.
Qed.

(** X11. The byte size of a section is the length of its code.  If
    every section lists instructions of the store only and has as byte
    size the total length of their code, as an [int64], then the same
    holds after any calls: no method lets the size and the code of a
    section drift apart. *)
Theorem size_is_code_length (st st' : as_) (q : ptr) (S : section)
    (H0 : sized st) (H : reaches st st') (HS : h_sect (as_heap st') !! q = Some S) :
  Forall (λ i, is_Some (h_inst (as_heap st') !! i)) (s_inst S)
  ∧ s_size S = wrap64 (total_code (as_heap st') (s_inst S)).
Proof.
  destruct (reaches_sized _ _ H H0 q S HS) as (Hv & Hz).
  split; [|done]. eapply Forall_impl; [exact Hv|]. intros i Hi. by apply lookup_lt_is_Some.
Qed.

Lemma size_is_code_length_witness :
  let st0 := set_as_sect (Some 0%nat) (newas "amd64" "linux" "t.s") in
  let st1 := after (exec (CallEmit 7 addr4_0 [VByte "001"%byte; VByte "002"%byte])) st0 in
  let st2 := after (exec (CallStrz (Some 0%nat) "hi")) st1 in
  ∃ S, h_sect (as_heap st2) !! 0%nat = Some S
    ∧ s_size S = wrap64 (total_code (as_heap st2) (s_inst S)) ∧ s_size S = 5.
Proof.
  intros st0 st1 st2. eexists. split; [reflexivity|]. split; [|reflexivity].
  refine (proj2 (size_is_code_length st0 st2 0%nat _
            (sized_sect _ _ (newas_sized "amd64" "linux" "t.s"))
            (reaches_step (CallStrz (Some 0%nat) "hi") st0 st1 st2
               (reaches_step (CallEmit 7 addr4_0 [VByte "001"%byte; VByte "002"%byte])
                  st0 st0 st1 (reaches_refl st0) (or_introl eq_refl))
               (or_introl eq_refl))
            eq_refl)).
Defined.

(** ** The symbol table *)

Lemma symtab_heap_other st h :
  symtab st → h_sym h = h_sym (as_heap st) → symtab (set_as_heap h st).
Proof. intros (Ho & Hm) Hh. split; simpl; by rewrite Hh. Qed.

Lemma symtab_prog st g :
  symtab st → p_syms g = p_syms (as_prog st) → p_osyms g = p_osyms (as_prog st) →
  symtab (set_as_prog g st).
Proof. intros (Ho & Hm) Hs Hos. split; simpl; [by rewrite Hos|]. by rewrite Hs. Qed.

Lemma symtab_sect st s : symtab st → symtab (set_as_sect s st).
Proof. done. Qed.

(** An update of a symbol that keeps its name. *)
Lemma symtab_update_sym st q x y :
  symtab st → cells symbols (as_heap st) !! q = Some x → sym_name y = sym_name x →
  symtab (set_as_heap (on_cells symbols (λ l, <[q := y]> l) (as_heap st)) st).
Proof.
  intros (Ho & Hm) Hx Hn. simpl in Hx. split; simpl.
  - by rewrite length_insert.
  - intros name p. rewrite Hm. destruct (decide (p = q)) as [->|Hne].
    + rewrite (lookup_insert_same _ _ _ _ Hx). split.
      * intros (y0 & Hy0 & <-). exists y. split; [done|]. congruence.
      * intros (y0 & Hy0 & <-). exists x. split; [done|]. congruence.
    + by rewrite list_lookup_insert_ne.
Qed.

(** A new symbol under a name that the map does not have. *)
Lemma symtab_declare st name y h g :
  symtab st → p_syms (as_prog st) !! name = None → sym_name y = name →
  h_sym h = h_sym (as_heap st) ++ [y] →
  p_syms g = <[name := length (h_sym (as_heap st))]> (p_syms (as_prog st)) →
  p_osyms g = p_osyms (as_prog st) ++ [length (h_sym (as_heap st))] →
  symtab (set_as_prog g (set_as_heap h st)).
Proof.
  intros (Ho & Hm) Hno Hn Hh Hs Hos. split; simpl.
  - rewrite Hos, Hh, Ho, length_app. simpl. by rewrite seq_app.
  - intros name' p. rewrite Hs, Hh. destruct (decide (name' = name)) as [->|Hne].
    + rewrite lookup_insert_eq. split.
      * intros [= <-]. exists y. split; [apply lookup_snoc|done].
      * intros (y0 & Hy0 & Hn0). f_equal.
        destruct (decide (p < length (h_sym (as_heap st)))%nat) as [Hlt|Hge].
        -- rewrite lookup_app_l in Hy0 by done.
           assert (p_syms (as_prog st) !! name = Some p) as Hp by (apply Hm; eauto).
           congruence.
        -- apply lookup_lt_Some in Hy0. rewrite length_app in Hy0. simpl in Hy0. lia.
    + rewrite lookup_insert_ne by done. rewrite Hm. split.
      * intros (y0 & Hy0 & Hn0). exists y0. split; [|done].
        rewrite lookup_app_l; [done|]. by eapply lookup_lt_Some.
      * intros (y0 & Hy0 & Hn0).
        destruct (decide (p < length (h_sym (as_heap st)))%nat) as [Hlt|Hge].
        -- rewrite lookup_app_l in Hy0 by done. eauto.
        -- rewrite lookup_app_r in Hy0 by lia.
           destruct (p - length (h_sym (as_heap st)))%nat; [|done].
           injection Hy0 as <-. congruence.
Qed.

Lemma newas_symtab (arch os_ file : string) : symtab (newas arch os_ file).
Proof.
  split; [done|]. intros name p. simpl. rewrite lookup_empty. split; [done|].
  by intros (y & Hy & _).
Qed.

Section Symtab.
Local Abbreviation I := symtab.

Ltac symtab_again HI :=
  first
    [ exact HI
    | eapply symtab_update_sym; [symtab_again HI | eassumption | reflexivity]
    | apply symtab_prog; [symtab_again HI | reflexivity | reflexivity]
    | apply symtab_sect; symtab_again HI
    | apply symtab_heap_other; [symtab_again HI | reflexivity] ].

Ltac symtab_call lem HI :=
  apply wp_bind; eapply wp_mono;
    [apply lem; symtab_again HI | cbv beta; clear HI; intros ? ? HI].

Ltac symtab_run HI := repeat xstep; symtab_again HI.

(** [gsym] and [fsym] fill the table in several steps: it is
    consistent again when they return. *)
Lemma gsym_symtab (name : string) (s : option ptr) : keeps I (gsym name s).
Proof.
  intros st HI. unfold wp.
  destruct (p_syms (as_prog st) !! name) as [p|] eqn:Hn; [by rewrite (gsym_known _ _ _ _ Hn)|].
  destruct s as [q|]; [destruct (h_sect (as_heap st) !! q) as [S|] eqn:HS|].
  - rewrite (gsym_fresh name q S st Hn HS).
    by apply (symtab_declare st name
                (set_sym_allocated true (set_sym_name name (set_sym_sect (Some q) sym0)))
                _ _ HI Hn).
  - unfold gsym, new, update. unfold_M. simpl. rewrite Hn. simpl. by rewrite HS.
  - unfold gsym, new, update. unfold_M. simpl. by rewrite Hn.
Qed.

Lemma fsym_symtab (typ : Z) (name : string) : keeps I (fsym typ name).
Proof.
  intros st HI. unfold wp.
  destruct (decide ((typ ≠ aVAR ∧ typ ≠ aPTR) ∨ name = "")) as [Hs|Hs];
    [by rewrite (fsym_skip _ _ _ Hs)|].
  assert (typ = aVAR ∨ typ = aPTR) as Ht.
  { destruct (decide (typ = aVAR)); [tauto|]. destruct (decide (typ = aPTR)); tauto. }
  assert (name ≠ "") as Hne by tauto.
  destruct (p_syms (as_prog st) !! name) as [p|] eqn:Hn;
    [by rewrite (fsym_known _ _ _ _ Ht Hne Hn)|].
  rewrite (fsym_fresh typ name st Ht Hne Hn).
  by apply (symtab_declare st name (extern name) _ _ HI Hn).
Qed.

Lemma addglobal_symtab (name : string) : keeps I (addglobal name).
Proof.
  intros st HI. unfold addglobal. do 2 xstep. symtab_call gsym_symtab HI. symtab_run HI.
Qed.

Lemma addbss_symtab (name : string) (size : Z) (allocated : bool) :
  keeps I (addbss name size allocated).
Proof.
  intros st HI. unfold addbss. do 2 xstep. symtab_call gsym_symtab HI. symtab_run HI.
Qed.

Lemma addlabel_symtab (name : string) (off pc : Z) : keeps I (addlabel name off pc).
Proof.
  intros st HI. unfold addlabel. do 2 xstep. symtab_call gsym_symtab HI. symtab_run HI.
Qed.

Lemma code_loop_symtab (v : list value) (c : list byte) : keeps I (code_loop c v).
Proof.
  revert c. induction v as [|x v IH]; intros c st HI; [by apply wp_ret|].
  destruct x; cbn [code_loop]; repeat xstep; try (by apply IH); symtab_again HI.
Qed.

Lemma emit_symtab (o : op) (ad : addr4) (v : list value) : keeps I (emit o ad v).
Proof.
  intros st HI. unfold emit, code. symtab_call code_loop_symtab HI. symtab_run HI.
Qed.

Lemma addrel_symtab (o : op) (ad : addr4) : keeps I (addrel o ad).
Proof. intros st HI. unfold addrel. symtab_run HI. Qed.

Lemma find_sect_symtab (name : string) (l : list ptr) : keeps I (find_sect name l).
Proof.
  induction l as [|s l IH]; intros st HI; cbn [find_sect]; [by apply wp_ret|].
  repeat xstep; try (by apply IH); symtab_again HI.
Qed.

Lemma addsect_symtab (name flags typ : string) : keeps I (addsect name flags typ).
Proof.
  intros st HI. unfold addsect. xstep.
  eapply (wp_mono _ (λ _, I)); [repeat xstep; symtab_again HI|].
  clear st HI. intros _ st HI. cbv beta. xstep.
  eapply (wp_mono _ (λ _, I)); [repeat xstep; symtab_again HI|].
  clear st HI. intros xtyp st HI. cbv beta. do 2 xstep.
  symtab_call find_sect_symtab HI. symtab_run HI.
Qed.

Lemma bytes_symtab (s : option ptr) (buf : list byte) : keeps I (bytes s buf).
Proof. intros st HI. unfold bytes. symtab_run HI. Qed.

Lemma strz_symtab (s : option ptr) (str : string) : keeps I (strz s str).
Proof. intros st HI. unfold strz. symtab_run HI. Qed.

Lemma alignpc_symtab (align : Z) (value : byte) : keeps I (alignpc align value).
Proof.
  intros st HI. unfold alignpc. repeat xstep; try symtab_again HI. by apply bytes_symtab.
Qed.

Lemma exec_symtab (c : call) : keeps I (exec c).
Proof.
  destruct c; simpl.
  - apply emit_symtab.
  - intros st HI. symtab_call gsym_symtab HI. by xstep.
  - intros st HI. symtab_call fsym_symtab HI. by xstep.
  - apply addglobal_symtab.
  - apply addbss_symtab.
  - apply addlabel_symtab.
  - apply addrel_symtab.
  - apply addsect_symtab.
  - apply alignpc_symtab.
  - apply strz_symtab.
  - apply bytes_symtab.
Qed.
End Symtab.

Lemma reaches_symtab (st st' : as_) : reaches st st' → symtab st → symtab st'.
Proof.
  induction 1 as [|c st st' st'' _ IH Hc]; [done|]. intros H0.
  pose proof (exec_symtab c st' (IH H0)) as Hw. unfold wp in Hw.
  destruct Hc as [Hc|[e Hc]]; by rewrite Hc in Hw.
Qed.

(** X12. The symbol table stays consistent.  If the declaration-order
    list holds every symbol of the store exactly once, in the order of
    creation, and the map sends a name to a symbol exactly when the
    symbol has that name, as in a fresh assembler, then the same holds
    after any calls; and so two symbols never share a name. *)
Theorem symbol_table_consistent (st st' : as_) (H0 : symtab st) (H : reaches st st') :
  p_osyms (as_prog st') = seq 0 (length (h_sym (as_heap st')))
  ∧ (∀ name p, p_syms (as_prog st') !! name = Some p
       ↔ ∃ y, h_sym (as_heap st') !! p = Some y ∧ sym_name y = name)
  ∧ ∀ p1 p2 y1 y2,
      h_sym (as_heap st') !! p1 = Some y1 → h_sym (as_heap st') !! p2 = Some y2 →
      sym_name y1 = sym_name y2 → p1 = p2.
Proof.
  destruct (reaches_symtab _ _ H H0) as (Ho & Hm).
  split; [done|]. split; [done|]. intros p1 p2 y1 y2 H1 H2 Hn.
  assert (p_syms (as_prog st') !! sym_name y1 = Some p1) as Hp1 by (apply Hm; eauto).
  assert (p_syms (as_prog st') !! sym_name y1 = Some p2) as Hp2 by (apply Hm; eauto).
  congruence.
Qed.

Lemma symbol_table_consistent_witness :
  let st0 := set_as_sect (Some 0%nat) (newas "amd64" "linux" "t.s") in
  let st1 := after (exec (CallAddlabel "L" 16 3)) st0 in
  let st2 := after (exec (CallFsym aVAR "x")) st1 in
  let st3 := after (exec (CallAddglobal "L")) st2 in
  p_osyms (as_prog st3) = seq 0 (length (h_sym (as_heap st3)))
  ∧ length (h_sym (as_heap st3)) = 2%nat.
Proof.
  intros st0 st1 st2 st3. split; [|reflexivity].
  assert (H1 : leaves (CallAddlabel "L" 16 3) st0 st1) by (left; vm_compute; reflexivity).
  assert (H2 : leaves (CallFsym aVAR "x") st1 st2) by (left; vm_compute; reflexivity).
  assert (H3 : leaves (CallAddglobal "L") st2 st3) by (left; vm_compute; reflexivity).
  exact (proj1 (symbol_table_consistent st0 st3
           (symtab_sect _ _ (newas_symtab "amd64" "linux" "t.s"))
           (reaches_step _ st0 st2 st3
              (reaches_step _ st0 st1 st2
                 (reaches_step _ st0 st0 st1 (reaches_refl st0) H1) H2) H3))).
Defined.

(** ** The sections of the user *)

Lemma user_sections_heap st h :
  user_sections st →
  (length (h_sect (as_heap st)) ≤ length (h_sect h))%nat →
  (∀ s, (s < length (h_sect (as_heap st)))%nat →
     sect_name h s = sect_name (as_heap st) s) →
  user_sections (set_as_heap h st).
Proof.
  intros (Hd & Hv) Hl Hn. split; simpl.
  - replace (sect_name h <$> p_sects (as_prog st))
      with (sect_name (as_heap st) <$> p_sects (as_prog st)); [done|].
    apply Forall_fmap_ext. eapply Forall_impl; [exact Hv|].
    intros s (H1 & _). simpl. symmetry. by apply Hn.
  - eapply Forall_impl; [exact Hv|]. intros s (H1 & H2 & H3). simpl in *.
    rewrite (Hn s H1). split; [lia|done].
Qed.

Lemma user_sections_heap_other st h :
  user_sections st → h_sect h = h_sect (as_heap st) → user_sections (set_as_heap h st).
Proof.
  intros HI Hh. apply user_sections_heap; [done|by rewrite Hh|].
  intros s _. unfold sect_name. by rewrite Hh.
Qed.

Lemma user_sections_update st q x y :
  user_sections st → cells sections (as_heap st) !! q = Some x → s_name y = s_name x →
  user_sections (set_as_heap (on_cells sections (λ l, <[q := y]> l) (as_heap st)) st).
Proof.
  intros HI Hx Hn. apply user_sections_heap; [done|simpl; by rewrite length_insert|].
  intros s _. unfold sect_name. simpl in *. destruct (decide (s = q)) as [->|Hne].
  - by rewrite (lookup_insert_same _ _ _ _ Hx), Hx.
  - by rewrite list_lookup_insert_ne.
Qed.

Lemma user_sections_new st x :
  user_sections st →
  user_sections (set_as_heap (on_cells sections (λ l, l ++ [x]) (as_heap st)) st).
Proof.
  intros HI. apply user_sections_heap; [done|simpl; rewrite length_app; lia|].
  intros s Hs. unfold sect_name. simpl. by rewrite lookup_app_l.
Qed.

Lemma user_sections_prog st g :
  user_sections st → p_sects g = p_sects (as_prog st) → user_sections (set_as_prog g st).
Proof. intros (Hd & Hv) Hg. split; simpl; by rewrite Hg. Qed.

Lemma user_sections_sect st s : user_sections st → user_sections (set_as_sect s st).
Proof. done. Qed.

(** One more section in the list, under a name that is new to it. *)
Lemma user_sections_push st s g :
  user_sections st → (s < length (h_sect (as_heap st)))%nat →
  sect_name (as_heap st) s ∉ predefined → sect_name (as_heap st) s ≠ "" →
  Forall (λ s', sect_name (as_heap st) s' ≠ sect_name (as_heap st) s)
    (p_sects (as_prog st)) →
  p_sects g = p_sects (as_prog st) ++ [s] →
  user_sections (set_as_prog g st).
Proof.
  intros (Hd & Hv) Hs Hp He Hnew Hg. split; simpl; rewrite Hg.
  - rewrite fmap_app. apply NoDup_app. split; [done|]. split; [|apply NoDup_singleton].
    intros n Hn Hn'. apply list_elem_of_singleton in Hn'. subst n.
    apply list_elem_of_fmap in Hn as (s' & Heq & Hs').
    by apply (proj1 (Forall_forall _ _) Hnew s' Hs').
  - apply Forall_app. split; [done|]. by apply Forall_singleton.
Qed.

Lemma newas_user_sections (arch os_ file : string) : user_sections (newas arch os_ file).
Proof. split; simpl; [apply NoDup_nil_2|apply Forall_nil_2]. Qed.

(** [find_sect] changes nothing; it says no only when no section of
    the list has the name. *)
Lemma find_sect_names (name : string) (l : list ptr) E (st : as_) :
  wp (find_sect name l)
     (λ r st', st' = st
        ∧ (r = None → Forall (λ s, sect_name (as_heap st) s ≠ name) l))
     E st.
Proof.
  induction l as [|s l IH]; cbn [find_sect]; [by apply wp_ret|].
  do 3 xstep; [by xstep|]. eapply wp_mono; [exact IH|]. cbv beta.
  intros r st' (-> & Hr). split; [done|]. intros ->. apply Forall_cons. split; [|auto].
  unfold sect_name. simpl in *.
  match goal with
  | Hx : h_sect _ !! s = Some ?x, Hb : bool_decide _ = false |- _ =>
      rewrite Hx; by apply bool_decide_eq_false in Hb
  end.
Qed.

Section UserSections.
Local Abbreviation I := user_sections.

Ltac us_again HI :=
  first
    [ exact HI
    | eapply user_sections_update; [us_again HI | eassumption | reflexivity]
    | apply user_sections_new; us_again HI
    | apply user_sections_prog; [us_again HI | reflexivity]
    | apply user_sections_sect; us_again HI
    | apply user_sections_heap_other; [us_again HI | reflexivity] ].

Ltac us_call lem HI :=
  apply wp_bind; eapply wp_mono;
    [apply lem; us_again HI | cbv beta; clear HI; intros ? ? HI].

Ltac us_run HI := repeat xstep; us_again HI.

Lemma gsym_user_sections (name : string) (s : option ptr) : keeps I (gsym name s).
Proof. intros st HI. unfold gsym. us_run HI. Qed.

Lemma fsym_user_sections (typ : Z) (name : string) : keeps I (fsym typ name).
Proof. intros st HI. unfold fsym. us_run HI. Qed.

Lemma addglobal_user_sections (name : string) : keeps I (addglobal name).
Proof.
  intros st HI. unfold addglobal. do 2 xstep. us_call gsym_user_sections HI. us_run HI.
Qed.

Lemma addbss_user_sections (name : string) (size : Z) (allocated : bool) :
  keeps I (addbss name size allocated).
Proof.
  intros st HI. unfold addbss. do 2 xstep. us_call gsym_user_sections HI. us_run HI.
Qed.

Lemma addlabel_user_sections (name : string) (off pc : Z) :
  keeps I (addlabel name off pc).
Proof.
  intros st HI. unfold addlabel. do 2 xstep. us_call gsym_user_sections HI. us_run HI.
Qed.

Lemma code_loop_user_sections (v : list value) (c : list byte) : keeps I (code_loop c v).
Proof.
  revert c. induction v as [|x v IH]; intros c st HI; [by apply wp_ret|].
  destruct x; cbn [code_loop]; repeat xstep; try (by apply IH); us_again HI.
Qed.

Lemma emit_user_sections (o : op) (ad : addr4) (v : list value) : keeps I (emit o ad v).
Proof.
  intros st HI. unfold emit, code. us_call code_loop_user_sections HI. us_run HI.
Qed.

Lemma addrel_user_sections (o : op) (ad : addr4) : keeps I (addrel o ad).
Proof. intros st HI. unfold addrel. us_run HI. Qed.

Lemma addsect_user_sections (name flags typ : string) : keeps I (addsect name flags typ).
Proof.
  intros st HI. unfold addsect. xstep.
  eapply (wp_mono _ (λ _ st', st' = st ∧ (name ∉ predefined) ∧ name ≠ "")).
  { repeat xstep; try done. split; [done|].
    split; eapply bool_decide_eq_false_1; eassumption. }
  intros _ ? (-> & Hp & He). cbv beta. xstep.
  eapply (wp_mono _ (λ _ st', st' = st)); [by repeat xstep|].
  intros xtyp ? ->. cbv beta. do 3 xstep.
  eapply wp_mono; [apply find_sect_names|]. cbv beta.
  intros r ? (-> & Hr). destruct r as [s|]; [us_run HI|]. specialize (Hr eq_refl).
  do 4 xstep. apply user_sections_sect.
  assert (Hname : sect_name
            (as_heap (set_as_heap (on_cells sections
               (λ l, l ++ [newsection name flags xtyp]) (as_heap st)) st))
            (length (cells sections (as_heap st))) = name).
  { unfold sect_name. simpl. by rewrite lookup_snoc. }
  eapply user_sections_push; [apply user_sections_new, HI| | | | |reflexivity].
  - simpl. rewrite length_app. simpl. lia.
  - by rewrite Hname.
  - by rewrite Hname.
  - rewrite Hname. destruct HI as (_ & Hv). simpl.
    apply Forall_forall. intros s' Hs'.
    destruct (proj1 (Forall_forall _ _) Hv s' Hs') as (Hlt & _).
    pose proof (proj1 (Forall_forall _ _) Hr s' Hs') as Hne.
    unfold sect_name in *. simpl. by rewrite lookup_app_l.
Qed.

Lemma bytes_user_sections (s : option ptr) (buf : list byte) : keeps I (bytes s buf).
Proof. intros st HI. unfold bytes. us_run HI. Qed.

Lemma strz_user_sections (s : option ptr) (str : string) : keeps I (strz s str).
Proof. intros st HI. unfold strz. us_run HI. Qed.

Lemma alignpc_user_sections (align : Z) (value : byte) : keeps I (alignpc align value).
Proof.
  intros st HI. unfold alignpc. repeat xstep; try us_again HI.
  by apply bytes_user_sections.
Qed.

Lemma exec_user_sections (c : call) : keeps I (exec c).
Proof.
  destruct c; simpl.
  - apply emit_user_sections.
  - intros st HI. us_call gsym_user_sections HI. by xstep.
  - intros st HI. us_call fsym_user_sections HI. by xstep.
  - apply addglobal_user_sections.
  - apply addbss_user_sections.
  - apply addlabel_user_sections.
  - apply addrel_user_sections.
  - apply addsect_user_sections.
  - apply alignpc_user_sections.
  - apply strz_user_sections.
  - apply bytes_user_sections.
Qed.
End UserSections.

Lemma reaches_user_sections (st st' : as_) :
  reaches st st' → user_sections st → user_sections st'.
Proof.
  induction 1 as [|c st st' st'' _ IH Hc]; [done|]. intros H0.
  pose proof (exec_user_sections c st' (IH H0)) as Hw. unfold wp in Hw.
  destruct Hc as [Hc|[e Hc]]; by rewrite Hc in Hw.
Qed.

(** X13. The sections of the user have names of their own.  If the
    list of the user's sections holds sections of the store whose names
    are pairwise different, not predefined and not empty, as the empty
    list of a fresh assembler does, then the same holds after any
    calls: [addsect] never lists a section twice, never lists two
    sections under one name, and never lists a predefined or an empty
    name. *)
Theorem user_sections_have_own_names (st st' : as_)
    (H0 : user_sections st) (H : reaches st st') :
  NoDup (p_sects (as_prog st'))
  ∧ ∀ s, s ∈ p_sects (as_prog st') →
      ∃ x, h_sect (as_heap st') !! s = Some x
        ∧ (s_name x ∉ predefined) ∧ s_name x ≠ ""
        ∧ ∀ s' x', s' ∈ p_sects (as_prog st') → h_sect (as_heap st') !! s' = Some x' →
            s_name x' = s_name x → s' = s.
Proof.
  destruct (reaches_user_sections _ _ H H0) as (Hd & Hv). split.
  - by eapply NoDup_fmap_1.
  - intros s Hs. destruct (proj1 (Forall_forall _ _) Hv s Hs) as (Hlt & Hp & He).
    destruct (lookup_lt_is_Some_2 _ _ Hlt) as (x & Hx). exists x.
    unfold sect_name in Hp, He. rewrite Hx in Hp, He.
    split; [done|]. split; [done|]. split; [done|].
    intros s' x' Hs' Hx' Hn.
    destruct (proj1 (list_elem_of_lookup _ _) Hs) as (i & Hi).
    destruct (proj1 (list_elem_of_lookup _ _) Hs') as (j & Hj).
    assert (i = j) as ->.
    { eapply NoDup_lookup; [exact Hd| |].
      - rewrite list_lookup_fmap, Hi. reflexivity.
      - rewrite list_lookup_fmap, Hj. simpl. unfold sect_name. by rewrite Hx, Hx', Hn. }
    congruence.
Qed.

Lemma user_sections_have_own_names_witness :
  let st0 := newas "amd64" "linux" "t.s" in
  let st1 := after (exec (CallAddsect ".rodata" "a" "progbits")) st0 in
  let st2 := after (exec (CallAddsect ".note" "a" "note")) st1 in
  let st3 := after (exec (CallAddsect ".rodata" "a" "progbits")) st2 in
  NoDup (p_sects (as_prog st3)) ∧ p_sects (as_prog st3) = [3%nat; 4%nat]
  ∧ as_sect st3 = Some 3%nat.
Proof.
  intros st0 st1 st2 st3. split; [|by split].
  exact (proj1 (user_sections_have_own_names st0 st3
           (newas_user_sections "amd64" "linux" "t.s")
           (reaches_step (CallAddsect ".rodata" "a" "progbits") st0 st2 st3
              (reaches_step (CallAddsect ".note" "a" "note") st0 st1 st2
                 (reaches_step (CallAddsect ".rodata" "a" "progbits") st0 st0 st1
                    (reaches_refl st0) (or_introl eq_refl))
                 (or_introl eq_refl))
              (or_introl eq_refl)))).
Defined.

(** ** A sink that accepts every write *)

Section Accepting.
Context {Sink : Type}.
Variable sink_write : list byte → Sink → Sink * nat * option error.
Variable x86as : heap * prog → string → list byte → encoded.
Variable genelf : heap * prog → writing.
(** The bytes a sink holds. *)
Variable held : Sink → list byte.
Hypothesis accepts : ∀ p s,
  (sink_write p s).1.2 = length p ∧ (sink_write p s).2 = None
  ∧ held (sink_write p s).1.1 = held s ++ p.










End Accepting.


(** ** The lists of symbols *)

Lemma typed_heap_other st h :
  typed st → h_sym h = h_sym (as_heap st) → h_sect h = h_sect (as_heap st) →
  typed (set_as_heap h st).
Proof.
  intros (Hd & Hu & Hs) Hy Hx. unfold typed, typ_of in *. simpl. by rewrite Hy, Hx.
Qed.

Lemma typed_prog st g :
  typed st → p_usyms g = p_usyms (as_prog st) → typed (set_as_prog g st).
Proof. intros (Hd & Hu & Hs) Hg. unfold typed. simpl. by rewrite Hg. Qed.

Lemma typed_sect st s : typed st → typed (set_as_sect s st).
Proof. done. Qed.

Lemma typ_of_new st y p :
  (p < length (h_sym (as_heap st)))%nat →
  typ_of (on_cells symbols (λ l, l ++ [y]) (as_heap st)) p = typ_of (as_heap st) p.
Proof. intros Hp. unfold typ_of. simpl. by rewrite lookup_app_l. Qed.

Lemma typ_of_valid h p t : typ_of h p = Some t → (p < length (h_sym h))%nat.
Proof.
  unfold typ_of. intros H. destruct (h_sym h !! p) eqn:Hp; [|done].
  by eapply lookup_lt_Some.
Qed.

(** A new symbol of a type other than [sUND]. *)
Lemma typed_new_sym st y :
  typed st → sym_typ y ≠ sUND →
  typed (set_as_heap (on_cells symbols (λ l, l ++ [y]) (as_heap st)) st).
Proof.
  intros (Hd & Hu & Hs) Hy. split; [done|]. split.
  - intros p. simpl. rewrite Hu. split.
    + intros Hp. rewrite typ_of_new; [done|]. by eapply typ_of_valid.
    + intros Hp. destruct (decide (p < length (h_sym (as_heap st)))%nat) as [Hlt|Hge].
      * by rewrite typ_of_new in Hp.
      * unfold typ_of in Hp. simpl in Hp. rewrite lookup_app_r in Hp by lia.
        destruct (p - length (h_sym (as_heap st)))%nat; simpl in Hp; [|done].
        congruence.
  - intros q x Hx. simpl in Hx. destruct (Hs q x Hx) as (H1 & H2 & H3 & H4).
    split; [done|]. split; [done|]. split; intros p Hp; simpl.
    + rewrite typ_of_new; [auto|]. eapply typ_of_valid. eauto.
    + rewrite typ_of_new; [auto|]. eapply typ_of_valid. eauto.
Qed.

Lemma typ_of_update st q x y p :
  cells symbols (as_heap st) !! q = Some x → sym_typ y = sym_typ x →
  typ_of (on_cells symbols (λ l, <[q := y]> l) (as_heap st)) p = typ_of (as_heap st) p.
Proof.
  intros Hx Hy. unfold typ_of. simpl in *. destruct (decide (p = q)) as [->|Hne].
  - rewrite (lookup_insert_same _ _ _ _ Hx), Hx. simpl. by rewrite Hy.
  - by rewrite list_lookup_insert_ne.
Qed.

(** An update of a symbol that keeps its type. *)
Lemma typed_update_sym st q x y :
  typed st → cells symbols (as_heap st) !! q = Some x → sym_typ y = sym_typ x →
  typed (set_as_heap (on_cells symbols (λ l, <[q := y]> l) (as_heap st)) st).
Proof.
  intros (Hd & Hu & Hs) Hx Hy. split; [done|]. split.
  - intros p. simpl. by rewrite (typ_of_update _ _ _ _ _ Hx Hy).
  - intros q' x' Hx'. simpl in Hx'. destruct (Hs q' x' Hx') as (H1 & H2 & H3 & H4).
    split; [done|]. split; [done|].
    split; intros p Hp; simpl; rewrite (typ_of_update _ _ _ _ _ Hx Hy); auto.
Qed.

(** An update of a section that keeps its labels and blocks. *)
Lemma typed_update_sect st q x y :
  typed st → cells sections (as_heap st) !! q = Some x →
  s_labels y = s_labels x → s_blocks y = s_blocks x →
  typed (set_as_heap (on_cells sections (λ l, <[q := y]> l) (as_heap st)) st).
Proof.
  intros (Hd & Hu & Hs) Hx Hl Hb. split; [done|]. split; [done|].
  intros q' x' Hx'. simpl in *. destruct (decide (q' = q)) as [->|Hne].
  - rewrite (lookup_insert_same _ _ _ _ Hx) in Hx'. injection Hx' as <-.
    rewrite Hl, Hb. exact (Hs q x Hx).
  - rewrite list_lookup_insert_ne in Hx' by done. exact (Hs q' x' Hx').
Qed.

Lemma typed_new_sect st name flags typ :
  typed st →
  typed (set_as_heap (on_cells sections (λ l, l ++ [newsection name flags typ])
           (as_heap st)) st).
Proof.
  intros (Hd & Hu & Hs). split; [done|]. split; [done|].
  intros q x Hx. simpl in Hx.
  destruct (decide (q < length (h_sect (as_heap st)))%nat) as [Hlt|Hge].
  - rewrite lookup_app_l in Hx by done. exact (Hs q x Hx).
  - rewrite lookup_app_r in Hx by lia.
    destruct (q - length (h_sect (as_heap st)))%nat; [|done].
    injection Hx as <-. simpl.
    split; [apply NoDup_nil_2|]. split; [apply NoDup_nil_2|].
    split; intros p Hp; by apply elem_of_nil in Hp.
Qed.

(** The first step of a declaration: an untyped symbol gets its type. *)
Lemma declaring_start st p x y t :
  typed st → cells symbols (as_heap st) !! p = Some x → sym_typ x = sNONE →
  sym_typ y = t → t ≠ sUND →
  declaring p t (set_as_heap (on_cells symbols (λ l, <[p := y]> l) (as_heap st)) st).
Proof.
  intros (Hd & Hu & Hs) Hx Hn Hy Ht. simpl in Hx.
  assert (Hp : typ_of (as_heap st) p = Some sNONE) by (unfold typ_of; by rewrite Hx, <- Hn).
  assert (Hother : ∀ p', p' ≠ p →
    typ_of (on_sym (λ l, <[p := y]> l) (as_heap st)) p' = typ_of (as_heap st) p').
  { intros p' Hne. unfold typ_of. simpl. by rewrite list_lookup_insert_ne. }
  assert (Hnew : typ_of (on_sym (λ l, <[p := y]> l) (as_heap st)) p = Some t).
  { unfold typ_of. simpl. rewrite (lookup_insert_same _ _ _ _ Hx). simpl. by rewrite Hy. }
  split; [|split; [exact Hnew|]].
  - split; [done|]. split.
    + intros p'. simpl. rewrite Hu. destruct (decide (p' = p)) as [->|Hne].
      * rewrite Hnew, Hp. split; intros [=]; by subst.
      * by rewrite Hother.
    + intros q x' Hx'. simpl in Hx'. destruct (Hs q x' Hx') as (H1 & H2 & H3 & H4).
      split; [done|]. split; [done|]. split; intros p' Hp'; simpl.
      * destruct (decide (p' = p)) as [->|Hne]; [|rewrite Hother; auto].
        apply H3 in Hp'. rewrite Hp in Hp'. discriminate.
      * destruct (decide (p' = p)) as [->|Hne]; [|rewrite Hother; auto].
        apply H4 in Hp'. rewrite Hp in Hp'. discriminate.
  - intros q x' Hx'. simpl in Hx'. destruct (Hs q x' Hx') as (H1 & H2 & H3 & H4).
    split; intros Hin.
    + apply H3 in Hin. rewrite Hp in Hin. discriminate.
    + apply H4 in Hin. rewrite Hp in Hin. discriminate.
Qed.

Lemma declaring_update_sym st p t q x y :
  declaring p t st → cells symbols (as_heap st) !! q = Some x → sym_typ y = sym_typ x →
  declaring p t (set_as_heap (on_cells symbols (λ l, <[q := y]> l) (as_heap st)) st).
Proof.
  intros (HI & Hp & Hno) Hx Hy. split; [by eapply typed_update_sym|].
  split; [|done]. simpl. by rewrite (typ_of_update _ _ _ _ _ Hx Hy).
Qed.

Lemma declaring_update_sect st p t q x y :
  declaring p t st → cells sections (as_heap st) !! q = Some x →
  s_labels y = s_labels x → s_blocks y = s_blocks x →
  declaring p t (set_as_heap (on_cells sections (λ l, <[q := y]> l) (as_heap st)) st).
Proof.
  intros (HI & Hp & Hno) Hx Hl Hb. split; [by eapply typed_update_sect|].
  split; [done|]. intros q' x' Hx'. simpl in *. destruct (decide (q' = q)) as [->|Hne].
  - rewrite (lookup_insert_same _ _ _ _ Hx) in Hx'. injection Hx' as <-.
    rewrite Hl, Hb. exact (Hno q x Hx).
  - rewrite list_lookup_insert_ne in Hx' by done. exact (Hno q' x' Hx').
Qed.

(** The last step of a declaration: the symbol joins a list. *)
Lemma typed_push_label st p q x y :
  declaring p sLABEL st → cells sections (as_heap st) !! q = Some x →
  s_labels y = s_labels x ++ [p] → s_blocks y = s_blocks x →
  typed (set_as_heap (on_cells sections (λ l, <[q := y]> l) (as_heap st)) st).
Proof.
  intros ((Hd & Hu & Hs) & Hp & Hno) Hx Hl Hb. split; [done|]. split; [done|].
  intros q' x' Hx'. simpl in *. destruct (decide (q' = q)) as [->|Hne].
  - rewrite (lookup_insert_same _ _ _ _ Hx) in Hx'. injection Hx' as <-.
    destruct (Hs q x Hx) as (H1 & H2 & H3 & H4). destruct (Hno q x Hx) as (Hn1 & Hn2).
    rewrite Hl, Hb. split.
    { apply NoDup_app. split; [done|]. split; [|apply NoDup_singleton].
      intros p' Hp' Heq. apply list_elem_of_singleton in Heq. by subst. }
    split; [done|]. split; [|exact H4].
    intros p' Hp'. apply elem_of_app in Hp' as [Hp'|Hp']; [exact (H3 _ Hp')|].
    apply list_elem_of_singleton in Hp'. by subst.
  - rewrite list_lookup_insert_ne in Hx' by done. exact (Hs q' x' Hx').
Qed.

Lemma typed_push_block st p q x y :
  declaring p sBSS st → cells sections (as_heap st) !! q = Some x →
  s_labels y = s_labels x → s_blocks y = s_blocks x ++ [p] →
  typed (set_as_heap (on_cells sections (λ l, <[q := y]> l) (as_heap st)) st).
Proof.
  intros ((Hd & Hu & Hs) & Hp & Hno) Hx Hl Hb. split; [done|]. split; [done|].
  intros q' x' Hx'. simpl in *. destruct (decide (q' = q)) as [->|Hne].
  - rewrite (lookup_insert_same _ _ _ _ Hx) in Hx'. injection Hx' as <-.
    destruct (Hs q x Hx) as (H1 & H2 & H3 & H4). destruct (Hno q x Hx) as (Hn1 & Hn2).
    rewrite Hl, Hb. split; [done|]. split.
    { apply NoDup_app. split; [done|]. split; [|apply NoDup_singleton].
      intros p' Hp' Heq. apply list_elem_of_singleton in Heq. by subst. }
    split; [exact H3|].
    intros p' Hp'. apply elem_of_app in Hp' as [Hp'|Hp']; [exact (H4 _ Hp')|].
    apply list_elem_of_singleton in Hp'. by subst.
  - rewrite list_lookup_insert_ne in Hx' by done. exact (Hs q' x' Hx').
Qed.

(** A new symbol of type [sUND] that joins the undefined-symbols list. *)
Lemma typed_declare_extern st y h g :
  typed st → sym_typ y = sUND →
  h_sym h = h_sym (as_heap st) ++ [y] → h_sect h = h_sect (as_heap st) →
  p_usyms g = p_usyms (as_prog st) ++ [length (h_sym (as_heap st))] →
  typed (set_as_prog g (set_as_heap h st)).
Proof.
  intros (Hd & Hu & Hs) Hy Hh Hx Hg.
  assert (Hold : ∀ p, (p < length (h_sym (as_heap st)))%nat →
    typ_of h p = typ_of (as_heap st) p).
  { intros p Hp. unfold typ_of. by rewrite Hh, lookup_app_l. }
  assert (Hnew : typ_of h (length (h_sym (as_heap st))) = Some sUND).
  { unfold typ_of. rewrite Hh, lookup_snoc. simpl. by rewrite Hy. }
  assert (Hfresh : length (h_sym (as_heap st)) ∉ p_usyms (as_prog st)).
  { intros Hin. apply Hu, typ_of_valid in Hin. lia. }
  split; [|split]; simpl.
  - rewrite Hg. apply NoDup_app. split; [done|]. split; [|apply NoDup_singleton].
    intros p Hp Heq. apply list_elem_of_singleton in Heq. by subst.
  - intros p. rewrite Hg, elem_of_app, list_elem_of_singleton, Hu.
    destruct (decide (p < length (h_sym (as_heap st)))%nat) as [Hlt|Hge].
    + rewrite Hold by done. split; [|by left]. intros [H|H]; [done|lia].
    + split.
      * intros [H | ->]; [apply typ_of_valid in H; lia|done].
      * intros H. right. apply typ_of_valid in H. rewrite Hh, length_app in H.
        simpl in H. lia.
  - rewrite Hx. intros q x Hq. destruct (Hs q x Hq) as (H1 & H2 & H3 & H4).
    split; [done|]. split; [done|]. split; intros p Hp.
    + rewrite Hold; [auto|]. eapply typ_of_valid. eauto.
    + rewrite Hold; [auto|]. eapply typ_of_valid. eauto.
Qed.

Lemma newas_typed (arch os_ file : string) : typed (newas arch os_ file).
Proof.
  split; [apply NoDup_nil_2|]. split.
  - intros p. simpl. split; [by intros H; apply elem_of_nil in H|].
    intros H. unfold typ_of in H. simpl in H. by rewrite ?lookup_nil in H.
  - intros q x Hx. simpl in Hx.
    destruct q as [|[|[|q]]]; simpl in Hx; try done; injection Hx as <-; simpl;
      (split; [apply NoDup_nil_2|]; split; [apply NoDup_nil_2|];
       split; intros p Hp; by apply elem_of_nil in Hp).
Qed.

Section Typed.
Local Abbreviation I := typed.

Ltac typed_again HI :=
  lazymatch goal with
  | |- typed (set_as_heap (on_cells symbols (λ l, l ++ [_]) _) _) =>
      apply typed_new_sym; [typed_again HI | discriminate]
  | |- typed (set_as_heap (on_cells sections (λ l, l ++ [_]) _) _) =>
      apply typed_new_sect; typed_again HI
  | |- typed (set_as_heap (on_cells sections (λ l, <[_ := set_s_labels _ _]> l) _) _) =>
      eapply typed_push_label;
        [declaring_again HI | eassumption | reflexivity | reflexivity]
  | |- typed (set_as_heap (on_cells sections (λ l, <[_ := set_s_blocks _ _]> l) _) _) =>
      eapply typed_push_block;
        [declaring_again HI | eassumption | reflexivity | reflexivity]
  | |- typed (set_as_heap (on_cells sections (λ l, <[_ := _]> l) _) _) =>
      eapply typed_update_sect; [typed_again HI | eassumption | reflexivity | reflexivity]
  | |- typed (set_as_heap (on_cells symbols (λ l, <[_ := _]> l) _) _) =>
      eapply typed_update_sym; [typed_again HI | eassumption | reflexivity]
  | |- typed (set_as_heap _ _) =>
      apply typed_heap_other; [typed_again HI | reflexivity | reflexivity]
  | |- typed (set_as_prog _ _) => apply typed_prog; [typed_again HI | reflexivity]
  | |- typed (set_as_sect _ _) => apply typed_sect; typed_again HI
  | |- _ => exact HI
  end
with declaring_again HI :=
  lazymatch goal with
  | |- declaring _ _
         (set_as_heap (on_cells symbols (λ l, <[_ := set_sym_typ _ _]> l) _) _) =>
      eapply declaring_start;
        [typed_again HI | eassumption | congruence | reflexivity | discriminate]
  | |- declaring _ _ (set_as_heap (on_cells symbols (λ l, <[_ := _]> l) _) _) =>
      eapply declaring_update_sym; [declaring_again HI | eassumption | reflexivity]
  | |- declaring _ _ (set_as_heap (on_cells sections (λ l, <[_ := _]> l) _) _) =>
      eapply declaring_update_sect;
        [declaring_again HI | eassumption | reflexivity | reflexivity]
  end.

Ltac typed_call lem HI :=
  apply wp_bind; eapply wp_mono;
    [apply lem; typed_again HI | cbv beta; clear HI; intros ? ? HI].

Ltac untyped :=
  repeat match goal with
  | Hb : bool_decide (sym_typ _ = sNONE) = true |- _ => apply bool_decide_eq_true in Hb
  end.

Ltac typed_run HI := repeat xstep; untyped; typed_again HI.

Lemma gsym_typed (name : string) (s : option ptr) : keeps I (gsym name s).
Proof. intros st HI. unfold gsym. typed_run HI. Qed.

(** [fsym] makes the symbol before it lists it: the lists are right
    again when it returns. *)
Lemma fsym_typed (typ : Z) (name : string) : keeps I (fsym typ name).
Proof.
  intros st HI. unfold wp.
  destruct (decide ((typ ≠ aVAR ∧ typ ≠ aPTR) ∨ name = "")) as [Hs|Hs];
    [by rewrite (fsym_skip _ _ _ Hs)|].
  assert (typ = aVAR ∨ typ = aPTR) as Ht.
  { destruct (decide (typ = aVAR)); [tauto|]. destruct (decide (typ = aPTR)); tauto. }
  assert (name ≠ "") as Hne by tauto.
  destruct (p_syms (as_prog st) !! name) as [p|] eqn:Hn;
    [by rewrite (fsym_known _ _ _ _ Ht Hne Hn)|].
  rewrite (fsym_fresh typ name st Ht Hne Hn).
  by apply (typed_declare_extern st (extern name) _ _ HI).
Qed.

Lemma addglobal_typed (name : string) : keeps I (addglobal name).
Proof.
  intros st HI. unfold addglobal. do 2 xstep. typed_call gsym_typed HI. typed_run HI.
Qed.

Lemma addbss_typed_lists (name : string) (size : Z) (allocated : bool) :
  keeps I (addbss name size allocated).
Proof.
  intros st HI. unfold addbss. do 2 xstep. typed_call gsym_typed HI. typed_run HI.
Qed.

Lemma addlabel_typed_lists (name : string) (off pc : Z) : keeps I (addlabel name off pc).
Proof.
  intros st HI. unfold addlabel. do 2 xstep. typed_call gsym_typed HI. typed_run HI.
Qed.

Lemma code_loop_typed (v : list value) (c : list byte) : keeps I (code_loop c v).
Proof.
  revert c. induction v as [|x v IH]; intros c st HI; [by apply wp_ret|].
  destruct x; cbn [code_loop]; repeat xstep; try (by apply IH); typed_again HI.
Qed.

Lemma emit_typed (o : op) (ad : addr4) (v : list value) : keeps I (emit o ad v).
Proof.
  intros st HI. unfold emit, code. typed_call code_loop_typed HI. typed_run HI.
Qed.

Lemma addrel_typed (o : op) (ad : addr4) : keeps I (addrel o ad).
Proof. intros st HI. unfold addrel. typed_run HI. Qed.

Lemma find_sect_typed (name : string) (l : list ptr) : keeps I (find_sect name l).
Proof.
  induction l as [|s l IH]; intros st HI; cbn [find_sect]; [by apply wp_ret|].
  repeat xstep; try (by apply IH); typed_again HI.
Qed.

Lemma addsect_typed (name flags typ : string) : keeps I (addsect name flags typ).
Proof.
  intros st HI. unfold addsect. xstep.
  eapply (wp_mono _ (λ _, I)); [repeat xstep; typed_again HI|].
  clear st HI. intros _ st HI. cbv beta. xstep.
  eapply (wp_mono _ (λ _, I)); [repeat xstep; typed_again HI|].
  clear st HI. intros xtyp st HI. cbv beta. do 2 xstep.
  typed_call find_sect_typed HI. typed_run HI.
Qed.

Lemma bytes_typed (s : option ptr) (buf : list byte) : keeps I (bytes s buf).
Proof. intros st HI. unfold bytes. typed_run HI. Qed.

Lemma strz_typed (s : option ptr) (str : string) : keeps I (strz s str).
Proof. intros st HI. unfold strz. typed_run HI. Qed.

Lemma alignpc_typed (align : Z) (value : byte) : keeps I (alignpc align value).
Proof.
  intros st HI. unfold alignpc. repeat xstep; try typed_again HI. by apply bytes_typed.
Qed.

Lemma exec_typed (c : call) : keeps I (exec c).
Proof.
  destruct c; simpl.
  - apply emit_typed.
  - intros st HI. typed_call gsym_typed HI. by xstep.
  - intros st HI. typed_call fsym_typed HI. by xstep.
  - apply addglobal_typed.
  - apply addbss_typed_lists.
  - apply addlabel_typed_lists.
  - apply addrel_typed.
  - apply addsect_typed.
  - apply alignpc_typed.
  - apply strz_typed.
  - apply bytes_typed.
Qed.
End Typed.

Lemma reaches_typed (st st' : as_) : reaches st st' → typed st → typed st'.
Proof.
  induction 1 as [|c st st' st'' _ IH Hc]; [done|]. intros H0.
  pose proof (exec_typed c st' (IH H0)) as Hw. unfold wp in Hw.
  destruct Hc as [Hc|[e Hc]]; by rewrite Hc in Hw.
Qed.

(** X15. The lists of symbols hold what they should.  If the
    undefined-symbols list holds exactly the symbols of type [sUND],
    each once, and in every section the list of labels holds symbols
    of type [sLABEL] only and the list of blocks symbols of type
    [sBSS] only, each once, as in a fresh assembler, then the same
    holds after any calls. *)
Theorem lists_hold_their_kind (st st' : as_) (H0 : typed st) (H : reaches st st') :
  NoDup (p_usyms (as_prog st'))
  ∧ (∀ p, p ∈ p_usyms (as_prog st')
       ↔ ∃ y, h_sym (as_heap st') !! p = Some y ∧ sym_typ y = sUND)
  ∧ ∀ q x, h_sect (as_heap st') !! q = Some x →
      NoDup (s_labels x) ∧ NoDup (s_blocks x)
      ∧ (∀ p, p ∈ s_labels x →
           ∃ y, h_sym (as_heap st') !! p = Some y ∧ sym_typ y = sLABEL)
      ∧ (∀ p, p ∈ s_blocks x →
           ∃ y, h_sym (as_heap st') !! p = Some y ∧ sym_typ y = sBSS).
Proof.
  assert (Ht : ∀ p t, typ_of (as_heap st') p = Some t
                 ↔ ∃ y, h_sym (as_heap st') !! p = Some y ∧ sym_typ y = t).
  { intros p t. unfold typ_of. destruct (h_sym (as_heap st') !! p) as [y|]; simpl.
    - split; [intros [= <-]; by exists y|]. by intros (y' & [= <-] & <-).
    - split; [done|]. by intros (y' & Hy & _). }
  destruct (reaches_typed _ _ H H0) as (Hd & Hu & Hs).
  split; [done|]. split.
  - intros p. by rewrite Hu, Ht.
  - intros q x Hx. destruct (Hs q x Hx) as (H1 & H2 & H3 & H4).
    split; [done|]. split; [done|]. split; intros p Hp; apply Ht; auto.
Qed.

Lemma lists_hold_their_kind_witness :
  let st0 := set_as_sect (Some 0%nat) (newas "amd64" "linux" "t.s") in
  let st1 := after (exec (CallAddlabel "L" 16 3)) st0 in
  let st2 := after (exec (CallFsym aVAR "x")) st1 in
  let st3 := after (exec (CallAddbss "v" 8 true)) st2 in
  NoDup (p_usyms (as_prog st3)) ∧ p_usyms (as_prog st3) = [1%nat]
  ∧ (s_labels <$> h_sect (as_heap st3) !! 0%nat) = Some [0%nat]
  ∧ (s_blocks <$> h_sect (as_heap st3) !! 2%nat) = Some [2%nat].
Proof.
  intros st0 st1 st2 st3. split; [|by vm_compute].
  assert (H1 : leaves (CallAddlabel "L" 16 3) st0 st1) by (left; vm_compute; reflexivity).
  assert (H2 : leaves (CallFsym aVAR "x") st1 st2) by (left; vm_compute; reflexivity).
  assert (H3 : leaves (CallAddbss "v" 8 true) st2 st3) by (left; vm_compute; reflexivity).
  exact (proj1 (lists_hold_their_kind st0 st3
           (typed_sect _ _ (newas_typed "amd64" "linux" "t.s"))
           (reaches_step _ st0 st2 st3
              (reaches_step _ st0 st1 st2
                 (reaches_step _ st0 st0 st1 (reaches_refl st0) H1) H2) H3))).
Defined.
